(** * TPP website code search: extraction and ranking

A shallow embedding of the two search programs of the repository,
[simple_tpp_search.py] (keyword search, module [Simple]) and
[tpp_code_search.py] (embedding search, module [TPP]), together with
the properties their specification states about them.

Conventions of the embedding.
- Python text is a list of character codes ([str]); the character
  classes and case mapping are those of the ASCII range.
- Python exceptions are values of [exn]; a computation that may raise
  returns a [result].
- The chunk store [self.code_chunks] is a list of records; a chunk
  object is identified by its position in that list, so a result list
  (a Python list of references to stored chunks) is a list of
  positions, read through the store.
- The scores of the keyword search are floats that are whole numbers
  until the one division, and are kept as the rationals they stand
  for; the division of floats is a parameter of the model, of which a
  theorem assumes what it needs.  The arithmetic of the embedding
  search is that of the floats ([SpecFloat]). *)

From Stdlib Require Import List Ascii String ZArith QArith Lia Bool Arith.
From Stdlib Require Import Permutation Sorted SpecFloat.
Import ListNotations.

Set Implicit Arguments.
Set Warnings "-register-all".

(** ** Text *)

Definition str := list ascii.

Definition s2l (s : string) : str := list_ascii_of_string s.

Definition chr (n : nat) : ascii := ascii_of_nat n.

Definition NL : ascii := chr 10.
Definition DQ : ascii := chr 34.
Definition SQ : ascii := chr 39.

(** [ord(c)] *)
Definition ord (c : ascii) : nat := nat_of_ascii c.

Definition ascii_eqb (a b : ascii) : bool := Ascii.eqb a b.

Arguments ascii_eqb : simpl never.

(** [c.isspace()] over the ASCII range: TAB, LF, VT, FF, CR, the four
  separators FS GS RS US, and the space. *)
Definition is_space (c : ascii) : bool :=
  let n := ord c in
  ((9 <=? n) && (n <=? 13)) || ((28 <=? n) && (n <=? 32)).

Definition is_upper (c : ascii) : bool :=
  let n := ord c in (65 <=? n) && (n <=? 90).

Definition lower_char (c : ascii) : ascii :=
  if is_upper c then chr (ord c + 32) else c.

(** [s.lower()] *)
Definition lower (s : str) : str := map lower_char s.

Fixpoint str_eqb (a b : str) : bool :=
  match a, b with
  | [], [] => true
  | x :: a', y :: b' => ascii_eqb x y && str_eqb a' b'
  | _, _ => false
  end.

(** [s.startswith(p)] *)
Fixpoint starts_with (p s : str) : bool :=
  match p, s with
  | [], _ => true
  | x :: p', y :: s' => ascii_eqb x y && starts_with p' s'
  | _ :: _, [] => false
  end.

(** [p in s] : [p] occurs as a contiguous substring of [s]. *)
Fixpoint contains (p s : str) : bool :=
  starts_with p s ||
  match s with
  | [] => false
  | _ :: s' => contains p s'
  end.

(** [s.split()] : maximal runs of non-whitespace characters.  [cur] holds
  the run being read, reversed. *)
Fixpoint split_ws_go (cur : str) (s : str) : list str :=
  match s with
  | [] => match cur with [] => [] | _ => [rev cur] end
  | c :: s' =>
      if is_space c
      then match cur with
           | [] => split_ws_go [] s'
           | _ => rev cur :: split_ws_go [] s'
           end
      else split_ws_go (c :: cur) s'
  end.

Definition split_ws (s : str) : list str := split_ws_go [] s.

(** [s.count('\n')] *)
Definition count_nl (s : str) : nat :=
  List.length (filter (ascii_eqb NL) s).

(** [s.split('\n')] : always at least one line. *)
Fixpoint split_lines (s : str) : list str :=
  match s with
  | [] => [[]]
  | c :: s' =>
      if ascii_eqb NL c then [] :: split_lines s'
      else match split_lines s' with
           | [] => [[c]]
           | l :: ls => (c :: l) :: ls
           end
  end.

(** ['\n'.join(ls)] *)
Fixpoint join_lines (ls : list str) : str :=
  match ls with
  | [] => []
  | [l] => l
  | l :: ls' => l ++ NL :: join_lines ls'
  end.

(** [l[a:b]] for non-negative bounds. *)
Definition slice {A} (a b : nat) (l : list A) : list A :=
  firstn (b - a) (skipn a l).

(** [l[:k]] for a Python integer [k]: a negative [k] counts from the
  end. *)
Definition take_py {A} (k : Z) (l : list A) : list A :=
  if (0 <=? k)%Z then firstn (Z.to_nat k) l
  else firstn (List.length l - Z.to_nat (- k)) l.

(** ** Exceptions *)

Inductive exn : Type :=
| ZeroDivisionError
| TypeError
| IndexError
| ValueError
| JSONDecodeError
| OtherException.

Inductive result (A : Type) : Type :=
| Ok (a : A)
| Raise (e : exn).

Arguments Ok {A} a.
Arguments Raise {A} e.

Definition bind {A B} (r : result A) (k : A -> result B) : result B :=
  match r with
  | Ok a => k a
  | Raise e => Raise e
  end.

Notation "x <- r ;; k" := (bind r (fun x => k))
  (at level 61, r at next level, right associativity).

(** [s.find(p, start)] : the least position at or after [start] where
  [p] occurs; [None] stands for -1. *)
Fixpoint find_go (p s : str) (pos : nat) : option nat :=
  if starts_with p s then Some pos
  else match s with
       | [] => None
       | _ :: s' => find_go p s' (S pos)
       end.

Definition find_from (p s : str) (start : nat) : option nat :=
  if List.length s <? start then None
  else find_go p (skipn start s) start.

(** [s[:n]] followed by the marker when [len(s) > n], else [s]
  itself. *)
Definition ellipsis : str := s2l "...".

Definition cap (n : nat) (s : str) : str :=
  if n <? List.length s then firstn n s ++ ellipsis else s.

(** [s.strip()] : without the whitespace at both ends. *)
Fixpoint lstrip (s : str) : str :=
  match s with
  | c :: s' => if is_space c then lstrip s' else s
  | [] => []
  end.

Definition rstrip (s : str) : str := rev (lstrip (rev s)).

Definition strip (s : str) : str := rstrip (lstrip s).

(** [s.replace('\n', ' ')] *)
Definition newlines_to_spaces (s : str) : str :=
  map (fun c => if ascii_eqb c NL then chr 32 else c) s.

(** The text of one file of the project: what [read_text] returns, or
    the exception it raises. *)
Record file : Type := mkFile {
  f_path : str;
  f_read : result str
}.

(** The directory names an indexing pass leaves out. *)
Definition skip_dirs : list string :=
  [".git"; "__pycache__"; "node_modules"; ".venv"; "test-results";
   "playwright-report"; ".claude-flow"; ".hive-mind"; ".swarm"]%string.

(** [any(skip_dir in str(file_path) for skip_dir in skip_dirs)] *)
Definition skipped (path : str) : bool :=
  existsb (fun skip_dir => contains (s2l skip_dir) path) skip_dirs.


(** ** Regular expressions

The fragment of Python's [re] the extractors use, matched the way
[re] matches: by backtracking, alternatives tried from the left,
repetitions greedy.  A repetition always ranges over a character
class, so the matcher is structural. *)

Module Regex.

Inductive re : Type :=
  | Eps
  | Chr (p : ascii -> bool)
  | Seq (a b : re)
  | Alt (a b : re)
  | Star (p : ascii -> bool)
  | UpTo (n : nat) (p : ascii -> bool)
  | Group (n : nat) (r : re)
  | Eol.

Definition captures := list (nat * (nat * nat)).

Record mtch : Type := mkMatch {
    m_start : nat;
    m_end : nat;
    m_caps : captures
  }.

Definition cont := str -> nat -> captures -> option mtch.

Definition or_else (a : option mtch) (b : unit -> option mtch) :=
  match a with
  | Some m => Some m
  | None => b tt
  end.

(** [p*] : as many characters as possible, giving them back one by one
    while the rest of the pattern fails. *)
Fixpoint star (p : ascii -> bool) (s : str) (pos : nat) (caps : captures)
         (k : cont) : option mtch :=
  match s with
  | c :: s' =>
      if p c
      then or_else (star p s' (S pos) caps k) (fun _ => k s pos caps)
      else k s pos caps
  | [] => k s pos caps
  end.

(** [p{0,n}] *)
Fixpoint upto (n : nat) (p : ascii -> bool) (s : str) (pos : nat)
         (caps : captures) (k : cont) : option mtch :=
  match n, s with
  | S n', c :: s' =>
      if p c
      then or_else (upto n' p s' (S pos) caps k) (fun _ => k s pos caps)
      else k s pos caps
  | _, _ => k s pos caps
  end.

Fixpoint run (r : re) (s : str) (pos : nat) (caps : captures) (k : cont)
  : option mtch :=
  match r with
  | Eps => k s pos caps
  | Chr p =>
      match s with
      | c :: s' => if p c then k s' (S pos) caps else None
      | [] => None
      end
  | Seq a b => run a s pos caps (fun s1 p1 c1 => run b s1 p1 c1 k)
  | Alt a b => or_else (run a s pos caps k) (fun _ => run b s pos caps k)
  | Star p => star p s pos caps k
  | UpTo n p => upto n p s pos caps k
  | Group n a =>
      run a s pos caps (fun s1 p1 c1 => k s1 p1 ((n, (pos, p1)) :: c1))
  | Eol =>
      match s with
      | [] => k s pos caps
      | [c] => if ascii_eqb c NL then k s pos caps else None
      | _ => None
      end
  end.

(** One attempt at position [pos], where [s] is the text from [pos]
    on. *)
Definition exec (r : re) (s : str) (pos : nat) : option mtch :=
  run r s pos [] (fun _ e caps => Some (mkMatch pos e caps)).

(** [re.match(r, s)] *)
Definition match_ (r : re) (s : str) : option mtch := exec r s 0.

(** [re.finditer(r, s)] for a pattern that matches no empty text: the
    leftmost match, then the leftmost match behind it, and so on.
    [resume] is the end of the last match. *)
Fixpoint finditer_go (r : re) (s : str) (pos resume : nat) : list mtch :=
  match s with
  | [] => []
  | _ :: s' =>
      if pos <? resume then finditer_go r s' (S pos) resume
      else match exec r s pos with
           | Some m => m :: finditer_go r s' (S pos) (m_end m)
           | None => finditer_go r s' (S pos) resume
           end
  end.

Definition finditer (r : re) (s : str) : list mtch := finditer_go r s 0 0.

(** [re.search(r, s)] *)
Definition search (r : re) (s : str) : option mtch :=
  match finditer r s with
  | [] => None
  | m :: _ => Some m
  end.

Fixpoint lookup (n : nat) (caps : captures) : option (nat * nat) :=
  match caps with
  | [] => None
  | (g, span) :: rest => if Nat.eqb g n then Some span else lookup n rest
  end.

(** [m.group(n)] for a group that took part in the match. *)
Definition group (n : nat) (s : str) (m : mtch) : str :=
  match lookup n (m_caps m) with
  | Some (a, b) => slice a b s
  | None => []
  end.

(** [m.group(0)] *)
Definition group0 (s : str) (m : mtch) : str :=
  slice (m_start m) (m_end m) s.

(** Building patterns. *)
Fixpoint seqs (rs : list re) : re :=
  match rs with
  | [] => Eps
  | [r] => r
  | r :: rs' => Seq r (seqs rs')
  end.

Fixpoint alts (rs : list re) : re :=
  match rs with
  | [] => Eps
  | [r] => r
  | r :: rs' => Alt r (alts rs')
  end.

Definition eq_chr (x : ascii) : ascii -> bool := fun c => ascii_eqb c x.
Definition eq_chr_ci (x : ascii) : ascii -> bool :=
  fun c => ascii_eqb (lower_char c) (lower_char x).
Definition ne_chr (x : ascii) : ascii -> bool := fun c => negb (ascii_eqb c x).

(** A literal text, and the same under [re.IGNORECASE]. *)
Definition lit (s : string) : re := seqs (map (fun x => Chr (eq_chr x)) (s2l s)).
Definition lit_ci (s : string) : re :=
  seqs (map (fun x => Chr (eq_chr_ci x)) (s2l s)).

Definition plus (p : ascii -> bool) : re := Seq (Chr p) (Star p).

(** The classes: whitespace, word characters, the two quote
    characters, their complement, and the dot. *)
Definition space : ascii -> bool := is_space.
Definition word : ascii -> bool := fun c =>
  let n := ord c in
  ((48 <=? n) && (n <=? 57)) || ((65 <=? n) && (n <=? 90))
  || ((97 <=? n) && (n <=? 122)) || (n =? 95).
Definition quote : ascii -> bool := fun c => ascii_eqb c DQ || ascii_eqb c SQ.
Definition not_quote : ascii -> bool := fun c => negb (quote c).
Definition any : ascii -> bool := ne_chr NL.

End Regex.

(** ** Stable sorting by a rational key

[l.sort(key=f, reverse=True)] : descending by key, elements with equal
keys keep their relative order.  An element is placed in front of the
first element whose key is not larger than its own. *)

Section SortDesc.
Variable A : Type.
Variable key : A -> Q.

Fixpoint insert_desc (x : A) (l : list A) : list A :=
  match l with
  | [] => [x]
  | y :: ys =>
      if Qle_bool (key y) (key x) then x :: y :: ys
      else y :: insert_desc x ys
  end.

Definition sort_desc (l : list A) : list A :=
  fold_right insert_desc [] l.

(** [a] may stand in front of [b] in a descending list. *)
Definition desc (a b : A) : Prop := key b <= key a.

(** The elements whose key is [v]. *)
Definition of_key (v : Q) (a : A) : bool := Qeq_bool (key a) v.
End SortDesc.

(** ** The keyword search program ([simple_tpp_search.py]) *)

Module Simple.

Record SearchResult : Type := mkSearchResult {
    name : str;
    file_path : str;
    line_number : nat;
    content : str;
    file_type : str;
    score : Q
  }.

Definition set_score (c : SearchResult) (s : Q) : SearchResult :=
  mkSearchResult (name c) (file_path c) (line_number c)
                 (content c) (file_type c) s.

(** [f"{chunk.name} {chunk.content}".lower()] *)
Definition haystack (c : SearchResult) : str :=
  lower (name c ++ chr 32 :: content c).

(** The inner loop over the query words, accumulating the raw score. *)
Fixpoint keyword_score (query_words : list str) (c : SearchResult)
         (score : Q) : Q :=
  match query_words with
  | [] => score
  | word :: rest =>
      let score :=
        if contains word (haystack c)
        then (let score := score + 1 in
              if contains word (lower (name c)) then score + 2 else score)
        else score in
      keyword_score rest c score
  end.

(** [file_type and chunk.file_type != file_type] : a filter of [None] or
    of the empty string selects everything. *)
Definition filtered_out (ft : option str) (c : SearchResult) : bool :=
  match ft with
  | None => false
  | Some [] => false
  | Some t => negb (str_eqb (file_type c) t)
  end.

Section Scores.

(** The division of a float by a whole number, [score / n].  The scores
    of this program are kept as the rationals the floats stand for: the
    sums of the loop are whole numbers, which the floats hold exactly,
    and the quotient is the float Python's division rounds it to. *)
Variable fdiv : Q -> nat -> Q.

(** [score / len(query_words)] *)
Definition normalize (score : Q) (n : nat) : result Q :=
  match n with
  | O => Raise ZeroDivisionError
  | S _ => Ok (fdiv score n)
  end.

(** The loop over the store.  [i] is the position of the head of
    [chunks] in the store.  Returns the rewritten chunks and the
    positions appended to [results]; when the body raises, the chunks
    not yet visited are left as they are. *)
Fixpoint scan (query_words : list str) (ft : option str) (i : nat)
         (chunks : list SearchResult)
  : list SearchResult * result (list nat) :=
  match chunks with
  | [] => ([], Ok [])
  | chunk :: rest =>
      if filtered_out ft chunk then
        let (rest', r) := scan query_words ft (S i) rest in
        (chunk :: rest', r)
      else
        let score := keyword_score query_words chunk 0 in
        if Qlt_le_dec 0 score then
          match normalize score (List.length query_words) with
          | Raise e => (chunk :: rest, Raise e)
          | Ok s =>
              let (rest', r) := scan query_words ft (S i) rest in
              (set_score chunk s :: rest', ids <- r ;; Ok (i :: ids))
          end
        else
          let (rest', r) := scan query_words ft (S i) rest in
          (chunk :: rest', r)
  end.

Definition dummy : SearchResult := mkSearchResult [] [] 0 [] [] 0.

(** The chunk a reference denotes in a store. *)
Definition deref (store : list SearchResult) (i : nat) : SearchResult :=
  nth i store dummy.

(** [search(query, file_type, top_k)] : the store after the call and
    the returned references. *)
Definition search (store : list SearchResult) (query : str)
           (ft : option str) (top_k : Z)
  : list SearchResult * result (list nat) :=
  match store with
  | [] => (store, Ok [])
  | _ =>
      let query_words := split_ws (lower query) in
      let (store', r) := scan query_words ft 0 store in
      (store',
       results <- r ;;
       Ok (take_py top_k
             (sort_desc (fun i => score (deref store' i)) results)))
  end.

End Scores.

(** *** Extraction

An extractor is given the text of one file; the embedding returns
the chunks it appends to [self.code_chunks], in order. *)

(** [content[:match.start()].count('\n') + 1] *)
Definition line_of (content : str) (m : Regex.mtch) : nat :=
  count_nl (firstn (Regex.m_start m) content) + 1.

(** [<(section|div|nav|header|footer)[^>]*(?:id|class)=Q([^Q]+)Q[^>]*>]
    with [re.IGNORECASE], where [Q] stands for either quote
    character. *)
Definition section_tags : list string :=
  ["section"; "div"; "nav"; "header"; "footer"]%string.

Definition section_pattern : Regex.re :=
  Regex.seqs
    [Regex.lit_ci "<";
     Regex.Group 1 (Regex.alts (map Regex.lit_ci section_tags));
     Regex.Star (Regex.ne_chr ">"%char);
     Regex.Alt (Regex.lit_ci "id") (Regex.lit_ci "class");
     Regex.lit "=";
     Regex.Chr Regex.quote;
     Regex.Group 2 (Regex.plus Regex.not_quote);
     Regex.Chr Regex.quote;
     Regex.Star (Regex.ne_chr ">"%char);
     Regex.lit ">"].

(** [<form[^>]*>], with [re.IGNORECASE]. *)
Definition form_pattern : Regex.re :=
  Regex.seqs
    [Regex.lit_ci "<form"; Regex.Star (Regex.ne_chr ">"%char);
     Regex.lit ">"].

(** ['\n'.join(lines[max(0, start_line - before):min(len(lines), start_line + after)])] *)
Definition window (lines : list str) (start_line before after : nat) : str :=
  let context_start := Nat.max 0 (start_line - before) in
  let context_end := Nat.min (List.length lines) (start_line + after) in
  join_lines (slice context_start context_end lines).

Definition section_chunk (content path : str) (lines : list str)
           (m : Regex.mtch) : SearchResult :=
  let tag := Regex.group 1 content m in
  let identifier := Regex.group 2 content m in
  let start_line := line_of content m in
  mkSearchResult (tag ++ s2l "-" ++ identifier) path start_line
                 (window lines start_line 5 15) (s2l "html") 0.

Definition form_chunk (content path : str) (lines : list str)
           (m : Regex.mtch) : SearchResult :=
  let start_line := line_of content m in
  mkSearchResult (s2l "form-element") path start_line
                 (window lines start_line 2 20) (s2l "html") 0.

Definition _extract_html_sections (content path : str)
  : list SearchResult :=
  let lines := split_lines content in
  map (section_chunk content path lines)
      (Regex.finditer section_pattern content)
  ++ map (form_chunk content path lines)
         (Regex.finditer form_pattern content).

(** [function\s+(\w+)\s*\(], [const\s+(\w+)\s*=\s*\(],
    [(\w+)\s*:\s*function\s*\(] *)
Definition js_patterns : list Regex.re :=
  [Regex.seqs [Regex.lit "function"; Regex.plus Regex.space;
               Regex.Group 1 (Regex.plus Regex.word);
               Regex.Star Regex.space; Regex.lit "("];
   Regex.seqs [Regex.lit "const"; Regex.plus Regex.space;
               Regex.Group 1 (Regex.plus Regex.word);
               Regex.Star Regex.space; Regex.lit "=";
               Regex.Star Regex.space; Regex.lit "("];
   Regex.seqs [Regex.Group 1 (Regex.plus Regex.word);
               Regex.Star Regex.space; Regex.lit ":";
               Regex.Star Regex.space; Regex.lit "function";
               Regex.Star Regex.space; Regex.lit "("]].

Definition js_chunk (content path : str) (lines : list str)
           (m : Regex.mtch) : SearchResult :=
  let func_name := Regex.group 1 content m in
  let start_line := line_of content m in
  mkSearchResult func_name path start_line
                 (window lines start_line 2 15) (s2l "js") 0.

Definition _extract_js_functions (content path : str)
  : list SearchResult :=
  let lines := split_lines content in
  flat_map (fun pattern =>
              map (js_chunk content path lines)
                  (Regex.finditer pattern content))
           js_patterns.

(** The pattern of a rule: an optional dot or hash, a letter, then
    letters, digits, underscores and dashes, as group 1; whitespace; an
    opening brace. *)
Definition css_letter : ascii -> bool := fun c =>
  let n := ord c in
  ((65 <=? n) && (n <=? 90)) || ((97 <=? n) && (n <=? 122)).

Definition css_ident : ascii -> bool := fun c =>
  let n := ord c in
  css_letter c || ((48 <=? n) && (n <=? 57)) || (n =? 95) || (n =? 45).

Definition css_pattern : Regex.re :=
  Regex.seqs
    [Regex.Group 1
       (Regex.seqs
          [Regex.UpTo 1 (fun c => ascii_eqb c "."%char || ascii_eqb c "#"%char);
           Regex.Chr css_letter; Regex.Star css_ident]);
     Regex.Star Regex.space; Regex.lit "{"].

Definition css_chunk (content path : str) (lines : list str)
           (m : Regex.mtch) : SearchResult :=
  let selector := Regex.group 1 content m in
  let start_line := line_of content m in
  mkSearchResult (s2l "css-" ++ selector) path start_line
                 (window lines start_line 1 10) (s2l "css") 0.

Definition _extract_css_rules (content path : str) : list SearchResult :=
  let lines := split_lines content in
  map (css_chunk content path lines) (Regex.finditer css_pattern content).

(** An extractor on a file: the text is read inside the [try], so a file
    that cannot be read gives no chunk. *)
Definition extract_file (extractor : str -> str -> list SearchResult)
           (f : file) : list SearchResult :=
  match f_read f with
  | Ok content => extractor content (f_path f)
  | Raise _ => []
  end.

(** The loop over the files of one kind. *)
Definition index_files (extractor : str -> str -> list SearchResult)
           (files : list file) : list SearchResult :=
  flat_map (fun f => if skipped (f_path f) then []
                     else extract_file extractor f) files.

(** [index_project()] : the store after the pass.  The three lists are
    what [rglob] finds for the three kinds of file. *)
Definition index_project (html_files js_files css_files : list file)
           (code_chunks : list SearchResult) : list SearchResult :=
  code_chunks
  ++ index_files _extract_html_sections html_files
  ++ index_files _extract_js_functions js_files
  ++ index_files _extract_css_rules css_files.

End Simple.

(** ** Sorting with a comparison that may raise

[l.sort()] compares elements with [<]; an exception raised by a
comparison leaves the sort.  The elements are inserted one by one, each
behind the elements that are not greater (so the sort is stable).
[l.sort(reverse=True)] reverses, sorts and reverses again.

The comparisons made are those of an insertion sort.  Python's sort
makes others; the two agree on whether a comparison raises and on the
order of the result when [<] is a total preorder on the keys, which it
is on similarities that are numbers.  On a list that holds a NaN the two
may differ. *)

Section SortRaise.
Variable A : Type.
Variable lt : A -> A -> result bool.

Fixpoint insert_asc (x : A) (l : list A) : result (list A) :=
  match l with
  | [] => Ok [x]
  | y :: ys =>
      b <- lt x y ;;
      if b then Ok (x :: y :: ys)
      else (ys' <- insert_asc x ys ;; Ok (y :: ys'))
  end.

Fixpoint sort_asc_from (acc : list A) (l : list A) : result (list A) :=
  match l with
  | [] => Ok acc
  | x :: xs => acc' <- insert_asc x acc ;; sort_asc_from acc' xs
  end.

Definition sort_asc (l : list A) : result (list A) := sort_asc_from [] l.

Definition sort_reverse (l : list A) : result (list A) :=
  s <- sort_asc (rev l) ;; Ok (rev s).
End SortRaise.

(** ** The embedding search program ([tpp_code_search.py]) *)



Module TPP.

Record TPPCodeResult : Type := mkTPPCodeResult {
    name : str;
    file_path : str;
    line_number : nat;
    code : str;
    score : spec_float;
    file_type : str;
    category : str
  }.

Definition set_score (c : TPPCodeResult) (s : spec_float) : TPPCodeResult :=
  mkTPPCodeResult (name c) (file_path c) (line_number c) (code c) s
                  (file_type c) (category c).

(** The [__eq__] a dataclass generates: the tuples of fields are
    equal. *)
Definition chunk_eqb (a b : TPPCodeResult) : bool :=
  str_eqb (name a) (name b) && str_eqb (file_path a) (file_path b)
  && Nat.eqb (line_number a) (line_number b)
  && str_eqb (code a) (code b) && SFeqb (score a) (score b)
  && str_eqb (file_type a) (file_type b)
  && str_eqb (category a) (category b).

Definition dummy : TPPCodeResult :=
  mkTPPCodeResult [] [] 0 [] (S754_zero false) [] [].

Definition deref (store : list TPPCodeResult) (i : nat) : TPPCodeResult :=
  nth i store dummy.

Definition filtered_out (ft : option str) (c : TPPCodeResult) : bool :=
  match ft with
  | None => false
  | Some [] => false
  | Some t => negb (str_eqb (file_type c) t)
  end.

(** The arithmetic of the vectors the encoder returns: IEEE 754 binary
    floating point of precision [prec] and exponent bound [emax]
    (24 and 128 for the encoder's float32).  Dividing by zero yields an
    infinity or a NaN, never an exception. *)
Definition fzero : spec_float := S754_zero false.

Section Scorer.
Variables prec emax : Z.

(** [np.dot(a, b)] on two vectors: the products summed from the left;
    vectors of different lengths do not align. *)
Fixpoint dot_from (acc : spec_float) (a b : list spec_float)
  : option spec_float :=
  match a, b with
  | [], [] => Some acc
  | x :: a', y :: b' =>
      dot_from (SFadd prec emax acc (SFmul prec emax x y)) a' b'
  | _, _ => None
  end.

Definition dot (a b : list spec_float) : option spec_float :=
  match a, b with
  | [], [] => Some fzero
  | x :: a', y :: b' => dot_from (SFmul prec emax x y) a' b'
  | _, _ => None
  end.

(** [np.linalg.norm(v)] : the square root of [v.dot(v)]. *)
Definition norm (v : list spec_float) : spec_float :=
  match dot v v with
  | Some d => SFsqrt prec emax d
  | None => S754_nan
  end.

(** [np.dot(q, c) / (np.linalg.norm(q) * np.linalg.norm(c))] *)
Definition similarity (q c : list spec_float) : result spec_float :=
  match dot q c with
  | None => Raise ValueError
  | Some d =>
      Ok (SFdiv prec emax d (SFmul prec emax (norm q) (norm c)))
  end.

(** [<] on the tuples [(similarity, chunk)] : the first components
    decide unless they are equal; then the chunks are compared, equal
    chunks make the tuples equal, and unequal chunks have no [<]. *)
Definition tuple_lt (store : list TPPCodeResult)
           (a b : spec_float * nat) : result bool :=
  if SFeqb (fst a) (fst b) then
    if chunk_eqb (deref store (snd a)) (deref store (snd b))
    then Ok false
    else Raise TypeError
  else Ok (SFltb (fst a) (fst b)).

(** The loop over [enumerate(self.embeddings)].  [i] is the position
    in the store of the head of [chunks]. *)
Fixpoint scan (q : list spec_float) (ft : option str) (i : nat)
         (embeddings : list (list spec_float))
         (chunks : list TPPCodeResult)
  : list TPPCodeResult * result (list (spec_float * nat)) :=
  match embeddings with
  | [] => (chunks, Ok [])
  | chunk_embedding :: embs =>
      match similarity q chunk_embedding with
      | Raise e => (chunks, Raise e)
      | Ok sim =>
          match chunks with
          | [] => ([], Raise IndexError)
          | chunk :: rest =>
              if filtered_out ft chunk then
                let (rest', r) := scan q ft (S i) embs rest in
                (chunk :: rest', r)
              else
                let (rest', r) := scan q ft (S i) embs rest in
                (set_score chunk sim :: rest',
                 scores <- r ;; Ok ((sim, i) :: scores))
          end
      end
  end.

(** The external encoder, [self.model.encode([query])[0]]. *)
Variable encode : str -> list spec_float.

(** [search(query, top_k, file_type)] : the store after the call and
    the returned references. *)
Definition search (store : list TPPCodeResult)
           (embeddings : list (list spec_float))
           (query : str) (top_k : Z) (ft : option str)
  : list TPPCodeResult * result (list nat) :=
  match store with
  | [] => (store, Ok [])
  | _ =>
      let query_embedding := encode query in
      let (store', r) := scan query_embedding ft 0 embeddings store in
      (store',
       scores <- r ;;
       sorted <- sort_reverse (tuple_lt store') scores ;;
       Ok (map snd (take_py top_k sorted)))
  end.
End Scorer.

(** *** Extraction *)

Definition line_of (content : str) (m : Regex.mtch) : nat :=
  count_nl (firstn (Regex.m_start m) content) + 1.

(** [content[:pos].count('\n') + 1] *)
Definition line_at (content : str) (pos : nat) : nat :=
  count_nl (firstn pos content) + 1.

(** [<(section|div|header|footer|nav|main|article)[^>]*(?:id|class)=Q([^Q]+)Q[^>]*>]
    with [re.IGNORECASE], where [Q] stands for either quote
    character. *)
Definition section_tags : list string :=
  ["section"; "div"; "header"; "footer"; "nav"; "main"; "article"]%string.

Definition section_pattern : Regex.re :=
  Regex.seqs
    [Regex.lit_ci "<";
     Regex.Group 1 (Regex.alts (map Regex.lit_ci section_tags));
     Regex.Star (Regex.ne_chr ">"%char);
     Regex.Alt (Regex.lit_ci "id") (Regex.lit_ci "class");
     Regex.lit "=";
     Regex.Chr Regex.quote;
     Regex.Group 2 (Regex.plus Regex.not_quote);
     Regex.Chr Regex.quote;
     Regex.Star (Regex.ne_chr ">"%char);
     Regex.lit ">"].

Definition form_pattern : Regex.re :=
  Regex.seqs
    [Regex.lit_ci "<form"; Regex.Star (Regex.ne_chr ">"%char);
     Regex.lit ">"].

(** [action=Q([^Q]+)Q] *)
Definition action_pattern : Regex.re :=
  Regex.seqs
    [Regex.lit "action="; Regex.Chr Regex.quote;
     Regex.Group 1 (Regex.plus Regex.not_quote);
     Regex.Chr Regex.quote].

(** [f'</{tag}>'] *)
Definition closing (tag : str) : str := s2l "</" ++ tag ++ s2l ">".

(** ['\n'.join(lines[start_line-1:min(end_line+extra, len(lines))])] *)
Definition span (lines : list str) (start_line end_line : nat) : str :=
  join_lines
    (slice (start_line - 1) (Nat.min end_line (List.length lines)) lines).

(** The text of a section before it is capped: from the line of the
    opening tag to the line after the one of the closing tag.  [None]
    when no closing tag follows the opening one. *)
Definition section_text (content : str) (lines : list str)
           (m : Regex.mtch) : option str :=
  let tag := Regex.group 1 content m in
  match find_from (closing tag) content (Regex.m_end m) with
  | None => None
  | Some end_pos =>
      let end_line := line_at content end_pos in
      Some (span lines (line_of content m) (end_line + 1))
  end.

Definition section_chunk (content path category : str) (lines : list str)
           (m : Regex.mtch) : list TPPCodeResult :=
  let tag := Regex.group 1 content m in
  let identifier := Regex.group 2 content m in
  match section_text content lines m with
  | None => []
  | Some section_content =>
      [mkTPPCodeResult (tag ++ s2l "#" ++ identifier) path
                       (line_of content m) (cap 1000 section_content)
                       fzero (s2l "html") category]
  end.

Definition form_text (content : str) (lines : list str)
           (m : Regex.mtch) : option str :=
  match find_from (s2l "</form>") content (Regex.m_end m) with
  | None => None
  | Some end_pos =>
      let end_line := line_at content end_pos in
      Some (span lines (line_of content m) (end_line + 1))
  end.

Definition form_chunk (content path category : str) (lines : list str)
           (m : Regex.mtch) : list TPPCodeResult :=
  match form_text content lines m with
  | None => []
  | Some form_content =>
      let tag_text := Regex.group0 content m in
      let form_name :=
        match Regex.search action_pattern tag_text with
        | Some am => Regex.group 1 tag_text am
        | None => s2l "form"
        end in
      [mkTPPCodeResult (s2l "form-" ++ form_name) path
                       (line_of content m) (cap 500 form_content)
                       fzero (s2l "html") category]
  end.

Definition _extract_html_components (content path category : str)
  : list TPPCodeResult :=
  let lines := split_lines content in
  flat_map (section_chunk content path category lines)
           (Regex.finditer section_pattern content)
  ++ flat_map (form_chunk content path category lines)
              (Regex.finditer form_pattern content).

(** The four patterns of the script extractor:
    [function\s+(\w+)\s*\([^)]*\)\s*\{],
    [const\s+(\w+)\s*=\s*\([^)]*\)\s*=>\s*\{],
    [(\w+)\s*:\s*function\s*\([^)]*\)\s*\{],
    [(\w+)\s*\([^)]*\)\s*\{]. *)
Definition params : list Regex.re :=
  [Regex.lit "("; Regex.Star (Regex.ne_chr ")"%char); Regex.lit ")"].

Definition js_patterns : list Regex.re :=
  [Regex.seqs ([Regex.lit "function"; Regex.plus Regex.space;
                Regex.Group 1 (Regex.plus Regex.word);
                Regex.Star Regex.space]
               ++ params ++ [Regex.Star Regex.space; Regex.lit "{"]);
   Regex.seqs ([Regex.lit "const"; Regex.plus Regex.space;
                Regex.Group 1 (Regex.plus Regex.word);
                Regex.Star Regex.space; Regex.lit "=";
                Regex.Star Regex.space]
               ++ params
               ++ [Regex.Star Regex.space; Regex.lit "=>";
                   Regex.Star Regex.space; Regex.lit "{"]);
   Regex.seqs ([Regex.Group 1 (Regex.plus Regex.word);
                Regex.Star Regex.space; Regex.lit ":";
                Regex.Star Regex.space; Regex.lit "function";
                Regex.Star Regex.space]
               ++ params ++ [Regex.Star Regex.space; Regex.lit "{"]);
   Regex.seqs ([Regex.Group 1 (Regex.plus Regex.word);
                Regex.Star Regex.space]
               ++ params ++ [Regex.Star Regex.space; Regex.lit "{"])].

(** The brace matching loop: [s] is the text from [pos] on.
<<
  while pos < len(content) and brace_count > 0:
      if content[pos] == '{': brace_count += 1
      elif content[pos] == '}': brace_count -= 1
      pos += 1
>>
  *)
Fixpoint brace_scan (s : str) (pos brace_count : nat) : nat :=
  match brace_count, s with
  | S n, c :: s' =>
      if ascii_eqb c "{"%char then brace_scan s' (S pos) (S (S n))
      else if ascii_eqb c "}"%char then brace_scan s' (S pos) n
      else brace_scan s' (S pos) (S n)
  | _, _ => pos
  end.

Definition function_end (content : str) (m : Regex.mtch) : nat :=
  brace_scan (skipn (Regex.m_end m) content) (Regex.m_end m) 1.

Definition function_text (content : str) (lines : list str)
           (m : Regex.mtch) : str :=
  let end_line := line_at content (function_end content m) in
  span lines (line_of content m) end_line.

Definition js_chunk (content path category : str) (lines : list str)
           (m : Regex.mtch) : TPPCodeResult :=
  mkTPPCodeResult (Regex.group 1 content m) path (line_of content m)
                  (cap 800 (function_text content lines m))
                  fzero (s2l "js") category.

Definition _extract_js_functions (content path category : str)
  : list TPPCodeResult :=
  let lines := split_lines content in
  flat_map (fun pattern =>
              map (js_chunk content path category lines)
                  (Regex.finditer pattern content))
           js_patterns.

(** [^(#{1,6})\s+(.+)$] *)
Definition header_pattern : Regex.re :=
  Regex.seqs
    [Regex.Group 1 (Regex.Seq (Regex.Chr (Regex.eq_chr "#"%char))
                              (Regex.UpTo 5 (Regex.eq_chr "#"%char)));
     Regex.plus Regex.space;
     Regex.Group 2 (Regex.plus Regex.any);
     Regex.Eol].

(** The inner loop: the lines behind a heading up to the next heading
    of the same or a higher level. *)
Fixpoint section_rest (level : nat) (rest : list str) : list str :=
  match rest with
  | [] => []
  | next_line :: rest' =>
      match Regex.match_ header_pattern next_line with
      | Some next_match =>
          if List.length (Regex.group 1 next_line next_match) <=? level
          then []
          else next_line :: section_rest level rest'
      | None => next_line :: section_rest level rest'
      end
  end.

Definition section_lines (line : str) (rest : list str) (m : Regex.mtch)
  : list str :=
  line :: section_rest (List.length (Regex.group 1 line m)) rest.

(** The loop over [enumerate(lines)]. *)
Fixpoint md_go (path category : str) (i : nat) (lines : list str)
  : list TPPCodeResult :=
  match lines with
  | [] => []
  | line :: rest =>
      match Regex.match_ header_pattern line with
      | Some m =>
          let title := Regex.group 2 line m in
          let section_content :=
            join_lines (firstn 20 (section_lines line rest m)) in
          mkTPPCodeResult (s2l "doc-" ++ title) path (i + 1)
                          section_content fzero (s2l "md") category
          :: md_go path category (S i) rest
      | None => md_go path category (S i) rest
      end
  end.

Definition _extract_md_sections (content path category : str)
  : list TPPCodeResult :=
  md_go path category 0 (split_lines content).

(** The structured-data extractor.  The values [json.loads] returns;
    an object is a dictionary, its items in insertion order. *)
Inductive json : Type :=
  | JNull
  | JBool (b : bool)
  | JNumber (text : str)
  | JString (s : str)
  | JArray (items : list json)
  | JObject (items : list (str * json)).

(** [try: body except: handler] *)
Definition try_except {A} (body : result A) (handler : exn -> result A)
  : result A :=
  match body with
  | Ok a => Ok a
  | Raise e => handler e
  end.

Section Json.
  (** [json.loads], which raises [JSONDecodeError] on a text that is
      not a document, and [json.dumps(value, indent=2)]. *)
Variable loads : str -> result json.
Variable dumps : json -> str.

Definition json_chunk (path category : str) (item : str * json)
  : TPPCodeResult :=
  let (key, value) := item in
  let value_str := firstn 300 (dumps value) in
  mkTPPCodeResult (s2l "config-" ++ key) path 1
                  (DQ :: key ++ DQ :: s2l ": " ++ value_str)
                  fzero (s2l "json") category.

Definition _extract_json_structure (content path category : str)
  : result (list TPPCodeResult) :=
  try_except
    (try_except
       (data <- loads content ;;
        match data with
        | JObject items => Ok (map (json_chunk path category) items)
        | _ => Ok []
        end)
       (fun e => match e with
                 | JSONDecodeError => Ok []
                 | _ => Raise e
                 end))
    (fun _ => Ok []).
End Json.

(** The stylesheet extractor.  [([^{]+)\s*\{] *)
Definition css_pattern : Regex.re :=
  Regex.seqs
    [Regex.Group 1 (Regex.plus (Regex.ne_chr "{"%char));
     Regex.Star Regex.space; Regex.lit "{"].

Definition rule_text (content : str) (lines : list str) (m : Regex.mtch)
  : str :=
  let end_line := line_at content (function_end content m) in
  span lines (line_of content m) end_line.

Definition css_chunk (content path category : str) (lines : list str)
           (m : Regex.mtch) : list TPPCodeResult :=
  let selector := strip (Regex.group 1 content m) in
  match selector with
  | [] => []
  | _ =>
      if starts_with (s2l "/*") selector then []
      else
        let selector_name :=
          firstn 50 (strip (newlines_to_spaces selector)) in
        [mkTPPCodeResult (s2l "css-" ++ selector_name) path
                         (line_of content m)
                         (cap 400 (rule_text content lines m))
                         fzero (s2l "css") category]
  end.

Definition _extract_css_rules (content path category : str)
  : list TPPCodeResult :=
  let lines := split_lines content in
  flat_map (css_chunk content path category lines)
           (Regex.finditer css_pattern content).

(** The extractor of Python functions.  The pattern is
    [^def\s+(\w+)\s*\([^)]*\):.*?(?=^def|\Z)] with [re.MULTILINE] and
    [re.DOTALL]: the head up to the colon is matched at the beginning of
    a line, and the match goes on, as short as possible, to the next
    beginning of a line on which [def] stands, or to the end of the
    text. *)
Definition def_head : Regex.re :=
  Regex.seqs
    [Regex.lit "def"; Regex.plus Regex.space;
     Regex.Group 1 (Regex.plus Regex.word);
     Regex.Star Regex.space; Regex.lit "(";
     Regex.Star (Regex.ne_chr ")"%char); Regex.lit ")"; Regex.lit ":"].

(** Where the match ends: [t] is the text from [pos] on, [bol] tells
    whether [pos] is the beginning of a line. *)
Fixpoint def_end (t : str) (pos : nat) (bol : bool) : nat :=
  match t with
  | [] => pos
  | c :: t' =>
      if bol && starts_with (s2l "def") t then pos
      else def_end t' (S pos) (ascii_eqb c NL)
  end.

Fixpoint def_finditer_go (s : str) (pos resume : nat) (bol : bool)
  : list Regex.mtch :=
  match s with
  | [] => []
  | c :: s' =>
      let bol' := ascii_eqb c NL in
      if pos <? resume then def_finditer_go s' (S pos) resume bol'
      else if bol then
        match Regex.exec def_head s pos with
        | Some h =>
            let e := def_end (skipn (Regex.m_end h - pos) s)
                             (Regex.m_end h) false in
            Regex.mkMatch pos e (Regex.m_caps h)
            :: def_finditer_go s' (S pos) e bol'
        | None => def_finditer_go s' (S pos) resume bol'
        end
      else def_finditer_go s' (S pos) resume bol'
  end.

Definition def_finditer (content : str) : list Regex.mtch :=
  def_finditer_go content 0 0 true.

Definition python_chunk (content path category : str) (m : Regex.mtch)
  : TPPCodeResult :=
  let func_name := Regex.group 1 content m in
  let func_content := Regex.group0 content m in
  mkTPPCodeResult func_name path (line_of content m)
                  (cap 600 func_content) fzero (s2l "py") category.

Definition _extract_python_functions (content path category : str)
  : list TPPCodeResult :=
  map (python_chunk content path category) (def_finditer content).

(** Statistics.  A dictionary from texts to counts, its items in the
    order of insertion. *)
Definition dict := list (str * nat).

(** [d.get(k, default)] *)
Fixpoint dict_get (d : dict) (k : str) (default : nat) : nat :=
  match d with
  | [] => default
  | (k', v) :: d' => if str_eqb k' k then v else dict_get d' k default
  end.

(** [d[k] = v] *)
Fixpoint dict_set (d : dict) (k : str) (v : nat) : dict :=
  match d with
  | [] => [(k, v)]
  | (k', v') :: d' =>
      if str_eqb k' k then (k', v) :: d' else (k', v') :: dict_set d' k v
  end.

Record stats : Type := mkStats {
  total : nat;
  file_types : dict;
  categories : dict
}.

(** [_get_stats()] *)
Definition count_chunk (st : stats) (chunk : TPPCodeResult) : stats :=
  mkStats (total st)
          (dict_set (file_types st) (file_type chunk)
                    (dict_get (file_types st) (file_type chunk) 0 + 1))
          (dict_set (categories st) (category chunk)
                    (dict_get (categories st) (category chunk) 0 + 1)).

Definition _get_stats (code_chunks : list TPPCodeResult) : stats :=
  fold_left count_chunk code_chunks
            (mkStats (List.length code_chunks) [] []).

(** Indexing. *)
Section Index.
Variable loads : str -> result json.
Variable dumps : json -> str.

(** [self.model.encode(texts)] : one vector per text. *)
Variable encode_batch : list str -> list (list spec_float).

(** The files [rglob] finds for each kind, in the order of
    [file_patterns]. *)
Record project : Type := mkProject {
  html_files : list file;
  css_files : list file;
  js_files : list file;
  py_files : list file;
  json_files : list file;
  md_files : list file
}.

Definition extract_file (extractor : str -> str -> list TPPCodeResult)
           (f : file) : list TPPCodeResult :=
  match f_read f with
  | Ok content => extractor content (f_path f)
  | Raise _ => []
  end.

Definition index_files (extractor : str -> str -> list TPPCodeResult)
           (files : list file) : list TPPCodeResult :=
  flat_map (fun f => if skipped (f_path f) then []
                     else extract_file extractor f) files.

Definition json_chunks (content path category : str)
  : list TPPCodeResult :=
  match _extract_json_structure loads dumps content path category with
  | Ok chunks => chunks
  | Raise _ => []
  end.

(** The chunks one pass appends. *)
Definition indexed (p : project) : list TPPCodeResult :=
  index_files (fun c f => _extract_html_components c f
                            (s2l "Frontend/Templates")) (html_files p)
  ++ index_files (fun c f => _extract_css_rules c f (s2l "Styling"))
                 (css_files p)
  ++ index_files (fun c f => _extract_js_functions c f
                               (s2l "JavaScript/Logic")) (js_files p)
  ++ index_files (fun c f => _extract_python_functions c f
                               (s2l "Python/Scripts")) (py_files p)
  ++ index_files (fun c f => json_chunks c f (s2l "Configuration"))
                 (json_files p)
  ++ index_files (fun c f => _extract_md_sections c f
                               (s2l "Documentation")) (md_files p).

(** [f"{chunk.name}\n{chunk.code}"] *)
Definition chunk_text (chunk : TPPCodeResult) : str :=
  name chunk ++ NL :: code chunk.

(** [index_tpp_project()] : the store and the embeddings after the
    pass. *)
Definition index_tpp_project (p : project)
           (code_chunks : list TPPCodeResult)
           (embeddings : list (list spec_float))
  : list TPPCodeResult * list (list spec_float) :=
  let code_chunks := code_chunks ++ indexed p in
  match code_chunks with
  | [] => (code_chunks, embeddings)
  | _ => (code_chunks, encode_batch (map chunk_text code_chunks))
  end.

(** [self.model.encode([query])[0]], for an encoder that returns one
    vector per text. *)
Definition encode_query (query : str) : list spec_float :=
  hd [] (encode_batch [query]).
End Index.

End TPP.

(** ** What a query selects

The functions below describe, chunk by chunk, what the loops of the
two [search] methods compute; the theorems relate the loops to
them. *)

Module SimpleSpec.
Import Simple.

Section Query.
Variable fdiv : Q -> nat -> Q.
Variable query_words : list str.
Variable ft : option str.

Definition raw (c : SearchResult) : Q := keyword_score query_words c 0.

(** The chunk passes the filter and matches a word. *)
Definition selected (c : SearchResult) : bool :=
  negb (filtered_out ft c) && (if Qlt_le_dec 0 (raw c) then true else false).

Definition final (c : SearchResult) : Q :=
  fdiv (raw c) (List.length query_words).

Definition rescore (c : SearchResult) : SearchResult :=
  if selected c then set_score c (final c) else c.

Fixpoint hits (i : nat) (chunks : list SearchResult) : list nat :=
  match chunks with
  | [] => []
  | c :: rest =>
      if selected c then i :: hits (S i) rest else hits (S i) rest
  end.
End Query.

(** The text a chunk is searched in: its lowercased name, one space,
    and its lowercased content. *)
Definition name_space_content (c : SearchResult) : str :=
  lower (name c) ++ [" "%char] ++ lower (content c).

(** The text the specification names: the lowercased name directly
    followed by the lowercased content. *)
Definition name_content (c : SearchResult) : str :=
  lower (name c) ++ lower (content c).

(** The text [p] is a substring of [s]. *)
Definition occurs (p s : str) : Prop :=
  exists pre post, s = pre ++ p ++ post.

(** The raw score, a whole number: 1 for each term that is a substring of
    the searched text, and 2 more when it is a substring of the
    lowercased name. *)
Definition term_score (c : SearchResult) (word : str) : Z :=
  if contains word (name_space_content c)
  then (if contains word (lower (name c)) then 1 + 2 else 1)%Z
  else 0%Z.

Fixpoint raw_spec (query_words : list str) (c : SearchResult) : Z :=
  match query_words with
  | [] => 0%Z
  | word :: rest => (term_score c word + raw_spec rest c)%Z
  end.

(** The score: the raw score divided by the number of terms. *)
Definition score_spec (fdiv : Q -> nat -> Q) (query_words : list str)
           (c : SearchResult) : Q :=
  fdiv (inject_Z (raw_spec query_words c)) (List.length query_words).

(** No term of the query occurs in the searched text. *)
Definition no_term_occurs (query_words : list str) (c : SearchResult) : Prop :=
  Forall (fun word => ~ occurs word (name_space_content c)) query_words.

Definition same_identity (a b : SearchResult) : Prop :=
  name a = name b /\ file_path a = file_path b
  /\ line_number a = line_number b /\ content a = content b
  /\ file_type a = file_type b.
End SimpleSpec.

Module TPPSpec.
Import TPP.

Definition same_identity (a b : TPPCodeResult) : Prop :=
  name a = name b /\ file_path a = file_path b
  /\ line_number a = line_number b /\ code a = code b
  /\ file_type a = file_type b /\ category a = category b.

Definition is_zero (f : spec_float) : bool :=
  match f with
  | S754_zero _ => true
  | _ => false
  end.

(** Neither a number nor zero: a NaN or an infinity. *)
Definition not_a_number (f : spec_float) : bool :=
  match f with
  | S754_nan | S754_infinity _ => true
  | _ => false
  end.

(** The cosine similarity in floating point.  The dot product of two
    vectors of one length is the sum, from the left, of the products of
    their components; the magnitude of a vector is the square root of its
    dot product with itself. *)
Section Cosine.
Variables prec emax : Z.

Definition dotp (a b : list spec_float) : spec_float :=
  match combine a b with
  | [] => fzero
  | (x, y) :: rest =>
      fold_left (fun acc xy =>
                   SFadd prec emax acc (SFmul prec emax (fst xy) (snd xy)))
                rest (SFmul prec emax x y)
  end.

Definition magnitude (v : list spec_float) : spec_float :=
  SFsqrt prec emax (dotp v v).

Definition cosine (q c : list spec_float) : spec_float :=
  SFdiv prec emax (dotp q c)
        (SFmul prec emax (magnitude q) (magnitude c)).
End Cosine.

(** The positions of the chunks a filter lets through. *)
Fixpoint unfiltered (ft : option str) (i : nat) (chunks : list TPPCodeResult)
  : list nat :=
  match chunks with
  | [] => []
  | c :: rest =>
      if filtered_out ft c then unfiltered ft (S i) rest
      else i :: unfiltered ft (S i) rest
  end.

(** The chunks of one file type, and of one category. *)
Definition of_file_type (k : str) (c : TPPCodeResult) : bool :=
  str_eqb (file_type c) k.

Definition of_category (k : str) (c : TPPCodeResult) : bool :=
  str_eqb (category c) k.

(** The sum of the counts of a dictionary, and its keys. *)
Definition dict_sum (d : dict) : nat := list_sum (map snd d).

Definition dict_keys (d : dict) : list str := map fst d.

(** Counting the keys of a list into a dictionary, one by one. *)
Definition tally (d : dict) (keys : list str) : dict :=
  fold_left (fun d k => dict_set d k (dict_get d k 0 + 1)) keys d.
End TPPSpec.

(** ** What the extractors promise *)

Module ExtractSpec.
Import Regex.
Local Open Scope nat_scope.

(** [s.count(x)] *)
Definition count_chr (x : ascii) (s : str) : nat :=
  List.length (filter (ascii_eqb x) s).

Definition opens (s : str) : nat := count_chr "{"%char s.
Definition closes (s : str) : nat := count_chr "}"%char s.

(** The brace depth after [t], entered at depth [n], is still
    positive. *)
Definition depth_positive (n : nat) (t : str) : Prop :=
  closes t < n + opens t.

(** [e] is where the brace loop, started behind position [start] of
    [content] at depth 1, stops: the depth is positive before every
    character it reads, and it stops where the depth reaches zero or,
    if it never does, at the end of the text. *)
Definition braces_end (content : str) (start e : nat) : Prop :=
  let s := skipn start content in
  let len := e - start in
  start <= e /\ len <= List.length s
  /\ (forall k, k < len -> depth_positive 1 (firstn k s))
  /\ (closes (firstn len s) = 1 + opens (firstn len s)
      \/ (len = List.length s /\ depth_positive 1 (firstn len s))).

(** The position in a text at which its line number [k] (from 0) begins:
    every line in front of it takes its length and one newline. *)
Definition line_start (lines : list str) (k : nat) : nat :=
  list_sum (map (fun l => S (List.length l)) (firstn k lines)).

(** The character [<] at position [pos] of [content] stands on the
    1-based line [line] of the text, at some column [col] of it. *)
Definition tag_on_line (content : str) (pos line : nat) : Prop :=
  nth_error content pos = Some "<"%char
  /\ 1 <= line
  /\ exists col,
       pos = line_start (split_lines content) (line - 1) + col
       /\ nth_error (nth (line - 1) (split_lines content) []) col
          = Some "<"%char.

(** [code] is [text] capped at [n] characters: [text] itself when it
    is short enough, else its first [n] characters and the marker. *)
Definition capped (n : nat) (text code : str) : Prop :=
  (List.length text <= n /\ code = text)
  \/ (n < List.length text /\ code = firstn n text ++ ellipsis).

(** The text [p] stands in [s] at position [e]. *)
Definition occurs_at (p s : str) (e : nat) : Prop :=
  exists pre post, s = pre ++ p ++ post /\ List.length pre = e.

(** [e] is the first position not before [start] at which [p] stands in
    [s]: what [s.find(p, start)] returns. *)
Definition first_at (p s : str) (start e : nat) : Prop :=
  start <= e /\ occurs_at p s e
  /\ forall e', start <= e' < e -> ~ occurs_at p s e'.

(** The closing tag of an element: [<], [/], the tag as it is spelled,
    [>]. *)
Definition closing_tag (tag : str) : str :=
  "<"%char :: "/"%char :: tag ++ [">"%char].

(** The text [closing] stands somewhere behind the match [m]. *)
Definition has_closing (closing content : str) (m : mtch) : Prop :=
  exists e, m_end m <= e /\ occurs_at closing content e.

(** The 1-based line on which position [pos] of a text lies: one more
    than the number of newlines in front of it.  And the number of lines
    of a text. *)
Definition line_of_pos (content : str) (pos : nat) : nat :=
  count_nl (firstn pos content) + 1.

Definition line_count (content : str) : nat := count_nl content + 1.

(** [text] is made of whole lines of [content]: it is the lines [a] to
    [b], counted from 1, newlines between them, and it stands in the
    text behind [pre]. *)
Definition whole_lines (content pre text : str) (a b : nat) : Prop :=
  1 <= a <= b
  /\ (pre = [] \/ exists p, pre = p ++ [NL])
  /\ (exists post,
        content = pre ++ text ++ post
        /\ (post = [] \/ exists p, post = NL :: p))
  /\ count_nl pre = a - 1
  /\ count_nl text = b - a.

(** The chunks [cs] come from the matches [ms] in order: one chunk, in
    relation [R] to the match, for every match that satisfies [P], and
    none for the others. *)
Inductive emitted {M C : Type} (P : M -> Prop) (R : M -> C -> Prop)
  : list M -> list C -> Prop :=
  | emitted_nil : emitted P R [] []
  | emitted_chunk m ms c cs :
      P m -> R m c -> emitted P R ms cs -> emitted P R (m :: ms) (c :: cs)
  | emitted_none m ms cs :
      ~ P m -> emitted P R ms cs -> emitted P R (m :: ms) cs.

(** The texts a pattern matches, and the groups it names. *)
Inductive matches : re -> str -> Prop :=
  | matches_eps : matches Eps []
  | matches_chr p c : p c = true -> matches (Chr p) [c]
  | matches_seq a b w1 w2 :
      matches a w1 -> matches b w2 -> matches (Seq a b) (w1 ++ w2)
  | matches_left a b w : matches a w -> matches (Alt a b) w
  | matches_right a b w : matches b w -> matches (Alt a b) w
  | matches_star p w : forallb p w = true -> matches (Star p) w
  | matches_upto n p w :
      List.length w <= n -> forallb p w = true -> matches (UpTo n p) w
  | matches_group n r w : matches r w -> matches (Group n r) w
  | matches_eol : matches Eol [].

Fixpoint groups (r : re) : list nat :=
  match r with
  | Seq a b | Alt a b => groups a ++ groups b
  | Group n a => n :: groups a
  | _ => []
  end.


Definition rich_tags : list str :=
  map s2l ["section"; "div"; "header"; "footer"; "nav"; "main";
           "article"]%string.



(** The chunk of a tag of the rich markup extractor: the name of the
    element is one of seven, and the closing tag stands behind the
    opening tag. *)
Definition section_closed (content : str) (m : mtch) : Prop :=
  has_closing (closing_tag (group 1 content m)) content m.

Definition form_closed (content : str) (m : mtch) : Prop :=
  has_closing (s2l "</form>") content m.

Definition rich_section (content : str) (m : mtch)
           (c : TPP.TPPCodeResult) : Prop :=
  In (lower (group 1 content m)) rich_tags
  /\ TPP.name c = group 1 content m ++ s2l "#" ++ group 2 content m
  /\ TPP.line_number c = line_of_pos content (m_start m)
  /\ tag_on_line content (m_start m) (TPP.line_number c).

Definition rich_form (content : str) (m : mtch)
           (c : TPP.TPPCodeResult) : Prop :=
  (exists form_name, TPP.name c = s2l "form-" ++ form_name)
  /\ TPP.line_number c = line_of_pos content (m_start m)
  /\ tag_on_line content (m_start m) (TPP.line_number c).

(** The content of a chunk of the rich markup extractor: the lines from
    the line of the tag to the line behind the line on which the first
    closing tag begins, capped at [n] characters. *)
Definition rich_markup_content (n : nat) (closing content : str) (m : mtch)
           (c : TPP.TPPCodeResult) : Prop :=
  exists e pre text,
    first_at closing content (m_end m) e
    /\ whole_lines content pre text
                   (line_of_pos content (m_start m))
                   (Nat.min (line_of_pos content e + 1) (line_count content))
    /\ capped n text (TPP.code c)
    /\ List.length (TPP.code c) <= n + 3.

(** The text of a construct in braces: the brace loop started behind
    the match [m] stops at [e], and [text] is the lines from the line of
    the match to the line of [e]; it stands behind [pre] and holds the
    text from the beginning of the match to [e]. *)
Definition braced_text (content : str) (m : mtch) (pre text : str)
           (e : nat) : Prop :=
  braces_end content (m_end m) e
  /\ whole_lines content pre text
                 (line_of_pos content (m_start m)) (line_of_pos content e)
  /\ List.length pre <= m_start m
  /\ e <= List.length pre + List.length text.

(** The chunk of a match of the rich script extractor: its name, its
    line, and its content, the text of the construct capped at 800
    characters. *)
Definition rich_js (content : str) (m : mtch) (c : TPP.TPPCodeResult)
  : Prop :=
  TPP.name c = group 1 content m
  /\ TPP.line_number c = line_of_pos content (m_start m)
  /\ exists e pre text,
       braced_text content m pre text e /\ capped 800 text (TPP.code c).

(** The content of a chunk of a construct in braces, capped at [n]
    characters. *)
Definition braced_content (n : nat) (content : str) (m : mtch)
           (c : TPP.TPPCodeResult) : Prop :=
  exists e pre text,
    braced_text content m pre text e
    /\ capped n text (TPP.code c)
    /\ List.length (TPP.code c) <= n + 3.

(** A match of the stylesheet pattern that gives a chunk: its selector
    text, stripped, is not empty and does not begin a comment. *)
Definition css_selected (content : str) (m : mtch) : Prop :=
  strip (group 1 content m) <> []
  /\ ~ exists rest, strip (group 1 content m) = s2l "/*" ++ rest.

(** The content of a chunk of the extractor of Python functions: the
    text of the match capped at 600 characters. *)
Definition python_content (content : str) (m : mtch)
           (c : TPP.TPPCodeResult) : Prop :=
  capped 600 (group0 content m) (TPP.code c)
  /\ List.length (TPP.code c) <= 603.

(** The content of a chunk of the simple program: the lines from
    [before] lines in front of the line of the match to [after] lines
    behind it, as far as the file has them. *)
Definition simple_window (before after : nat) (content : str) (m : mtch)
           (c : Simple.SearchResult) : Prop :=
  exists pre,
    whole_lines content pre (Simple.content c)
                (Nat.max 1 (line_of_pos content (m_start m) - before))
                (Nat.min (line_count content)
                         (line_of_pos content (m_start m) + after)).

Definition simple_js (content : str) (m : mtch) (c : Simple.SearchResult)
  : Prop :=
  Simple.name c = group 1 content m
  /\ Simple.line_number c = line_of_pos content (m_start m)
  /\ simple_window 1 15 content m c.

(** The match [m] was produced by the continuation [k], called at a
    position not before [pos]. *)
Definition cont_ok (k : cont) (pos : nat) (m : mtch) : Prop :=
  exists s' e caps', k s' e caps' = Some m /\ pos <= e.

(** One match ends before the other begins. *)
Definition before (a b : mtch) : Prop := m_end a <= m_start b.

(** The line is a heading. *)
Definition is_heading (line : str) : bool :=
  match match_ TPP.header_pattern line with
  | Some _ => true
  | None => false
  end.

(** The line is a heading of level [level] or of a higher rank: it ends a
    section of level [level]. *)
Definition ends_section (level : nat) (line : str) : bool :=
  match match_ TPP.header_pattern line with
  | Some m => List.length (group 1 line m) <=? level
  | None => false
  end.

(** The numbers, from 0, of the lines that are headings. *)
Definition heading_lines (lines : list str) : list nat :=
  filter (fun j => is_heading (nth j lines [])) (seq 0 (List.length lines)).

(** The content of the chunk of the heading on line [j] (from 0): the
    section has [k] lines behind the heading, and the content is the
    first twenty of its lines, as they stand in the file. *)
Definition md_content (content : str) (j : nat) (c : TPP.TPPCodeResult)
  : Prop :=
  let lines := split_lines content in
  let rest := skipn (S j) lines in
  exists m k pre,
    match_ TPP.header_pattern (nth j lines []) = Some m
    /\ k <= List.length rest
    /\ (forall l, In l (firstn k rest) ->
          ends_section (List.length (group 1 (nth j lines []) m)) l = false)
    /\ (k < List.length rest ->
        ends_section (List.length (group 1 (nth j lines []) m))
                     (nth k rest []) = true)
    /\ whole_lines content pre (TPP.code c) (j + 1) (j + Nat.min 20 (S k)).
End ExtractSpec.

(** ** Sample inputs *)

Module Examples.

(** The float32 value of a small integer. *)
Definition f32 (m : Z) : spec_float := binary_normalize 24 128 m 0 false.

(** The same navigation bar, found in two pages of the site. *)
Definition nav (path : string) : TPP.TPPCodeResult :=
  TPP.mkTPPCodeResult (s2l "nav#main-nav") (s2l path) 1
                      (s2l "<nav id='main-nav'>") TPP.fzero
                      (s2l "html") (s2l "Frontend/Templates").

Definition two_pages : list TPP.TPPCodeResult :=
  [nav "index.html"; nav "about.html"].

(** Equal texts have equal embeddings. *)
Definition same_vectors : list (list spec_float) :=
  [[f32 1; f32 0]; [f32 1; f32 0]].

(** Encoders that answer every query with one vector. *)
Definition encode_10 (_ : str) : list spec_float := [f32 1; f32 0].
Definition encode_00 (_ : str) : list spec_float := [f32 0; f32 0].


(** A page whose content stands in a [main] element. *)
Definition main_page : str :=
  s2l "<main id='content'>" ++ NL :: s2l "<p>Welcome</p>" ++ NL
      :: s2l "</main>".

(** A function between two statements on one line, and a second
    line. *)
Definition toggle_menu : str := s2l "function toggleMenu() { if (a) { b(); } }".

Definition js_line : str :=
  s2l "var x = 1; " ++ toggle_menu ++ s2l " var y = 2;".

Definition js_file : str := js_line ++ NL :: s2l "var z = 3;".

(** A heading followed by twenty lines. *)
Definition long_doc : str :=
  s2l "# Title" ++ List.concat (repeat (NL :: s2l "text") 20).

(** A [div] of more than a thousand characters. *)
Definition long_div : str :=
  s2l "<div id='a'>" ++ repeat "x"%char 1001 ++ s2l "</div>".

(** A store of the keyword program: the contact form and a footer. *)
Definition contact_store : list Simple.SearchResult :=
  [Simple.mkSearchResult (s2l "div-footer") (s2l "index.html") 40
                         (s2l "<div class='footer'>") (s2l "html") 0;
   Simple.mkSearchResult (s2l "form-contact") (s2l "contact.html") 12
                         (s2l "<form action='/contact'>") (s2l "html") 0].

(** The division without rounding. *)
Definition exact_div (x : Q) (n : nat) : Q := x / inject_Z (Z.of_nat n).

(** A chunk whose name ends where a word goes on in the content. *)
Definition nav_bar : Simple.SearchResult :=
  Simple.mkSearchResult (s2l "nav") (s2l "index.html") 3
                        (s2l "bar menu") (s2l "html") 0.

(** Two vectors of one component, the second twice the first, so small
    that the products of their components are rounded to a few units of
    the least float32. *)
Definition tiny : list spec_float := [binary_normalize 24 128 13 (-78) false].
Definition tiny_twice : list spec_float :=
  [binary_normalize 24 128 13 (-77) false].

Definition encode_tiny (_ : str) : list spec_float := tiny.

(** Two embeddings that differ, and one embedding too many. *)
Definition distinct_vectors : list (list spec_float) :=
  [[f32 1; f32 0]; [f32 0; f32 1]].

Definition three_vectors : list (list spec_float) :=
  [[f32 1; f32 0]; [f32 0; f32 1]; [f32 1; f32 1]].

(** A project of one page, an encoder that answers every text with the
    same vector, and a parser that accepts nothing. *)
Definition sample_project : TPP.project :=
  TPP.mkProject [mkFile (s2l "/site/index.html") (Ok main_page)]
                [] [] [] [] [].

Definition constant_encoder (texts : list str) : list (list spec_float) :=
  map (fun _ => [f32 1; f32 0]) texts.

Definition no_json (_ : str) : result TPP.json := Raise JSONDecodeError.

Definition no_dumps (_ : TPP.json) : str := [].

End Examples.

(** * Properties *)

(** ** The keyword scorer *)

Section Lexical.
Import Simple SimpleSpec.

Variable fdiv : Q -> nat -> Q.

Local Abbreviation normalize := (Simple.normalize fdiv).
Local Abbreviation scan := (Simple.scan fdiv).
Local Abbreviation search := (Simple.search fdiv).
Local Abbreviation final := (SimpleSpec.final fdiv).
Local Abbreviation rescore := (SimpleSpec.rescore fdiv).
Local Abbreviation score_spec := (SimpleSpec.score_spec fdiv).

(** The text the loop searches is the lowercased name, a space, and the
    lowercased content. *)
Lemma haystack_eq (c : SearchResult) : haystack c = name_space_content c.
Proof.
  unfold haystack, name_space_content, lower.
  rewrite map_app. reflexivity.
Qed.

Lemma starts_with_prefix (p s : str) :
  starts_with p s = true <-> exists post, s = p ++ post.
Proof.
  revert s. induction p as [|x p IH]; intros s; cbn [starts_with app].
  - split; [intros _; exists s; reflexivity | reflexivity].
  - destruct s as [|y s].
    + split; [discriminate | intros (post & H); discriminate H].
    + rewrite andb_true_iff. unfold ascii_eqb. rewrite Ascii.eqb_eq, IH.
      split.
      * intros (-> & post & ->). exists post. reflexivity.
      * intros (post & H). injection H as -> ->. split; [reflexivity|].
        exists post. reflexivity.
Qed.

(** [p in s] holds exactly of the substrings of [s]. *)
Lemma contains_occurs (p s : str) : contains p s = true <-> occurs p s.
Proof.
  unfold occurs. induction s as [|c s IH]; cbn [contains].
  - rewrite orb_false_r, starts_with_prefix. split.
    + intros (post & H). exists [], post. exact H.
    + intros (pre & post & H). destruct pre as [|x pre]; [|discriminate H].
      exists post. exact H.
  - rewrite orb_true_iff, starts_with_prefix, IH. split.
    + intros [(post & H) | (pre & post & H)].
      * exists [], post. exact H.
      * exists (c :: pre), post. rewrite H. reflexivity.
    + intros (pre & post & H). destruct pre as [|x pre].
      * left. exists post. exact H.
      * right. injection H as _ H. exists pre, post. exact H.
Qed.

(** The sums of the loop are whole numbers. *)
Lemma inject_Z_add (a b : Z) : inject_Z a + inject_Z b = inject_Z (a + b).
Proof.
  unfold Qplus, inject_Z. cbn [Qnum Qden]. rewrite !Z.mul_1_r. reflexivity.
Qed.

Lemma keyword_score_whole (qw : list str) (c : SearchResult) : forall z,
  keyword_score qw c (inject_Z z) = inject_Z (z + raw_spec qw c).
Proof.
  induction qw as [|w qw IH]; intro z; cbn [keyword_score raw_spec].
  - rewrite Z.add_0_r. reflexivity.
  - rewrite haystack_eq. unfold term_score.
    change 1 with (inject_Z 1). change 2 with (inject_Z 2).
    destruct (contains w (name_space_content c));
      [destruct (contains w (lower (name c)))|];
      rewrite ?inject_Z_add, IH; f_equal; lia.
Qed.

Lemma raw_whole qw c : raw qw c = inject_Z (raw_spec qw c).
Proof.
  unfold raw. change 0 with (inject_Z 0).
  rewrite keyword_score_whole. reflexivity.
Qed.

Lemma term_score_range c w : (0 <= term_score c w <= 3)%Z.
Proof.
  unfold term_score.
  destruct (contains w (name_space_content c));
    [destruct (contains w (lower (name c)))|]; lia.
Qed.

Lemma raw_spec_range qw c :
  (0 <= raw_spec qw c <= 3 * Z.of_nat (List.length qw))%Z.
Proof.
  induction qw as [|w qw IH]; cbn [raw_spec List.length]; [lia|].
  pose proof (term_score_range c w). lia.
Qed.

Lemma raw_spec_zero qw c : raw_spec qw c = 0%Z <-> no_term_occurs qw c.
Proof.
  unfold no_term_occurs. induction qw as [|w qw IH]; cbn [raw_spec].
  - split; [constructor | reflexivity].
  - pose proof (term_score_range c w) as Ht.
    pose proof (raw_spec_range qw c) as Hr.
    split.
    + intro H.
      assert (Hw : term_score c w = 0%Z) by lia.
      constructor.
      * unfold term_score in Hw. rewrite <- contains_occurs.
        destruct (contains w (name_space_content c)); [|discriminate].
        destruct (contains w (lower (name c))); discriminate Hw.
      * apply IH. lia.
    + intro H. inversion H as [|? ? Hw Hq]; subst.
      rewrite <- contains_occurs in Hw. apply not_true_is_false in Hw.
      unfold term_score. rewrite Hw. apply IH in Hq. lia.
Qed.

Lemma raw_pos qw c : 0 < raw qw c <-> (0 < raw_spec qw c)%Z.
Proof.
  rewrite raw_whole. change 0 with (inject_Z 0). rewrite <- Zlt_Qlt.
  reflexivity.
Qed.

Lemma raw_pos_words qw c : 0 < raw qw c -> qw <> [].
Proof. intros H ->. unfold raw in H. simpl in H. discriminate H. Qed.

Lemma normalize_ok (s : Q) (n : nat) :
  n <> 0%nat -> normalize s n = Ok (fdiv s n).
Proof. destruct n; [congruence | reflexivity]. Qed.

Lemma scan_total qw ft chunks : forall i,
  scan qw ft i chunks = (map (rescore qw ft) chunks, Ok (hits qw ft i chunks)).
Proof.
  induction chunks as [|c rest IH]; intro i; simpl; [reflexivity|].
  unfold rescore at 1, selected. fold (raw qw c).
  destruct (filtered_out ft c) eqn:Hf; simpl.
  - rewrite IH. reflexivity.
  - destruct (Qlt_le_dec 0 (raw qw c)) as [Hpos|Hle].
    + rewrite normalize_ok.
      * rewrite IH. reflexivity.
      * pose proof (raw_pos_words _ Hpos) as Hne.
        destruct qw; [congruence | discriminate].
    + rewrite IH. reflexivity.
Qed.

Lemma search_eq store query ft top_k :
  let qw := split_ws (lower query) in
  let store' := map (rescore qw ft) store in
  search store query ft top_k =
  (store', Ok (take_py top_k (sort_desc (fun i => score (deref store' i)) (hits qw ft 0 store)))).
Proof.
  intros qw store'. unfold search.
  destruct store as [|c rest].
  - unfold take_py. simpl. destruct (0 <=? top_k)%Z; rewrite ?firstn_nil; reflexivity.
  - fold qw. rewrite scan_total. reflexivity.
Qed.

(** Sorting *)
Section SortFacts.
Variable A : Type.
Variable key : A -> Q.

Lemma insert_desc_perm x l : Permutation (insert_desc key x l) (x :: l).
Proof.
  induction l as [|y ys IH]; simpl; [reflexivity|].
  destruct (Qle_bool (key y) (key x)); [reflexivity|].
  rewrite IH. apply perm_swap.
Qed.

Lemma sort_desc_perm l : Permutation (sort_desc key l) l.
Proof.
  induction l as [|x l IH]; simpl; [reflexivity|].
  rewrite insert_desc_perm. constructor. exact IH.
Qed.

Lemma insert_desc_sorted x l :
  StronglySorted (desc key) l -> StronglySorted (desc key) (insert_desc key x l).
Proof.
  induction 1 as [|y ys Hs IH Hall]; simpl.
  - repeat constructor.
  - destruct (Qle_bool (key y) (key x)) eqn:Hle.
    + apply Qle_bool_iff in Hle.
      constructor; [constructor; assumption|].
      constructor; [exact Hle|].
      eapply Forall_impl; [|exact Hall].
      intros z Hz. unfold desc in *. eapply Qle_trans; eassumption.
    + constructor; [exact IH|].
      assert (Hlt : key x < key y).
      { apply Qnot_le_lt. intro H. apply Qle_bool_iff in H. congruence. }
      eapply Permutation_Forall; [symmetry; apply insert_desc_perm|].
      constructor; [apply Qlt_le_weak, Hlt | exact Hall].
Qed.

Lemma sort_desc_sorted l : StronglySorted (desc key) (sort_desc key l).
Proof.
  induction l as [|x l IH]; simpl; [constructor|].
  apply insert_desc_sorted, IH.
Qed.

Lemma insert_desc_stable v x l :
  filter (of_key key v) (insert_desc key x l) = filter (of_key key v) (x :: l).
Proof.
  induction l as [|y ys IH]; [reflexivity|].
  cbn [insert_desc].
  destruct (Qle_bool (key y) (key x)) eqn:Hle; [reflexivity|].
  cbn [filter] in *. rewrite IH.
  destruct (of_key key v x) eqn:Hx; [|reflexivity].
  destruct (of_key key v y) eqn:Hy; [|reflexivity].
  exfalso. unfold of_key in *.
  apply Qeq_bool_iff in Hx, Hy.
  assert (H : Qle_bool (key y) (key x) = true).
  { apply Qle_bool_iff. rewrite Hx, Hy. apply Qle_refl. }
  congruence.
Qed.

Lemma sort_desc_stable v l :
  filter (of_key key v) (sort_desc key l) = filter (of_key key v) l.
Proof.
  induction l as [|x l IH]; [reflexivity|].
  cbn [sort_desc fold_right]. fold (sort_desc key l).
  rewrite insert_desc_stable. cbn [filter]. rewrite IH. reflexivity.
Qed.
End SortFacts.

Lemma take_py_incl {A} (k : Z) (l : list A) x : In x (take_py k l) -> In x l.
Proof.
  unfold take_py. intro H.
  destruct (0 <=? k)%Z;
    match type of H with In _ (firstn ?n _) =>
      rewrite <- (firstn_skipn n l); apply in_or_app; left; exact H end.
Qed.

Lemma take_py_all {A} (k : Z) (l : list A) :
  (Z.of_nat (List.length l) <= k)%Z -> take_py k l = l.
Proof.
  intro H. unfold take_py.
  destruct (0 <=? k)%Z eqn:Hk.
  - apply firstn_all2. lia.
  - apply Z.leb_gt in Hk. lia.
Qed.

Lemma take_py_length {A} (k : Z) (l : list A) :
  (0 <= k)%Z -> (List.length (take_py k l) = Nat.min (Z.to_nat k) (List.length l))%nat.
Proof.
  intro H. unfold take_py. apply Z.leb_le in H. rewrite H. apply length_firstn.
Qed.

Lemma hits_In qw ft chunks : forall i j,
  In j (hits qw ft i chunks) <->
  exists m, j = (i + m)%nat /\ (m < List.length chunks)%nat
            /\ selected qw ft (nth m chunks dummy) = true.
Proof.
  induction chunks as [|c rest IH]; intros i j; simpl.
  - split; [intros [] | intros (m & _ & Hm & _); lia].
  - assert (Hrest : In j (hits qw ft (S i) rest) <->
                    exists m, j = (i + S m)%nat /\ (m < List.length rest)%nat
                              /\ selected qw ft (nth m rest dummy) = true).
    { rewrite IH. split; intros (m & -> & Hm & Hs); exists m; repeat split; auto; lia. }
    destruct (selected qw ft c) eqn:Hc.
    + simpl. rewrite Hrest. split.
      * intros [<- | (m & -> & Hm & Hs)].
        -- exists 0%nat. repeat split; [lia | lia | exact Hc].
        -- exists (S m). repeat split; [lia | exact Hs].
      * intros ([|m] & -> & Hm & Hs).
        -- left. lia.
        -- right. exists m. repeat split; [lia | exact Hs].
    + rewrite Hrest. split.
      * intros (m & -> & Hm & Hs). exists (S m). repeat split; [lia | exact Hs].
      * intros ([|m] & -> & Hm & Hs).
        -- simpl in Hs. congruence.
        -- exists m. repeat split; [lia | exact Hs].
Qed.

Lemma hits_length qw ft chunks : forall i,
  (List.length (hits qw ft i chunks) <= List.length chunks)%nat.
Proof.
  induction chunks as [|c rest IH]; intro i; simpl; [lia|].
  destruct (selected qw ft c); simpl; specialize (IH (S i)); lia.
Qed.

Lemma deref_rescore qw ft store i :
  (i < List.length store)%nat ->
  deref (map (rescore qw ft) store) i = rescore qw ft (deref store i).
Proof.
  intro H. unfold deref.
  rewrite (nth_indep _ dummy (rescore qw ft dummy)) by (rewrite length_map; exact H).
  apply map_nth.
Qed.

Lemma rescore_identity qw ft c : same_identity c (rescore qw ft c).
Proof.
  unfold rescore, same_identity.
  destruct (selected qw ft c); simpl; repeat split; reflexivity.
Qed.

Lemma final_spec qw c : final qw c = score_spec qw c.
Proof.
  unfold SimpleSpec.final, SimpleSpec.score_spec. rewrite raw_whole.
  reflexivity.
Qed.

Lemma selected_pos qw ft c :
  selected qw ft c = true ->
  filtered_out ft c = false /\ (0 < raw_spec qw c)%Z.
Proof.
  unfold selected. intro H. apply andb_true_iff in H. destruct H as [Hf Hs].
  apply negb_true_iff in Hf. split; [exact Hf|].
  destruct (Qlt_le_dec 0 (raw qw c)) as [Hp|]; [|discriminate].
  apply raw_pos, Hp.
Qed.

Lemma pos_selected qw ft c :
  filtered_out ft c = false -> (0 < raw_spec qw c)%Z ->
  selected qw ft c = true.
Proof.
  intros Hf Hp. unfold selected. rewrite Hf. cbn [negb andb].
  destruct (Qlt_le_dec 0 (raw qw c)) as [|Hle]; [reflexivity|].
  apply raw_pos in Hp. exfalso. apply (Qlt_not_le _ _ Hp Hle).
Qed.

Section Division.

(** What the theorems on the values of the scores need of the division:
    zero divided is zero, and a positive whole number divided by a
    positive one is positive. *)
Hypothesis fdiv_zero : forall n, n <> 0%nat -> fdiv 0 n == 0.
Hypothesis fdiv_pos :
  forall z n, (0 < z)%Z -> n <> 0%nat -> 0 < fdiv (inject_Z z) n.

Lemma score_spec_zero qw c :
  qw <> [] -> (score_spec qw c == 0 <-> raw_spec qw c = 0%Z).
Proof.
  intro Hqw. unfold SimpleSpec.score_spec.
  assert (Hn : List.length qw <> 0%nat) by (destruct qw; [congruence | discriminate]).
  pose proof (raw_spec_range qw c) as Hr.
  split.
  - intro H. destruct (Z.eq_dec (raw_spec qw c) 0) as [|Hne]; [assumption|].
    exfalso. assert (Hp : (0 < raw_spec qw c)%Z) by lia.
    pose proof (fdiv_pos Hp Hn) as Hpos. rewrite H in Hpos.
    discriminate Hpos.
  - intros ->. apply fdiv_zero, Hn.
Qed.

Lemma score_spec_nonneg qw c : qw <> [] -> 0 <= score_spec qw c.
Proof.
  intro Hqw. unfold SimpleSpec.score_spec.
  assert (Hn : List.length qw <> 0%nat) by (destruct qw; [congruence | discriminate]).
  pose proof (raw_spec_range qw c) as Hr.
  destruct (Z.eq_dec (raw_spec qw c) 0) as [E|Hne].
  - rewrite E. rewrite (fdiv_zero Hn). discriminate.
  - apply Qlt_le_weak, fdiv_pos; [lia | exact Hn].
Qed.

(** Claim C2, amended.  For a query with at least one term, [search]
  returns.  The score of a chunk is its raw score, 1 for each query term
  that is a substring of the lowercased name, a space and the lowercased
  content, plus 2 for each such term that is a substring of the
  lowercased name, divided by the number of terms; it is not negative,
  and it is zero exactly when no term occurs in that text.  Every
  returned chunk carries that score and matches some term, so a chunk of
  score zero is never returned; when [top_k] does not truncate, every
  unfiltered chunk that matches a term is returned.  The division is
  that of the floats, of which the theorem needs that it keeps zero and
  the sign. *)
Theorem lexical_score_correct (store : list SearchResult) (query : str)
        (ft : option str) (top_k : Z) :
  let qw := split_ws (lower query) in
  qw <> [] ->
  exists store' ids,
    search store query ft top_k = (store', Ok ids)
    /\ (forall c, 0 <= score_spec qw c
                  /\ (score_spec qw c == 0 <-> no_term_occurs qw c))
    /\ (forall i, In i ids ->
          (i < List.length store)%nat
          /\ score (deref store' i) = score_spec qw (deref store i)
          /\ ~ score_spec qw (deref store i) == 0)
    /\ ((Z.of_nat (List.length store) <= top_k)%Z ->
        forall i, (i < List.length store)%nat ->
          filtered_out ft (deref store i) = false ->
          ~ score_spec qw (deref store i) == 0 -> In i ids).
Proof.
  intros qw Hqw.
  eexists; eexists. split; [apply search_eq | fold qw].
  split; [|split].
  - intro c. split; [apply score_spec_nonneg, Hqw|].
    rewrite (score_spec_zero c Hqw). apply raw_spec_zero.
  - intros i Hi. apply take_py_incl in Hi.
    apply (Permutation_in _ (sort_desc_perm _ _)) in Hi.
    apply hits_In in Hi. destruct Hi as (m & -> & Hm & Hs). simpl.
    split; [exact Hm|].
    fold (deref store m) in Hs.
    rewrite deref_rescore by exact Hm.
    unfold SimpleSpec.rescore. rewrite Hs. simpl.
    split; [apply final_spec|].
    rewrite (score_spec_zero _ Hqw).
    apply selected_pos in Hs. lia.
  - intros Hk i Hi Hf Hno. rewrite (score_spec_zero _ Hqw) in Hno.
    rewrite take_py_all.
    + apply (Permutation_in _ (Permutation_sym (sort_desc_perm _ _))).
      apply hits_In. exists i. repeat split; [exact Hi|].
      fold (deref store i). apply pos_selected; [exact Hf|].
      pose proof (raw_spec_range qw (deref store i)). lia.
    + rewrite (Permutation_length (sort_desc_perm _ _)).
      pose proof (hits_length qw ft store 0). lia.
Qed.

End Division.

Lemma space_not_upper c : is_space c = true -> lower_char c = c.
Proof.
  unfold lower_char, is_upper, is_space. intro H.
  destruct ((65 <=? ord c) && (ord c <=? 90)) eqn:E; [|reflexivity].
  exfalso.
  apply andb_true_iff in E. destruct E as [E1 E2].
  apply Nat.leb_le in E1, E2.
  apply orb_true_iff in H. destruct H as [H|H];
    apply andb_true_iff in H; destruct H as [H1 H2];
    apply Nat.leb_le in H1, H2; lia.
Qed.

Lemma blank_no_words (query : str) :
  forallb is_space query = true -> split_ws (lower query) = [].
Proof.
  unfold split_ws. induction query as [|c q IH]; simpl; [reflexivity|].
  intro H. apply andb_true_iff in H. destruct H as [Hc Hq].
  rewrite (space_not_upper _ Hc), Hc. apply IH, Hq.
Qed.

Lemma hits_no_words ft chunks : forall i, hits [] ft i chunks = [].
Proof.
  induction chunks as [|c rest IH]; intro i; simpl; [reflexivity|].
  unfold selected, raw. simpl. rewrite andb_false_r. apply IH.
Qed.

Lemma rescore_no_words ft chunks : map (rescore [] ft) chunks = chunks.
Proof.
  induction chunks as [|c rest IH]; simpl; [reflexivity|].
  rewrite IH. unfold rescore, selected, raw. simpl. rewrite andb_false_r. reflexivity.
Qed.

Lemma take_py_nil {A} k : take_py k (@nil A) = [].
Proof. unfold take_py. destruct (0 <=? k)%Z; apply firstn_nil. Qed.

End Lexical.

(** ** Both programs *)

Lemma tpp_scan_identity prec emax q ft embs : forall i chunks,
  Forall2 TPPSpec.same_identity chunks (fst (TPP.scan prec emax q ft i embs chunks)).
Proof.
  assert (Hrefl : forall l, Forall2 TPPSpec.same_identity l l).
  { induction l; constructor; [unfold TPPSpec.same_identity; repeat split | assumption]. }
  induction embs as [|e embs IH]; intros i chunks; simpl; [apply Hrefl|].
  destruct (TPP.similarity prec emax q e) as [sim|err]; simpl; [|apply Hrefl].
  destruct chunks as [|c rest]; simpl; [constructor|].
  specialize (IH (S i) rest).
  destruct (TPP.scan prec emax q ft (S i) embs rest) as [rest' r]. simpl in IH.
  destruct (TPP.filtered_out ft c); simpl; constructor; try exact IH;
    unfold TPPSpec.same_identity; simpl; repeat split.
Qed.

(** Claim C9.  In both programs [search] leaves the store with the same
  number of chunks in the same order, each with its name, path, line
  number, content, file type and category unchanged: only scores are
  rewritten. *)
Theorem search_preserves_identity :
  (forall fdiv store query ft top_k,
      Forall2 SimpleSpec.same_identity store
              (fst (Simple.search fdiv store query ft top_k)))
  /\ (forall prec emax encode store embeddings query top_k ft,
      Forall2 TPPSpec.same_identity store
              (fst (TPP.search prec emax encode store embeddings query top_k ft))).
Proof.
  split.
  - intros. rewrite search_eq. simpl.
    induction store; constructor; [apply rescore_identity | assumption].
  - intros. unfold TPP.search. destruct store as [|c rest]; [constructor|].
    pose proof (tpp_scan_identity prec emax (encode query) ft embeddings 0 (c :: rest)) as H.
    destruct (TPP.scan prec emax (encode query) ft 0 embeddings (c :: rest)) as [s' r].
    exact H.
Qed.

(** Claim C8.  On an empty store both programs return the empty list,
  whatever the filter and [top_k]; on any store the keyword search
  returns the empty list for a query of whitespace only.  Nothing is
  raised: in particular the score is never divided by zero terms. *)
Theorem empty_search_is_empty :
  (forall fdiv query ft top_k,
      Simple.search fdiv [] query ft top_k = ([], Ok []))
  /\ (forall fdiv store query ft top_k,
        forallb is_space query = true ->
        Simple.search fdiv store query ft top_k = (store, Ok []))
  /\ (forall prec emax encode embeddings query top_k ft,
        TPP.search prec emax encode [] embeddings query top_k ft = ([], Ok [])).
Proof.
  split; [|split].
  - reflexivity.
  - intros fdiv store query ft top_k H. rewrite search_eq.
    rewrite (blank_no_words _ H), hits_no_words, rescore_no_words.
    simpl. rewrite take_py_nil. reflexivity.
  - reflexivity.
Qed.

(** The keyword search ranks: the returned positions are the selected
  ones sorted by descending score, chunks of equal score in store
  order, cut to the first [top_k]. *)
Lemma lexical_search_ranked (fdiv : Q -> nat -> Q)
      (store : list Simple.SearchResult) (query : str)
      (ft : option str) (top_k : Z) :
  exists store' ranked,
    Simple.search fdiv store query ft top_k
    = (store', Ok (take_py top_k ranked))
    /\ Permutation ranked
         (SimpleSpec.hits (split_ws (lower query)) ft 0 store)
    /\ StronglySorted
         (desc (fun i => Simple.score (Simple.deref store' i))) ranked
    /\ (forall v,
          filter (of_key (fun i => Simple.score (Simple.deref store' i)) v)
                 ranked
          = filter (of_key (fun i => Simple.score (Simple.deref store' i)) v)
                   (SimpleSpec.hits (split_ws (lower query)) ft 0 store))
    /\ ((0 <= top_k)%Z ->
        List.length (take_py top_k ranked)
        = Nat.min (Z.to_nat top_k) (List.length ranked)).
Proof.
  eexists; eexists. split; [apply search_eq|].
  split; [apply sort_desc_perm|].
  split; [apply sort_desc_sorted|].
  split; [intro v; apply sort_desc_stable|].
  apply take_py_length.
Qed.

(** ** The embedding scorer *)

Section ScorerFacts.
Variables prec emax : Z.

Lemma dot_from_total (a : list spec_float) : forall b acc,
  List.length a = List.length b ->
  exists d, TPP.dot_from prec emax acc a b = Some d.
Proof.
  induction a as [|x a IH]; intros [|y b] acc H; simpl in *; try discriminate.
  - eexists; reflexivity.
  - apply IH. congruence.
Qed.

Lemma dot_from_aligned (a : list spec_float) : forall b acc d,
  TPP.dot_from prec emax acc a b = Some d -> List.length a = List.length b.
Proof.
  induction a as [|x a IH]; intros [|y b] acc d H; simpl in *; try discriminate.
  - reflexivity.
  - f_equal. eapply IH, H.
Qed.

Lemma similarity_total (q c : list spec_float) :
  List.length q = List.length c ->
  exists s, TPP.similarity prec emax q c = Ok s.
Proof.
  intro H. unfold TPP.similarity, TPP.dot.
  destruct q as [|x q], c as [|y c]; simpl in H; try discriminate.
  - eexists; reflexivity.
  - destruct (@dot_from_total q c (SFmul prec emax x y)) as [d Hd]; [congruence|].
    rewrite Hd. eexists; reflexivity.
Qed.

Lemma scan_candidates (q : list spec_float) (ft : option str)
      (embs : list (list spec_float)) : forall i chunks,
  List.length embs = List.length chunks ->
  Forall (fun e => List.length e = List.length q) embs ->
  exists scores,
    snd (TPP.scan prec emax q ft i embs chunks) = Ok scores
    /\ map snd scores = TPPSpec.unfiltered ft i chunks.
Proof.
  induction embs as [|e embs IH]; intros i [|c rest] Hlen Hall; simpl in *;
    try discriminate.
  - exists []. split; reflexivity.
  - inversion Hall as [|? ? He Hrest]; subst.
    destruct (@similarity_total q e (eq_sym He)) as [sim Hsim]. rewrite Hsim.
    destruct (IH (S i) rest) as (scores & Hs & Hm); [congruence | exact Hrest |].
    destruct (TPP.scan prec emax q ft (S i) embs rest) as [rest' r]. simpl in Hs. subst r.
    destruct (TPP.filtered_out ft c); simpl.
    + exists scores. split; [reflexivity | exact Hm].
    + exists ((sim, i) :: scores). split; [reflexivity | simpl; congruence].
Qed.
End ScorerFacts.


(** Claim C1, at the input where the embedding search breaks it.  Two
  pages hold the same navigation bar, so the two chunks have equal
  embeddings and equal similarity to any query; sorting the pairs of
  similarity and chunk then compares the chunks, which have no order:
  [search] raises [TypeError] instead of returning the two chunks in
  store order. *)
Theorem embedding_search_tie_raises :
  snd (TPP.search 24 128 Examples.encode_10 Examples.two_pages
                  Examples.same_vectors (s2l "navigation menu") 10 None)
  = Raise TypeError.
Proof. vm_compute. reflexivity. Qed.

(** Claim C3 fails as stated.  A query vector of zero magnitude gives
  the chunk the score NaN, which is neither within [-1, 1] nor zero,
  nothing is raised and the chunk is returned.  And the bound fails for
  vectors of magnitude other than zero, by more than rounding: for a
  small vector and its double the products underflow, and the similarity
  is 1.5. *)
Lemma cosine_out_of_range :
  (let r := TPP.search 24 128 Examples.encode_00 [Examples.nav "index.html"]
                       [[Examples.f32 1; Examples.f32 1]]
                       (s2l "menu") 10 None in
   snd r = Ok [0%nat]
   /\ map TPP.score (fst r) = [S754_nan]
   /\ SFleb (SFopp (Examples.f32 1)) S754_nan
      && SFleb S754_nan (Examples.f32 1) = false
   /\ SFeqb S754_nan TPP.fzero = false)
  /\ (let r := TPP.search 24 128 Examples.encode_tiny
                          [Examples.nav "index.html"] [Examples.tiny_twice]
                          (s2l "menu") 10 None in
      snd r = Ok [0%nat]
      /\ map TPP.score (fst r) = [S754_finite false 12582912 (-23)]
      /\ SFleb (S754_finite false 12582912 (-23)) (Examples.f32 1) = false
      /\ TPPSpec.is_zero (TPP.norm 24 128 Examples.tiny) = false
      /\ TPPSpec.is_zero (TPP.norm 24 128 Examples.tiny_twice) = false).
Proof. vm_compute. repeat split; reflexivity. Qed.

Section CosineFacts.
Variables prec emax : Z.
Import TPPSpec.

Lemma dot_from_fold (a : list spec_float) : forall b acc,
  List.length a = List.length b ->
  TPP.dot_from prec emax acc a b
  = Some (fold_left (fun acc xy =>
                       SFadd prec emax acc (SFmul prec emax (fst xy) (snd xy)))
                    (combine a b) acc).
Proof.
  induction a as [|x a IH]; intros [|y b] acc H; cbn in H; try discriminate.
  - reflexivity.
  - cbn [TPP.dot_from combine fold_left fst snd]. apply IH. congruence.
Qed.

Lemma dot_dotp (a b : list spec_float) :
  List.length a = List.length b ->
  TPP.dot prec emax a b = Some (dotp prec emax a b).
Proof.
  intro H. unfold TPP.dot, dotp.
  destruct a as [|x a], b as [|y b]; cbn in H; try discriminate.
  - reflexivity.
  - cbn [combine]. apply dot_from_fold. congruence.
Qed.

Lemma norm_magnitude (v : list spec_float) :
  TPP.norm prec emax v = magnitude prec emax v.
Proof.
  unfold TPP.norm, magnitude. rewrite dot_dotp; reflexivity.
Qed.

(** On vectors of one length the scorer computes the cosine. *)
Lemma similarity_cosine (q c : list spec_float) :
  List.length q = List.length c ->
  TPP.similarity prec emax q c = Ok (cosine prec emax q c).
Proof.
  intro H. unfold TPP.similarity, cosine.
  rewrite (dot_dotp _ _ H), !norm_magnitude. reflexivity.
Qed.

(** A quotient whose divisor has a factor zero is a NaN or an
    infinity. *)
Lemma cosine_zero_magnitude (q c : list spec_float) :
  is_zero (magnitude prec emax q) || is_zero (magnitude prec emax c) = true ->
  not_a_number (cosine prec emax q c) = true.
Proof.
  unfold cosine. intro Hz.
  destruct (magnitude prec emax q) as [ | | |? ? ?];
    destruct (magnitude prec emax c) as [ | | |? ? ?];
    simpl in Hz; try discriminate Hz;
    destruct (dotp prec emax q c); reflexivity.
Qed.

Lemma fold_zero (l : list (spec_float * spec_float)) : forall acc,
  is_zero acc = true ->
  Forall (fun xy => is_zero (fst xy) = true /\ is_zero (snd xy) = true) l ->
  is_zero (fold_left (fun acc xy =>
                        SFadd prec emax acc
                              (SFmul prec emax (fst xy) (snd xy)))
                     l acc) = true.
Proof.
  induction l as [|[x y] l IH]; intros acc Ha Hl; cbn [fold_left];
    [exact Ha|].
  inversion Hl as [|? ? [Hx Hy] Hl']; subst. cbn [fst snd] in *.
  apply IH; [|exact Hl'].
  destruct acc as [sa| | |]; try discriminate Ha.
  destruct x as [sx| | |]; try discriminate Hx.
  destruct y as [sy| | |]; try discriminate Hy.
  destruct sa, sx, sy; reflexivity.
Qed.

(** A vector of zeros has magnitude zero. *)
Lemma zeros_magnitude (v : list spec_float) :
  Forall (fun x => is_zero x = true) v ->
  is_zero (magnitude prec emax v) = true.
Proof.
  intro H. unfold magnitude.
  assert (Hd : is_zero (dotp prec emax v v) = true).
  { unfold dotp. destruct v as [|x v]; [reflexivity|].
    inversion H as [|? ? Hx Hv]; subst. cbn [combine].
    apply fold_zero.
    - destruct x; try discriminate Hx. reflexivity.
    - clear - Hv. induction Hv as [|y v Hy Hv IH]; cbn [combine];
        constructor; auto. }
  destruct (dotp prec emax v v); try discriminate Hd. reflexivity.
Qed.

(** The loop of the scorer on aligned vectors. *)
Lemma scan_scores (q : list spec_float) (ft : option str)
      (embs : list (list spec_float)) : forall i chunks,
  List.length embs = List.length chunks ->
  Forall (fun e => List.length e = List.length q) embs ->
  exists chunks' scores,
    TPP.scan prec emax q ft i embs chunks = (chunks', Ok scores)
    /\ map snd scores = unfiltered ft i chunks
    /\ (forall s j, In (s, j) scores ->
          (i <= j)%nat /\ s = cosine prec emax q (nth (j - i) embs []))
    /\ List.length chunks' = List.length chunks
    /\ (forall k, (k < List.length chunks)%nat ->
          same_identity (nth k chunks TPP.dummy) (nth k chunks' TPP.dummy)
          /\ TPP.score (nth k chunks' TPP.dummy)
             = if TPP.filtered_out ft (nth k chunks TPP.dummy)
               then TPP.score (nth k chunks TPP.dummy)
               else cosine prec emax q (nth k embs [])).
Proof.
  induction embs as [|e embs IH]; intros i [|c rest] Hlen Hall;
    cbn in Hlen; try discriminate.
  - exists [], []. cbn [TPP.scan unfiltered map List.length].
    split; [reflexivity|]. split; [reflexivity|].
    split; [intros s j []|]. split; [reflexivity|].
    intros k Hk. lia.
  - inversion Hall as [|? ? He Hrest]; subst.
    cbn [TPP.scan]. rewrite (similarity_cosine _ _ (eq_sym He)).
    destruct (IH (S i) rest) as (rest' & scores & Hs & Hm & Hin & Hl & Hk);
      [congruence | exact Hrest |].
    rewrite Hs. cbn [unfiltered].
    assert (Hin' : forall s j, In (s, j) scores ->
              (i <= j)%nat
              /\ s = cosine prec emax q (nth (j - i) (e :: embs) [])).
    { intros s j H. destruct (Hin s j H) as [Hj ->]. split; [lia|].
      replace (j - i)%nat with (S (j - S i)) by lia. reflexivity. }
    destruct (TPP.filtered_out ft c) eqn:Hf.
    + exists (c :: rest'), scores.
      split; [reflexivity|]. split; [exact Hm|]. split; [exact Hin'|].
      split; [cbn; congruence|].
      intros [|k] Hlt; cbn [nth].
      * rewrite Hf. repeat split; reflexivity.
      * apply Hk. cbn in Hlt. lia.
    + exists (TPP.set_score c (cosine prec emax q e) :: rest'),
             ((cosine prec emax q e, i) :: scores).
      split; [reflexivity|]. split; [cbn; congruence|]. split.
      * intros s j [H | H]; [|exact (Hin' s j H)].
        injection H as <- <-. split; [lia|]. rewrite Nat.sub_diag. reflexivity.
      * split; [cbn; congruence|].
        intros [|k] Hlt; cbn [nth].
        -- rewrite Hf. repeat split; reflexivity.
        -- apply Hk. cbn in Hlt. lia.
Qed.

End CosineFacts.

(** Claim C3, amended.  When every chunk has its embedding and every
  embedding has the length of the query vector, the scorer raises
  nothing: every chunk the filter lets through is a candidate, in store
  order, paired with the quotient of the dot product by the product of
  the two magnitudes, computed in floating point, and that quotient is
  written to its score; no chunk is left out for its score, and the
  other chunks are left as they are.  When the query vector or the chunk
  vector has magnitude zero, as a vector of zeros has, that score is a
  NaN or an infinity and not a number. *)
Theorem cosine_defined (prec emax : Z) (q : list spec_float) (ft : option str)
        (embeddings : list (list spec_float))
        (chunks : list TPP.TPPCodeResult) :
  List.length embeddings = List.length chunks ->
  Forall (fun e => List.length e = List.length q) embeddings ->
  (exists chunks' scores,
      TPP.scan prec emax q ft 0 embeddings chunks = (chunks', Ok scores)
      /\ map snd scores = TPPSpec.unfiltered ft 0 chunks
      /\ (forall s i, In (s, i) scores ->
            s = TPPSpec.cosine prec emax q (nth i embeddings []))
      /\ List.length chunks' = List.length chunks
      /\ (forall i, (i < List.length chunks)%nat ->
            TPPSpec.same_identity (nth i chunks TPP.dummy)
                                  (nth i chunks' TPP.dummy)
            /\ TPP.score (nth i chunks' TPP.dummy)
               = if TPP.filtered_out ft (nth i chunks TPP.dummy)
                 then TPP.score (nth i chunks TPP.dummy)
                 else TPPSpec.cosine prec emax q (nth i embeddings [])))
  /\ (forall c,
        TPPSpec.is_zero (TPPSpec.magnitude prec emax q)
        || TPPSpec.is_zero (TPPSpec.magnitude prec emax c) = true ->
        TPPSpec.not_a_number (TPPSpec.cosine prec emax q c) = true)
  /\ (forall v, Forall (fun x => TPPSpec.is_zero x = true) v ->
        TPPSpec.is_zero (TPPSpec.magnitude prec emax v) = true).
Proof.
  intros Hlen Hall. split; [|split].
  - destruct (@scan_scores prec emax q ft embeddings 0 chunks Hlen Hall)
      as (chunks' & scores & Hs & Hm & Hin & Hl & Hk).
    exists chunks', scores.
    split; [exact Hs|]. split; [exact Hm|]. split; [|split; assumption].
    intros s i H. destruct (Hin s i H) as [_ ->].
    rewrite Nat.sub_0_r. reflexivity.
  - intro c. apply cosine_zero_magnitude.
  - apply zeros_magnitude.
Qed.

(** The query vector of zeros on the two sample pages: both chunks are
    candidates, with a score that is not a number. *)
Lemma cosine_defined_witness :
  List.length Examples.same_vectors = List.length Examples.two_pages
  /\ exists chunks' scores,
       TPP.scan 24 128 (Examples.encode_00 []) None 0
                Examples.same_vectors Examples.two_pages
       = (chunks', Ok scores)
       /\ map snd scores = TPPSpec.unfiltered None 0 Examples.two_pages
       /\ (forall s i, In (s, i) scores ->
             s = TPPSpec.cosine 24 128 (Examples.encode_00 [])
                                (nth i Examples.same_vectors [])).
Proof.
  assert (H : List.length Examples.same_vectors
              = List.length Examples.two_pages) by reflexivity.
  split; [exact H|].
  destruct (proj1 (@cosine_defined 24 128 (Examples.encode_00 []) None
                     Examples.same_vectors Examples.two_pages H
                     ltac:(repeat constructor)))
    as (chunks' & scores & Hs & Hm & Hin & _).
  exists chunks', scores. auto.
Defined.

(** ** The structured-data extractor *)

Lemma try_except_total {A} (body : result A) (empty : A) :
  exists a,
    TPP.try_except
      (TPP.try_except body
         (fun e => match e with
                   | JSONDecodeError => Ok empty
                   | _ => Raise e
                   end))
      (fun _ => Ok empty) = Ok a
    /\ match body with
       | Ok b => a = b
       | Raise _ => a = empty
       end.
Proof.
  destruct body as [b|e]; [|destruct e]; eexists; split; reflexivity.
Qed.

(** Claim C7.  Whatever the parser answers, the extractor raises nothing.
  A text that fails to parse gives no chunk; a document that is not an
  object gives no chunk; an object gives one chunk per item, in order,
  named after the key and holding the key and the first 300 characters
  at most of the serialized value. *)
Theorem json_extraction (loads : str -> result TPP.json)
        (dumps : TPP.json -> str) (content path category : str) :
  exists chunks,
    TPP._extract_json_structure loads dumps content path category = Ok chunks
    /\ match loads content with
       | Raise _ => chunks = []
       | Ok (TPP.JObject items) =>
           Forall2 (fun item c =>
                      TPP.name c = s2l "config-" ++ fst item
                      /\ exists value_str,
                           value_str = firstn 300 (dumps (snd item))
                           /\ (List.length value_str <= 300)%nat
                           /\ TPP.code c
                              = DQ :: fst item ++ DQ :: s2l ": " ++ value_str)
                   items chunks
       | Ok _ => chunks = []
       end.
Proof.
  unfold TPP._extract_json_structure.
  match goal with
  | |- context [TPP.try_except (TPP.try_except ?b _) _] =>
      destruct (try_except_total b []) as (chunks & Hrun & Hbody)
  end.
  exists chunks. split; [exact Hrun|]. clear Hrun.
  destruct (loads content) as [data|e]; cbn [bind] in Hbody; [|exact Hbody].
  destruct data; try exact Hbody.
  subst chunks.
  induction items as [|[key value] items IH]; cbn [map]; constructor;
    [|exact IH].
  unfold TPP.json_chunk. cbn [fst snd TPP.name TPP.code].
  split; [reflexivity|]. eexists. split; [reflexivity|].
  split; [apply firstn_le_length | reflexivity].
Qed.

(** Claim C10.  Every chunk of the structured-data extractor has line
  number 1, wherever its key stands in the file. *)
Theorem json_chunks_on_line_one (loads : str -> result TPP.json)
        (dumps : TPP.json -> str) (content path category : str) :
  exists chunks,
    TPP._extract_json_structure loads dumps content path category = Ok chunks
    /\ Forall (fun c => TPP.line_number c = 1%nat) chunks.
Proof.
  unfold TPP._extract_json_structure.
  match goal with
  | |- context [TPP.try_except (TPP.try_except ?b _) _] =>
      destruct (try_except_total b []) as (chunks & Hrun & Hbody)
  end.
  exists chunks. split; [exact Hrun|]. clear Hrun.
  destruct (loads content) as [data|e]; cbn [bind] in Hbody;
    [|subst; constructor].
  destruct data; cbn iota in Hbody; subst chunks; try (constructor; fail).
  apply Forall_forall. intros c Hc. apply in_map_iff in Hc.
  destruct Hc as ([k v] & <- & _). reflexivity.
Qed.

(** ** Extraction *)

(** *** Lines *)
Lemma split_lines_cons (s : str) : exists l ls, split_lines s = l :: ls.
Proof.
  induction s as [|c s IH]; simpl.
  - eexists; eexists; reflexivity.
  - destruct (ascii_eqb NL c); [eexists; eexists; reflexivity|].
    destruct IH as (l & ls & ->). eexists; eexists; reflexivity.
Qed.



Lemma list_sum_cons (x : nat) (l : list nat) :
  list_sum (x :: l) = (x + list_sum l)%nat.
Proof. reflexivity. Qed.

Lemma char_on_line (s : str) : forall pos c,
  nth_error s pos = Some c -> c <> NL ->
  exists col,
    pos = (ExtractSpec.line_start (split_lines s)
                                  (count_nl (firstn pos s)) + col)%nat
    /\ nth_error (nth (count_nl (firstn pos s)) (split_lines s) []) col
       = Some c.
Proof.
  unfold count_nl, ExtractSpec.line_start.
  induction s as [|x s IH]; intros [|pos] c H Hc; simpl in H; try discriminate.
  - injection H as ->. exists 0%nat. cbn [firstn filter List.length split_lines].
    destruct (ascii_eqb NL c) eqn:E.
    + apply Ascii.eqb_eq in E. congruence.
    + destruct (split_lines_cons s) as (l & ls & ->). split; reflexivity.
  - destruct (IH pos c H Hc) as (col & Hpos & Hcol).
    cbn [firstn filter split_lines].
    destruct (ascii_eqb NL x) eqn:E.
    + cbn [List.length nth firstn map]. rewrite list_sum_cons. exists col.
      split; [lia | exact Hcol].
    + destruct (split_lines_cons s) as (l & ls & Hs). rewrite Hs in *.
      destruct (List.length (filter (ascii_eqb NL) (firstn pos s))) as [|n].
      * exists (S col). cbn [firstn map] in *. rewrite ?list_sum_cons in *.
        split; [lia | exact Hcol].
      * exists col. cbn [firstn map List.length nth] in *. rewrite ?list_sum_cons in *.
        split; [lia | exact Hcol].
Qed.

(** ** The matcher *)

Section RegexFacts.
Import Regex ExtractSpec.

Lemma star_result p s : forall pos caps k m,
  star p s pos caps k = Some m -> cont_ok k pos m.
Proof.
  induction s as [|c s IH]; intros pos caps k m H; simpl in H.
  - exists [], pos, caps. split; [exact H | lia].
  - destruct (p c).
    + unfold or_else in H.
      destruct (star p s (S pos) caps k) eqn:E.
      * injection H as ->. destruct (IH _ _ _ _ E) as (s' & e & c' & Hk & Hle).
        exists s', e, c'. split; [exact Hk | lia].
      * exists (c :: s), pos, caps. split; [exact H | lia].
    + exists (c :: s), pos, caps. split; [exact H | lia].
Qed.

Lemma upto_result p n : forall s pos caps k m,
  upto n p s pos caps k = Some m -> cont_ok k pos m.
Proof.
  induction n as [|n IH]; intros s pos caps k m H.
  - destruct s; simpl in H; eexists; eexists; eexists; (split; [exact H | lia]).
  - destruct s as [|c s]; simpl in H.
    + eexists; eexists; eexists; (split; [exact H | lia]).
    + destruct (p c).
      * unfold or_else in H.
        destruct (upto n p s (S pos) caps k) eqn:E.
        -- injection H as ->. destruct (IH _ _ _ _ _ E) as (s' & e & c' & Hk & Hle).
           exists s', e, c'. split; [exact Hk | lia].
        -- eexists; eexists; eexists; (split; [exact H | lia]).
      * eexists; eexists; eexists; (split; [exact H | lia]).
Qed.

Lemma run_result r : forall s pos caps k m,
  run r s pos caps k = Some m -> cont_ok k pos m.
Proof.
  induction r as [ | p | a IHa b IHb | a IHa b IHb | p | n p | n r IH | ];
    intros s pos caps k m H; simpl in H.
  - exists s, pos, caps. split; [exact H | lia].
  - destruct s as [|c s]; [discriminate|].
    destruct (p c); [|discriminate].
    exists s, (S pos), caps. split; [exact H | lia].
  - apply IHa in H. destruct H as (s1 & p1 & c1 & H & Hle).
    apply IHb in H. destruct H as (s2 & p2 & c2 & H & Hle2).
    exists s2, p2, c2. split; [exact H | lia].
  - unfold or_else in H. destruct (run a s pos caps k) eqn:E.
    + injection H as ->. eapply IHa, E.
    + eapply IHb, H.
  - eapply star_result, H.
  - eapply upto_result, H.
  - apply IH in H. destruct H as (s1 & p1 & c1 & H & Hle).
    eexists; eexists; eexists; (split; [exact H | lia]).
  - destruct s as [|c [|c' s]]; try discriminate.
    + exists [], pos, caps. split; [exact H | lia].
    + destruct (ascii_eqb c NL); [|discriminate].
      exists [c], pos, caps. split; [exact H | lia].
Qed.

Lemma exec_start r s pos m :
  exec r s pos = Some m -> m_start m = pos /\ (pos <= m_end m)%nat.
Proof.
  unfold exec. intro H. apply run_result in H.
  destruct H as (s' & e & c' & H & Hle). injection H as <-. simpl. auto.
Qed.

Lemma finditer_go_exec r s : forall pos resume m,
  In m (finditer_go r s pos resume) ->
  exists j, (j < List.length s)%nat /\ m_start m = (pos + j)%nat
            /\ exec r (skipn j s) (pos + j) = Some m.
Proof.
  induction s as [|c s IH]; intros pos resume m H; simpl in H; [contradiction|].
  assert (Hrest : forall resume', In m (finditer_go r s (S pos) resume') ->
                  exists j, (j < List.length (c :: s))%nat /\ m_start m = (pos + j)%nat
                            /\ exec r (skipn j (c :: s)) (pos + j) = Some m).
  { intros resume' H'. destruct (IH _ _ _ H') as (j & Hj & Hs & He).
    exists (S j). simpl. repeat split; [lia | lia |].
    replace (pos + S j)%nat with (S pos + j)%nat by lia. exact He. }
  destruct (pos <? resume); [eapply Hrest, H|].
  destruct (exec r (c :: s) pos) as [m0|] eqn:E; [|eapply Hrest, H].
  destruct H as [<- | H]; [|eapply Hrest, H].
  exists 0%nat. simpl. rewrite Nat.add_0_r.
  repeat split; [lia | apply (exec_start _ _ _ E) | exact E].
Qed.

Lemma finditer_exec r s m :
  In m (finditer r s) ->
  (m_start m < List.length s)%nat
  /\ exec r (skipn (m_start m) s) (m_start m) = Some m.
Proof.
  intro H. apply finditer_go_exec in H. destruct H as (j & Hj & Hs & He).
  simpl in Hs, He. subst j. auto.
Qed.

(** A pattern that begins with a character class. *)
Lemma exec_first p r rs s pos m :
  exec (seqs (Chr p :: r :: rs)) s pos = Some m ->
  exists c s', s = c :: s' /\ p c = true.
Proof.
  unfold exec. cbn [seqs run]. intro H.
  destruct s as [|c s']; [discriminate|].
  destruct (p c) eqn:E; [|discriminate].
  exists c, s'. auto.
Qed.

Lemma eq_chr_ci_lt c : eq_chr_ci "<"%char c = true -> c = "<"%char.
Proof.
  unfold eq_chr_ci, ascii_eqb. intro H. apply Ascii.eqb_eq in H.
  change (lower_char "<"%char) with "<"%char in H.
  unfold lower_char in H. destruct (is_upper c) eqn:U; [|exact H].
  exfalso. unfold is_upper in U. apply andb_true_iff in U. destruct U as [U1 U2].
  apply Nat.leb_le in U1, U2.
  assert (E : nat_of_ascii (chr (ord c + 32)) = 60%nat) by (rewrite H; reflexivity).
  unfold chr in E. rewrite nat_ascii_embedding in E; lia.
Qed.
End RegexFacts.

(** *** Braces, closing tags and the cap *)

Section ExtractFacts.
Import ExtractSpec.

Lemma count_chr_cons x c s :
  count_chr x (c :: s) = ((if ascii_eqb x c then 1 else 0) + count_chr x s)%nat.
Proof. unfold count_chr. simpl. destruct (ascii_eqb x c); reflexivity. Qed.

Lemma brace_scan_spec (s : str) : forall pos n,
  let e := TPP.brace_scan s pos n in
  let len := (e - pos)%nat in
  (pos <= e)%nat /\ (len <= List.length s)%nat
  /\ (forall k, (k < len)%nat -> depth_positive n (firstn k s))
  /\ (closes (firstn len s) = (n + opens (firstn len s))%nat
      \/ (len = List.length s /\ depth_positive n (firstn len s))).
Proof.
  unfold depth_positive, opens, closes.
  induction s as [|c s IH]; intros pos n; cbn zeta.
  - destruct n; simpl; rewrite Nat.sub_diag; simpl;
      (split; [lia|]; split; [lia|]; split; [intros; lia|]);
      unfold count_chr; simpl; [left | right]; lia.
  - destruct n as [|n].
    + simpl. rewrite Nat.sub_diag. simpl. unfold count_chr. simpl.
      split; [lia|]; split; [lia|]; split; [intros; lia|]. left; lia.
    + cbn [TPP.brace_scan].
      assert (Hstep : forall n' : nat,
        (if ascii_eqb "}"%char c then S n' = S n else
           if ascii_eqb "{"%char c then n' = S (S n) else n' = S n)%nat ->
        let e := TPP.brace_scan s (S pos) n' in
        (pos <= e)%nat /\ (e - pos <= List.length (c :: s))%nat
        /\ (forall k, (k < e - pos)%nat ->
              (count_chr "}"%char (firstn k (c :: s)) < S n + count_chr "{"%char (firstn k (c :: s)))%nat)
        /\ (count_chr "}"%char (firstn (e - pos) (c :: s))
            = (S n + count_chr "{"%char (firstn (e - pos) (c :: s)))%nat
            \/ ((e - pos)%nat = List.length (c :: s)
                /\ (count_chr "}"%char (firstn (e - pos) (c :: s))
                    < S n + count_chr "{"%char (firstn (e - pos) (c :: s)))%nat))).
      { intros n' Hn. cbn zeta.
        destruct (IH (S pos) n') as (H1 & H2 & H3 & H4).
        set (e := TPP.brace_scan s (S pos) n') in *.
        replace (e - pos)%nat with (S (e - S pos)) by lia.
        assert (Hcount : forall k,
           (count_chr "}"%char (firstn (S k) (c :: s)) < S n + count_chr "{"%char (firstn (S k) (c :: s)))%nat
           <-> (count_chr "}"%char (firstn k s) < n' + count_chr "{"%char (firstn k s))%nat).
        { intro k. cbn [firstn]. rewrite !count_chr_cons.
          destruct (ascii_eqb "}"%char c) eqn:E1; destruct (ascii_eqb "{"%char c) eqn:E2;
            try (apply Ascii.eqb_eq in E1; apply Ascii.eqb_eq in E2; congruence); lia. }
        assert (Hcount2 : forall k,
           (count_chr "}"%char (firstn (S k) (c :: s)) = S n + count_chr "{"%char (firstn (S k) (c :: s)))%nat
           <-> (count_chr "}"%char (firstn k s) = n' + count_chr "{"%char (firstn k s))%nat).
        { intro k. cbn [firstn]. rewrite !count_chr_cons.
          destruct (ascii_eqb "}"%char c) eqn:E1; destruct (ascii_eqb "{"%char c) eqn:E2;
            try (apply Ascii.eqb_eq in E1; apply Ascii.eqb_eq in E2; congruence); lia. }
        split; [lia|]. split; [simpl; lia|]. split.
        - intros [|k] Hk.
          + simpl. unfold count_chr. simpl. lia.
          + apply Hcount, H3. lia.
        - destruct H4 as [H4 | [H4 H5]].
          + left. apply Hcount2, H4.
          + right. split; [simpl; lia | apply Hcount, H5]. }
      unfold ascii_eqb in *.
      rewrite (Ascii.eqb_sym c "{"%char), (Ascii.eqb_sym c "}"%char).
      destruct (Ascii.eqb "{"%char c) eqn:E2; destruct (Ascii.eqb "}"%char c) eqn:E1;
        try (apply Ascii.eqb_eq in E1; apply Ascii.eqb_eq in E2; congruence);
        (apply Hstep; rewrite ?E1, ?E2; reflexivity).
Qed.

Lemma find_go_some p s : forall pos e,
  find_go p s pos = Some e ->
  exists j, e = (pos + j)%nat /\ (j <= List.length s)%nat
            /\ starts_with p (skipn j s) = true.
Proof.
  induction s as [|c s IH]; intros pos e H; simpl in H.
  - destruct (starts_with p []) eqn:E; [|discriminate].
    injection H as <-. exists 0%nat. simpl. repeat split; [lia | lia | exact E].
  - destruct (starts_with p (c :: s)) eqn:E.
    + injection H as <-. exists 0%nat. simpl. repeat split; [lia | lia | exact E].
    + destruct (IH _ _ H) as (j & -> & Hj & Hs).
      exists (S j). simpl. repeat split; [lia | lia | exact Hs].
Qed.

Lemma find_go_none p s : forall pos,
  find_go p s pos = None ->
  forall j, (j <= List.length s)%nat -> starts_with p (skipn j s) = false.
Proof.
  induction s as [|c s IH]; intros pos H j Hj; simpl in H.
  - destruct (starts_with p []) eqn:E; [discriminate|].
    simpl in Hj. replace j with 0%nat by lia. exact E.
  - destruct (starts_with p (c :: s)) eqn:E; [discriminate|].
    destruct j as [|j]; [exact E|]. simpl. eapply IH; [exact H | simpl in Hj; lia].
Qed.

Lemma cap_capped n text : capped n text (cap n text).
Proof.
  unfold capped, cap. destruct (n <? List.length text) eqn:E.
  - apply Nat.ltb_lt in E. right. auto.
  - apply Nat.ltb_ge in E. left. auto.
Qed.

Lemma capped_length n text code :
  capped n text code -> (List.length code <= n + 3)%nat.
Proof.
  intros [[H ->] | [H ->]]; [lia|].
  rewrite length_app, length_firstn. simpl. lia.
Qed.
End ExtractFacts.

(** *** The markup extractors *)

Section MarkupFacts.
Import Regex ExtractSpec.

Lemma skipn_nth_error {A} (l : list A) : forall n c rest,
  skipn n l = c :: rest -> nth_error l n = Some c.
Proof.
  induction l as [|x l IH]; intros [|n] c rest H; simpl in *;
    try discriminate.
  - congruence.
  - eapply IH, H.
Qed.

(** A match of a pattern that begins with [<] begins on the line the
  extractors compute for it. *)
Lemma match_on_line r rs content m :
  In m (finditer (seqs (lit_ci "<" :: r :: rs)) content) ->
  tag_on_line content (m_start m)
              (count_nl (firstn (m_start m) content) + 1).
Proof.
  intro H. apply finditer_exec in H. destruct H as [Hlt He].
  change (lit_ci "<") with (Chr (eq_chr_ci "<"%char)) in He.
  apply exec_first in He. destruct He as (c & s' & Hs & Hc).
  apply eq_chr_ci_lt in Hc. subst c.
  apply skipn_nth_error in Hs.
  split; [exact Hs|]. split; [lia|].
  rewrite Nat.add_sub.
  apply char_on_line; [exact Hs | discriminate].
Qed.

End MarkupFacts.


(** *** The script extractors *)

(** Claim C5 fails as stated.  A function stands between two statements
  on one line: the brace loop stops behind the closing brace of the
  function, yet the content of the chunk is the whole line, which
  begins in front of the keyword and goes on behind the brace; and the
  content of the simple extractor's chunk goes on into the next
  line. *)
Lemma js_content_is_whole_lines :
  Regex.finditer (hd Regex.Eps TPP.js_patterns) Examples.js_file
  = [Regex.mkMatch 11 34 [(1%nat, (20%nat, 30%nat))]]
  /\ slice 11 (TPP.function_end Examples.js_file
                 (Regex.mkMatch 11 34 [(1%nat, (20%nat, 30%nat))]))
           Examples.js_file
     = Examples.toggle_menu
  /\ map TPP.code (TPP._extract_js_functions Examples.js_file [] [])
     = [Examples.js_line; Examples.js_line; Examples.js_line]
  /\ map Simple.content (Simple._extract_js_functions Examples.js_file [])
     = [Examples.js_file]
  /\ str_eqb Examples.js_line Examples.toggle_menu = false.
Proof. vm_compute. repeat split; reflexivity. Qed.

(** *** The cap on the content *)

(** Claim C6 fails as stated.  A section of the documentation with
  twenty-one lines is cut to twenty and no marker is appended; and the
  content of a markup chunk cut at 1000 characters is 1003 characters
  long. *)
Lemma truncation_without_marker :
  List.length (split_lines Examples.long_doc) = 21%nat
  /\ map TPP.code (TPP._extract_md_sections Examples.long_doc [] [])
     = [join_lines (firstn 20 (split_lines Examples.long_doc))]
  /\ starts_with (rev ellipsis)
                 (rev (join_lines (firstn 20 (split_lines Examples.long_doc))))
     = false
  /\ map (fun c => List.length (TPP.code c))
         (TPP._extract_html_components Examples.long_div [] [])
     = [1003%nat].
Proof. vm_compute. repeat split; reflexivity. Qed.

(** ** The theorems at sample inputs *)

(** The division without rounding keeps zero and the sign, and the
    quotient of a whole number that is at most three times the divisor is
    at most three. *)
Lemma exact_div_zero (n : nat) : n <> 0%nat -> Examples.exact_div 0 n == 0.
Proof. intros _. unfold Examples.exact_div, Qdiv. apply Qmult_0_l. Qed.

Lemma exact_div_pos (z : Z) (n : nat) :
  (0 < z)%Z -> n <> 0%nat -> 0 < Examples.exact_div (inject_Z z) n.
Proof.
  intros Hz Hn. unfold Examples.exact_div.
  apply Qlt_shift_div_l.
  - change 0 with (inject_Z 0). rewrite <- Zlt_Qlt. lia.
  - rewrite Qmult_0_l. change 0 with (inject_Z 0). rewrite <- Zlt_Qlt.
    exact Hz.
Qed.

Lemma exact_div_le (z : Z) (n : nat) :
  (z <= 3 * Z.of_nat n)%Z -> n <> 0%nat ->
  Examples.exact_div (inject_Z z) n <= 3.
Proof.
  intros Hz Hn. unfold Examples.exact_div.
  apply Qle_shift_div_r.
  - change 0 with (inject_Z 0). rewrite <- Zlt_Qlt. lia.
  - change 3 with (inject_Z 3). rewrite <- inject_Z_mult, <- Zle_Qle.
    exact Hz.
Qed.

(** The query [contact form] on the sample store, with the division
  without rounding: the contact form is returned, alone, with score
  (3 + 3) / 2. *)
Lemma lexical_score_correct_witness :
  split_ws (lower (s2l "contact form")) <> []
  /\ exists store' ids,
       Simple.search Examples.exact_div Examples.contact_store
                     (s2l "contact form") None 10
       = (store', Ok ids)
       /\ (forall i, In i ids ->
             (i < List.length Examples.contact_store)%nat
             /\ Simple.score (Simple.deref store' i)
                = SimpleSpec.score_spec
                    Examples.exact_div
                    (split_ws (lower (s2l "contact form")))
                    (Simple.deref Examples.contact_store i)
             /\ ~ SimpleSpec.score_spec
                    Examples.exact_div
                    (split_ws (lower (s2l "contact form")))
                    (Simple.deref Examples.contact_store i) == 0).
Proof.
  assert (H : split_ws (lower (s2l "contact form")) <> [])
    by (vm_compute; discriminate).
  split; [exact H|].
  destruct (@lexical_score_correct Examples.exact_div exact_div_zero
              exact_div_pos Examples.contact_store
              (s2l "contact form") None 10 H)
    as (store' & ids & Hs & _ & Hin & _).
  exists store', ids. split; [exact Hs | exact Hin].
Defined.

(** Claim C2 fails as stated.  The term [navbar] is a substring of the
    lowercased name followed by the lowercased content of the chunk
    named [nav] whose content begins with [bar], so the claim gives the
    chunk the score 1 and has it returned; the program searches the name,
    a space and the content, finds no term, and returns nothing,
    whatever the division. *)
Lemma haystack_separator :
  split_ws (lower (s2l "navbar")) = [s2l "navbar"]
  /\ contains (s2l "navbar") (SimpleSpec.name_content Examples.nav_bar)
     = true
  /\ contains (s2l "navbar") (lower (Simple.name Examples.nav_bar)) = false
  /\ forall fdiv,
       Simple.search fdiv [Examples.nav_bar] (s2l "navbar") None 10
       = ([Examples.nav_bar], Ok []).
Proof.
  split; [vm_compute; reflexivity|].
  split; [vm_compute; reflexivity|].
  split; [vm_compute; reflexivity|].
  intro fdiv. reflexivity.
Qed.

(** The sample store and the contact query, computed. *)
Lemma contact_form_first :
  snd (Simple.search Examples.exact_div Examples.contact_store
                     (s2l "contact form") None 10)
  = Ok [1%nat]
  /\ map Simple.score
         (fst (Simple.search Examples.exact_div Examples.contact_store
                             (s2l "contact form") None 10))
     = [0; 6 / 2].
Proof. vm_compute. split; reflexivity. Qed.

(** A query of blanks on the sample store. *)
Lemma empty_search_is_empty_witness :
  forallb is_space (s2l "   ") = true
  /\ Simple.search Examples.exact_div Examples.contact_store (s2l "   ")
                   None 10
     = (Examples.contact_store, Ok []).
Proof.
  assert (H : forallb is_space (s2l "   ") = true) by reflexivity.
  split; [exact H|].
  exact (proj1 (proj2 empty_search_is_empty) Examples.exact_div
               Examples.contact_store (s2l "   ") None 10%Z H).
Defined.

(** * Further properties *)

(** ** The keyword search: what it returns *)

Section LexicalMore.
Import Simple SimpleSpec.

Variable fdiv : Q -> nat -> Q.

Local Abbreviation search := (Simple.search fdiv).
Local Abbreviation final := (SimpleSpec.final fdiv).
Local Abbreviation rescore := (SimpleSpec.rescore fdiv).

Lemma hits_count qw ft chunks : forall i,
  List.length (hits qw ft i chunks)
  = List.length (filter (selected qw ft) chunks).
Proof.
  induction chunks as [|c rest IH]; intro i; simpl; [reflexivity|].
  destruct (selected qw ft c); simpl; rewrite IH; reflexivity.
Qed.

Lemma hits_bounds qw ft chunks : forall i j,
  In j (hits qw ft i chunks) -> (i <= j < i + List.length chunks)%nat.
Proof.
  intros i j H. apply hits_In in H. destruct H as (m & -> & Hm & _). lia.
Qed.

Lemma hits_NoDup qw ft chunks : forall i, NoDup (hits qw ft i chunks).
Proof.
  induction chunks as [|c rest IH]; intro i; simpl; [constructor|].
  destruct (selected qw ft c); [|apply IH].
  constructor; [|apply IH].
  intro H. apply hits_bounds in H. lia.
Qed.

Lemma NoDup_firstn {A} (n : nat) (l : list A) : NoDup l -> NoDup (firstn n l).
Proof.
  intro H. rewrite <- (firstn_skipn n l) in H.
  apply NoDup_app_remove_r in H. exact H.
Qed.

Lemma take_py_NoDup {A} (k : Z) (l : list A) : NoDup l -> NoDup (take_py k l).
Proof. unfold take_py. destruct (0 <=? k)%Z; apply NoDup_firstn. Qed.

(** With a [top_k] that is not negative, the keyword search returns as
    many positions as [top_k] allows of the chunks that pass the filter
    and match a term; the positions are distinct and lie in the store. *)
Theorem lexical_result_count (store : list SearchResult) (query : str)
        (ft : option str) (top_k : Z) :
  (0 <= top_k)%Z ->
  exists ids,
    snd (search store query ft top_k) = Ok ids
    /\ List.length ids
       = Nat.min (Z.to_nat top_k)
                 (List.length
                    (filter (selected (split_ws (lower query)) ft) store))
    /\ NoDup ids
    /\ (forall i, In i ids -> (i < List.length store)%nat).
Proof.
  intro Hk. rewrite search_eq. cbn [snd]. eexists. split; [reflexivity|].
  set (key := fun i => score (deref _ i)).
  split; [|split].
  - rewrite take_py_length by exact Hk.
    rewrite (Permutation_length (sort_desc_perm key _)), hits_count.
    reflexivity.
  - apply take_py_NoDup.
    apply (Permutation_NoDup (Permutation_sym (sort_desc_perm key _))).
    apply hits_NoDup.
  - intros i Hi. apply take_py_incl in Hi.
    apply (Permutation_in _ (sort_desc_perm key _)) in Hi.
    apply hits_bounds in Hi. lia.
Qed.

(** A negative [top_k] does not limit the count: the search returns the
    whole ranking without its last [- top_k] entries. *)
Theorem lexical_negative_top_k (store : list SearchResult) (query : str)
        (ft : option str) (top_k : Z) :
  (top_k < 0)%Z ->
  exists ranking,
    snd (search store query ft (Z.of_nat (List.length store))) = Ok ranking
    /\ snd (search store query ft top_k)
       = Ok (firstn (List.length ranking - Z.to_nat (- top_k)) ranking).
Proof.
  intro Hk. rewrite !search_eq. cbn [snd].
  set (key := fun i => score (deref _ i)).
  rewrite (@take_py_all _ (Z.of_nat (List.length store))).
  - eexists. split; [reflexivity|].
    unfold take_py. apply Z.leb_gt in Hk. rewrite Hk. reflexivity.
  - rewrite (Permutation_length (sort_desc_perm key _)).
    pose proof (hits_length (split_ws (lower query)) ft store 0). lia.
Qed.

(** *** Scores of earlier queries *)

Lemma keyword_score_identity qw a b : forall acc,
  same_identity a b -> keyword_score qw a acc = keyword_score qw b acc.
Proof.
  intros acc (Hn & _ & _ & Hc & _). revert acc.
  induction qw as [|w qw IH]; intro acc; cbn [keyword_score]; [reflexivity|].
  unfold haystack. rewrite Hn, Hc. apply IH.
Qed.

Lemma selected_identity qw ft a b :
  same_identity a b -> selected qw ft a = selected qw ft b.
Proof.
  intro H. unfold selected, raw. rewrite (keyword_score_identity qw 0 H).
  destruct H as (_ & _ & _ & _ & Ht).
  unfold filtered_out. rewrite Ht. reflexivity.
Qed.

Lemma final_identity qw a b : same_identity a b -> final qw a = final qw b.
Proof.
  intro H. unfold final, raw. rewrite (keyword_score_identity qw 0 H).
  reflexivity.
Qed.

Lemma hits_identity qw ft s1 s2 : forall i,
  Forall2 same_identity s1 s2 -> hits qw ft i s1 = hits qw ft i s2.
Proof.
  intros i H. revert i. induction H as [|a b s1 s2 Hab H IH]; intro i;
    cbn [hits]; [reflexivity|].
  rewrite (selected_identity qw ft Hab), IH. reflexivity.
Qed.

Lemma deref_identity s1 s2 i :
  Forall2 same_identity s1 s2 -> same_identity (deref s1 i) (deref s2 i).
Proof.
  intro H. revert i. unfold deref.
  induction H as [|a b s1 s2 Hab H IH]; intros [|i]; cbn [nth]; auto.
  - unfold same_identity. repeat split.
  - unfold same_identity. repeat split.
Qed.

Lemma insert_desc_ext {A} (key1 key2 : A -> Q) x l :
  key1 x = key2 x -> (forall y, In y l -> key1 y = key2 y) ->
  insert_desc key1 x l = insert_desc key2 x l.
Proof.
  intros Hx. induction l as [|y ys IH]; intro H; cbn [insert_desc];
    [reflexivity|].
  rewrite Hx, (H y (or_introl eq_refl)).
  destruct (Qle_bool (key2 y) (key2 x)); [reflexivity|].
  rewrite IH; [reflexivity|]. intros z Hz. apply H. right. exact Hz.
Qed.

Lemma sort_desc_ext {A} (key1 key2 : A -> Q) l :
  (forall y, In y l -> key1 y = key2 y) ->
  sort_desc key1 l = sort_desc key2 l.
Proof.
  induction l as [|x l IH]; intro H; [reflexivity|].
  cbn [sort_desc fold_right]. fold (sort_desc key1 l) (sort_desc key2 l).
  rewrite <- IH by (intros y Hy; apply H; right; exact Hy).
  apply insert_desc_ext; [apply H; left; reflexivity|].
  intros y Hy. apply H. right.
  apply (Permutation_in _ (sort_desc_perm key1 l)). exact Hy.
Qed.

Lemma hit_score qw ft store i :
  In i (hits qw ft 0 store) ->
  score (deref (map (rescore qw ft) store) i) = final qw (deref store i).
Proof.
  intro H. apply hits_In in H. destruct H as (m & -> & Hm & Hs). cbn [plus].
  rewrite deref_rescore by exact Hm.
  unfold rescore. fold (deref store m) in Hs. rewrite Hs. reflexivity.
Qed.

Lemma result_of_identity (s1 s2 : list SearchResult)
      (query : str) (ft : option str) (top_k : Z) :
  Forall2 same_identity s1 s2 ->
  snd (search s1 query ft top_k) = snd (search s2 query ft top_k).
Proof.
  intro H. rewrite !search_eq. cbn [snd].
  set (qw := split_ws (lower query)).
  rewrite <- (hits_identity qw ft 0 H).
  do 2 f_equal. apply sort_desc_ext. intros i Hi.
  rewrite (@hit_score _ _ _ _ Hi).
  rewrite (hits_identity qw ft 0 H) in Hi.
  rewrite (@hit_score _ _ _ _ Hi).
  apply final_identity, deref_identity, H.
Qed.

(** What a search returns does not depend on the scores the chunks carry
    from earlier queries: two stores whose chunks agree in every field
    but the score give the same result. *)
Theorem lexical_result_ignores_old_scores (s1 s2 : list SearchResult)
        (query : str) (ft : option str) (top_k : Z) :
  Forall2 same_identity s1 s2 ->
  snd (search s1 query ft top_k) = snd (search s2 query ft top_k).
Proof.
  intro H. exact (result_of_identity query ft top_k H).
Qed.

(** A chunk the query does not select is not touched: it keeps the score
    it had, whatever query wrote it; a selected chunk carries the score
    of this query. *)
Theorem lexical_unselected_keep_score (store : list SearchResult)
        (query : str) (ft : option str) (top_k : Z) (i : nat) :
  (i < List.length store)%nat ->
  let qw := split_ws (lower query) in
  let store' := fst (search store query ft top_k) in
  (selected qw ft (deref store i) = false ->
   deref store' i = deref store i)
  /\ (selected qw ft (deref store i) = true ->
      deref store' i = set_score (deref store i) (final qw (deref store i))).
Proof.
  intros Hi qw store'. subst store'. rewrite search_eq. cbn [fst].
  fold qw. rewrite deref_rescore by exact Hi. unfold rescore.
  split; intros ->; reflexivity.
Qed.

Lemma rescore_rescore qw ft c :
  rescore qw ft (rescore qw ft c) = rescore qw ft c.
Proof.
  assert (Hs : selected qw ft (rescore qw ft c) = selected qw ft c)
    by (symmetry; apply selected_identity, rescore_identity).
  unfold rescore at 1. rewrite Hs.
  destruct (selected qw ft c) eqn:E; [|unfold rescore; rewrite E; reflexivity].
  rewrite <- (final_identity qw (rescore_identity fdiv qw ft c)).
  unfold rescore. rewrite E. reflexivity.
Qed.

(** Searching again with the same query changes nothing: the store stays
    as the first search left it and the result is the same. *)
Theorem lexical_search_idempotent (store : list SearchResult) (query : str)
        (ft : option str) (top_k : Z) :
  search (fst (search store query ft top_k)) query ft top_k
  = search store query ft top_k.
Proof.
  rewrite (surjective_pairing (search (fst _) query ft top_k)).
  rewrite (surjective_pairing (search store query ft top_k)) at 3.
  f_equal.
  - rewrite !search_eq. cbn [fst]. rewrite map_map.
    apply map_ext. intro c. apply rescore_rescore.
  - symmetry. apply result_of_identity.
    rewrite search_eq. cbn [fst].
    induction store; constructor; [apply rescore_identity | assumption].
Qed.

(** *** The filter and the range of the scores *)

Lemma str_eqb_eq (a b : str) : str_eqb a b = true <-> a = b.
Proof.
  revert b. induction a as [|x a IH]; intros [|y b]; cbn [str_eqb];
    try (split; [discriminate | discriminate]); [tauto|].
  rewrite andb_true_iff. unfold ascii_eqb. rewrite Ascii.eqb_eq, IH.
  split; [intros [-> ->]; reflexivity | intro H; injection H; auto].
Qed.

(** With a file type as filter, every returned chunk is of that type;
    the empty text as filter is no filter. *)
Theorem lexical_filter_respected (store : list SearchResult) (query : str)
        (t : str) (top_k : Z) :
  (t <> [] ->
   exists ids,
     snd (search store query (Some t) top_k) = Ok ids
     /\ forall i, In i ids -> file_type (deref store i) = t)
  /\ (t = [] ->
      search store query (Some t) top_k = search store query None top_k).
Proof.
  split.
  - intro Ht. rewrite search_eq. cbn [snd]. eexists. split; [reflexivity|].
    intros i Hi. apply take_py_incl in Hi.
    apply (Permutation_in _ (sort_desc_perm _ _)) in Hi.
    apply hits_In in Hi. destruct Hi as (m & -> & _ & Hs). cbn [plus].
    fold (deref store m) in Hs. unfold selected in Hs.
    apply andb_true_iff in Hs. destruct Hs as [Hf _].
    unfold filtered_out in Hf. destruct t as [|c t']; [congruence|].
    apply negb_true_iff, negb_false_iff in Hf.
    apply str_eqb_eq, Hf.
  - intros ->. rewrite !search_eq.
    assert (Hh : forall chunks i,
               hits (split_ws (lower query)) (Some []) i chunks
               = hits (split_ws (lower query)) None i chunks).
    { induction chunks as [|c rest IH]; intro i; cbn [hits]; [reflexivity|].
      rewrite IH. reflexivity. }
    rewrite Hh. reflexivity.
Qed.

Section Range.

(** The division keeps the sign, and the quotient of a whole number that
    is at most three times the divisor is at most three. *)
Hypothesis fdiv_pos :
  forall z n, (0 < z)%Z -> n <> 0%nat -> 0 < fdiv (inject_Z z) n.
Hypothesis fdiv_le :
  forall z n, (z <= 3 * Z.of_nat n)%Z -> n <> 0%nat ->
              fdiv (inject_Z z) n <= 3.

(** The score of a returned chunk is positive and at most three: a
    chunk is returned only when a term matched, and a term adds three at
    most to the sum that is divided by the number of terms. *)
Theorem lexical_score_range (store : list SearchResult) (query : str)
        (ft : option str) (top_k : Z) :
  exists store' ids,
    search store query ft top_k = (store', Ok ids)
    /\ forall i, In i ids ->
         0 < score (deref store' i) /\ score (deref store' i) <= 3.
Proof.
  eexists; eexists. split; [apply search_eq|].
  intros i Hi. apply take_py_incl in Hi.
  apply (Permutation_in _ (sort_desc_perm _ _)) in Hi.
  rewrite (@hit_score _ _ _ _ Hi).
  apply hits_In in Hi. destruct Hi as (m & -> & _ & Hs). cbn [plus].
  fold (deref store m) in Hs. set (c := deref store m) in *.
  set (qw := split_ws (lower query)) in *.
  apply selected_pos in Hs. destruct Hs as [_ Hpos].
  pose proof (raw_spec_range qw c) as Hr.
  assert (Hn : List.length qw <> 0%nat).
  { destruct qw; [cbn in Hpos; lia | discriminate]. }
  unfold SimpleSpec.final. rewrite raw_whole.
  split; [apply fdiv_pos | apply fdiv_le]; (assumption || lia).
Qed.

End Range.

End LexicalMore.

Lemma lexical_result_count_witness :
  (0 <= 10)%Z
  /\ exists ids,
       snd (Simple.search Examples.exact_div Examples.contact_store
                          (s2l "contact form") None 10)
       = Ok ids
       /\ List.length ids
          = Nat.min (Z.to_nat 10)
                    (List.length
                       (filter (SimpleSpec.selected
                                  (split_ws (lower (s2l "contact form")))
                                  None)
                               Examples.contact_store)).
Proof.
  assert (H : (0 <= 10)%Z) by lia.
  split; [exact H|].
  destruct (@lexical_result_count Examples.exact_div Examples.contact_store
              (s2l "contact form") None 10 H) as (ids & Hs & Hl & _).
  exists ids. split; [exact Hs | exact Hl].
Defined.

Lemma lexical_negative_top_k_witness :
  (-1 < 0)%Z
  /\ exists ranking,
       snd (Simple.search Examples.exact_div Examples.contact_store
                          (s2l "contact form") None
                          (Z.of_nat (List.length Examples.contact_store)))
       = Ok ranking
       /\ snd (Simple.search Examples.exact_div Examples.contact_store
                             (s2l "contact form") None (-1))
          = Ok (firstn (List.length ranking - Z.to_nat (- (-1))) ranking).
Proof.
  assert (H : (-1 < 0)%Z) by lia.
  split; [exact H|].
  exact (@lexical_negative_top_k Examples.exact_div Examples.contact_store
           (s2l "contact form") None (-1) H).
Defined.

Lemma lexical_filter_respected_witness :
  s2l "html" <> []
  /\ exists ids,
       snd (Simple.search Examples.exact_div Examples.contact_store
                          (s2l "contact form") (Some (s2l "html")) 10)
       = Ok ids
       /\ forall i, In i ids ->
            Simple.file_type (Simple.deref Examples.contact_store i)
            = s2l "html".
Proof.
  assert (H : s2l "html" <> []) by discriminate.
  split; [exact H|].
  exact (proj1 (@lexical_filter_respected Examples.exact_div
                  Examples.contact_store
                  (s2l "contact form") (s2l "html") 10) H).
Defined.

Lemma lexical_old_scores_witness :
  Forall2 SimpleSpec.same_identity Examples.contact_store
          (map (fun c => Simple.set_score c 1) Examples.contact_store)
  /\ snd (Simple.search Examples.exact_div Examples.contact_store
                        (s2l "contact form") None 10)
     = snd (Simple.search Examples.exact_div
                          (map (fun c => Simple.set_score c 1)
                               Examples.contact_store)
                          (s2l "contact form") None 10).
Proof.
  assert (H : Forall2 SimpleSpec.same_identity Examples.contact_store
                      (map (fun c => Simple.set_score c 1)
                           Examples.contact_store))
    by (repeat constructor).
  split; [exact H|].
  exact (@lexical_result_ignores_old_scores Examples.exact_div _ _
           (s2l "contact form") None 10 H).
Defined.

Lemma lexical_unselected_witness :
  (0 < List.length Examples.contact_store)%nat
  /\ (SimpleSpec.selected (split_ws (lower (s2l "contact form"))) None
                          (Simple.deref Examples.contact_store 0) = false ->
      Simple.deref (fst (Simple.search Examples.exact_div
                                       Examples.contact_store
                                       (s2l "contact form") None 10))
                   0
      = Simple.deref Examples.contact_store 0).
Proof.
  assert (H : (0 < List.length Examples.contact_store)%nat)
    by (cbn; lia).
  split; [exact H|].
  exact (proj1 (@lexical_unselected_keep_score Examples.exact_div
                  Examples.contact_store
                  (s2l "contact form") None 10 0 H)).
Defined.

(** The scores of the sample store lie in the range, with the division
    without rounding. *)
Lemma lexical_score_range_witness :
  exists store' ids,
    Simple.search Examples.exact_div Examples.contact_store
                  (s2l "contact form") None 10 = (store', Ok ids)
    /\ forall i, In i ids ->
         0 < Simple.score (Simple.deref store' i)
         /\ Simple.score (Simple.deref store' i) <= 3.
Proof.
  exact (@lexical_score_range Examples.exact_div exact_div_pos exact_div_le
           Examples.contact_store (s2l "contact form") None 10).
Defined.

(** ** The embedding search: what it returns *)

Section EmbeddingMore.
Import TPP TPPSpec.
Variables prec emax : Z.

Lemma insert_asc_perm {A} (lt : A -> A -> result bool) x l : forall l',
  insert_asc lt x l = Ok l' -> Permutation l' (x :: l).
Proof.
  induction l as [|y ys IH]; intros l' H; cbn [insert_asc] in H.
  - injection H as <-. reflexivity.
  - destruct (lt x y) as [[|]|e]; cbn [bind] in H; try discriminate.
    + injection H as <-. reflexivity.
    + destruct (insert_asc lt x ys) as [ys'|e]; cbn [bind] in H;
        [|discriminate].
      injection H as <-. rewrite (IH ys' eq_refl). apply perm_swap.
Qed.

Lemma sort_asc_from_perm {A} (lt : A -> A -> result bool) l : forall acc r,
  sort_asc_from lt acc l = Ok r -> Permutation r (acc ++ l).
Proof.
  induction l as [|x xs IH]; intros acc r H; cbn [sort_asc_from] in H.
  - injection H as <-. rewrite app_nil_r. reflexivity.
  - destruct (insert_asc lt x acc) as [acc'|e] eqn:E; cbn [bind] in H;
      [|discriminate].
    rewrite (IH _ _ H), (insert_asc_perm _ _ _ E).
    cbn [app]. apply Permutation_middle.
Qed.

Lemma sort_reverse_perm {A} (lt : A -> A -> result bool) l r :
  sort_reverse lt l = Ok r -> Permutation r l.
Proof.
  unfold sort_reverse, sort_asc. intro H.
  destruct (sort_asc_from lt [] (rev l)) as [s|e] eqn:E; cbn [bind] in H;
    [|discriminate].
  injection H as <-. apply sort_asc_from_perm in E. cbn [app] in E.
  rewrite <- Permutation_rev, E, <- Permutation_rev. reflexivity.
Qed.

Lemma unfiltered_In ft chunks : forall i j,
  In j (unfiltered ft i chunks) <->
  exists m, j = (i + m)%nat /\ (m < List.length chunks)%nat
            /\ filtered_out ft (nth m chunks dummy) = false.
Proof.
  induction chunks as [|c rest IH]; intros i j; cbn [unfiltered].
  - split; [intros [] | intros (m & _ & Hm & _); simpl in Hm; lia].
  - assert (Hrest : In j (unfiltered ft (S i) rest) <->
                    exists m, j = (i + S m)%nat /\ (m < List.length rest)%nat
                              /\ filtered_out ft (nth m rest dummy) = false).
    { rewrite IH. split; intros (m & -> & Hm & Hs); exists m;
        repeat split; auto; lia. }
    destruct (filtered_out ft c) eqn:Hc.
    + rewrite Hrest. split.
      * intros (m & -> & Hm & Hs). exists (S m).
        repeat split; [simpl; lia | exact Hs].
      * intros ([|m] & -> & Hm & Hs).
        -- simpl in Hs. congruence.
        -- exists m. repeat split; [simpl in Hm; lia | exact Hs].
    + cbn [In]. rewrite Hrest. split.
      * intros [<- | (m & -> & Hm & Hs)].
        -- exists 0%nat. repeat split; [lia | simpl; lia | exact Hc].
        -- exists (S m). repeat split; [simpl; lia | exact Hs].
      * intros ([|m] & -> & Hm & Hs).
        -- left. lia.
        -- right. exists m. repeat split; [simpl in Hm; lia | exact Hs].
Qed.

(** The loop, when it ends without an exception: the candidates are the
    chunks that have an embedding and pass the filter, each paired with
    the similarity of its embedding, which is also the score written on
    it. *)
Lemma scan_ok q ft embs : forall i chunks scores,
  snd (scan prec emax q ft i embs chunks) = Ok scores ->
  (List.length embs <= List.length chunks)%nat
  /\ map snd scores = unfiltered ft i (firstn (List.length embs) chunks)
  /\ forall s j, In (s, j) scores ->
       (i <= j)%nat
       /\ similarity prec emax q (nth (j - i) embs []) = Ok s
       /\ score (nth (j - i) (fst (scan prec emax q ft i embs chunks)) dummy)
          = s.
Proof.
  induction embs as [|e embs IH]; intros i chunks scores H.
  - cbn [scan snd] in H. injection H as <-. cbn. split; [lia|].
    split; [reflexivity | intros s j []].
  - cbn [scan] in *.
    destruct (similarity prec emax q e) as [sim|err] eqn:Es;
      [|discriminate H].
    destruct chunks as [|c rest]; [discriminate H|].
    specialize (IH (S i) rest).
    destruct (scan prec emax q ft (S i) embs rest) as [rest' r].
    cbn [fst snd] in IH.
    assert (Hshift : forall s j, (S i <= j)%nat ->
              similarity prec emax q (nth (j - S i) embs []) = Ok s
              /\ score (nth (j - S i) rest' dummy) = s ->
              forall c', (i <= j)%nat
              /\ similarity prec emax q (nth (j - i) (e :: embs) []) = Ok s
              /\ score (nth (j - i) (c' :: rest') dummy) = s).
    { intros s j Hj [H1 H2] c'.
      replace (j - i)%nat with (S (j - S i)) by lia. cbn [nth].
      repeat split; [lia | exact H1 | exact H2]. }
    destruct (filtered_out ft c) eqn:Hf; cbn [fst snd] in *.
    + destruct (IH scores H) as (Hl & Hm & Hs).
      split; [simpl; lia|]. split.
      * cbn [List.length firstn unfiltered]. rewrite Hf. exact Hm.
      * intros s j Hin. destruct (Hs s j Hin) as (Hj & H1 & H2).
        apply Hshift; auto.
    + destruct r as [scores'|err]; cbn [bind] in H; [|discriminate H].
      injection H as <-.
      destruct (IH scores' eq_refl) as (Hl & Hm & Hs).
      split; [simpl; lia|]. split.
      * cbn [List.length firstn unfiltered map snd]. rewrite Hf, Hm.
        reflexivity.
      * intros s j [Hin | Hin].
        -- injection Hin as <- <-. rewrite Nat.sub_diag. cbn [nth].
           repeat split; [lia | exact Es].
        -- destruct (Hs s j Hin) as (Hj & H1 & H2). apply Hshift; auto.
Qed.

(** More embeddings than chunks: the loop runs off the store. *)
Lemma scan_index_error q ft embs : forall i chunks,
  (List.length chunks < List.length embs)%nat ->
  Forall (fun e => List.length e = List.length q) embs ->
  snd (scan prec emax q ft i embs chunks) = Raise IndexError.
Proof.
  induction embs as [|e embs IH]; intros i chunks Hlen Hall;
    [simpl in Hlen; lia|].
  inversion Hall as [|? ? He Hrest]; subst.
  cbn [scan].
  destruct (@similarity_total prec emax q e (eq_sym He)) as [sim ->].
  destruct chunks as [|c rest]; [reflexivity|].
  specialize (IH (S i) rest).
  destruct (scan prec emax q ft (S i) embs rest) as [rest' r].
  cbn [snd] in IH. rewrite IH by (simpl in Hlen; lia || exact Hrest).
  destruct (filtered_out ft c); reflexivity.
Qed.

Variable encode : str -> list spec_float.

(** What a search that returns has done. *)
Lemma search_ok store embeddings query top_k ft ids :
  snd (search prec emax encode store embeddings query top_k ft) = Ok ids ->
  store = [] /\ ids = []
  \/ exists scores sorted,
       snd (scan prec emax (encode query) ft 0 embeddings store) = Ok scores
       /\ Permutation sorted scores
       /\ ids = map snd (take_py top_k sorted)
       /\ fst (search prec emax encode store embeddings query top_k ft)
          = fst (scan prec emax (encode query) ft 0 embeddings store).
Proof.
  unfold search. destruct store as [|c rest].
  - cbn [snd]. intro H. injection H as <-. left. auto.
  - set (store := c :: rest).
    destruct (scan prec emax (encode query) ft 0 embeddings store)
      as [store' r] eqn:E.
    cbn [snd fst]. intro H.
    destruct r as [scores|e]; cbn [bind] in H; [|discriminate].
    destruct (sort_reverse (tuple_lt store') scores) as [sorted|e] eqn:Es;
      cbn [bind] in H; [|discriminate].
    injection H as <-. right. exists scores, sorted.
    split; [reflexivity|]. split; [eapply sort_reverse_perm, Es|].
    split; reflexivity.
Qed.

(** A search that returns, returns the chunks that have an embedding and
    pass the filter, each once, in some order, cut by [top_k]. *)
Theorem embedding_search_candidates (store : list TPPCodeResult)
        (embeddings : list (list spec_float)) (query : str) (top_k : Z)
        (ft : option str) (ids : list nat) :
  snd (search prec emax encode store embeddings query top_k ft) = Ok ids ->
  exists ranked,
    Permutation ranked
                (unfiltered ft 0 (firstn (List.length embeddings) store))
    /\ ids = take_py top_k ranked.
Proof.
  intro H. apply search_ok in H.
  destruct H as [[-> ->] | (scores & sorted & Hs & Hp & -> & _)].
  - exists []. rewrite firstn_nil. split; [reflexivity|].
    symmetry. apply take_py_nil.
  - exists (map snd sorted). split.
    + rewrite Hp. apply scan_ok in Hs. destruct Hs as (_ & -> & _).
      reflexivity.
    + unfold take_py. rewrite length_map.
      destruct (0 <=? top_k)%Z; symmetry; apply firstn_map.
Qed.

(** Every chunk a search returns has an embedding, passes the filter,
    and carries as its score the similarity of its embedding to the
    query. *)
Theorem embedding_result_scores (store : list TPPCodeResult)
        (embeddings : list (list spec_float)) (query : str) (top_k : Z)
        (ft : option str) (ids : list nat) :
  snd (search prec emax encode store embeddings query top_k ft) = Ok ids ->
  forall i, In i ids ->
    (i < List.length embeddings)%nat
    /\ (i < List.length store)%nat
    /\ filtered_out ft (deref store i) = false
    /\ similarity prec emax (encode query) (nth i embeddings [])
       = Ok (score (deref (fst (search prec emax encode store embeddings
                                       query top_k ft)) i)).
Proof.
  intros H i Hi. apply search_ok in H.
  destruct H as [[-> ->] | (scores & sorted & Hs & Hp & -> & Hfst)];
    [contradiction|].
  rewrite Hfst. apply in_map_iff in Hi. destruct Hi as ([s j] & Hj & Hin).
  cbn [snd] in Hj. subst j. apply take_py_incl in Hin.
  apply (Permutation_in _ Hp) in Hin.
  pose proof (scan_ok _ _ _ _ _ Hs) as (Hlen & Hm & Hsc).
  destruct (Hsc s i Hin) as (_ & H1 & H2). rewrite Nat.sub_0_r in H1, H2.
  assert (Hu : In i (unfiltered ft 0 (firstn (List.length embeddings) store))).
  { rewrite <- Hm. apply in_map_iff. exists (s, i). auto. }
  apply unfiltered_In in Hu. destruct Hu as (m & -> & Hm1 & Hm2).
  cbn [plus] in *. rewrite length_firstn in Hm1.
  split; [lia|]. split; [lia|]. split.
  - unfold deref. rewrite nth_firstn in Hm2.
    destruct (m <? List.length embeddings) eqn:E; [exact Hm2|].
    apply Nat.ltb_ge in E. lia.
  - unfold deref. rewrite H2. exact H1.
Qed.

(** With more embeddings than chunks the loop runs off the store: the
    search raises [IndexError]. *)
Theorem embedding_search_index_error (store : list TPPCodeResult)
        (embeddings : list (list spec_float)) (query : str) (top_k : Z)
        (ft : option str) :
  store <> [] ->
  (List.length store < List.length embeddings)%nat ->
  Forall (fun e => List.length e = List.length (encode query)) embeddings ->
  snd (search prec emax encode store embeddings query top_k ft)
  = Raise IndexError.
Proof.
  intros Hne Hlen Hall. unfold search.
  destruct store as [|c rest]; [congruence|].
  pose proof (@scan_index_error (encode query) ft embeddings 0 (c :: rest)
                Hlen Hall) as H.
  destruct (scan prec emax (encode query) ft 0 embeddings (c :: rest))
    as [store' r].
  cbn [snd] in *. rewrite H. reflexivity.
Qed.

End EmbeddingMore.

Lemma embedding_search_candidates_witness :
  snd (TPP.search 24 128 Examples.encode_10 Examples.two_pages
                  Examples.distinct_vectors (s2l "menu") 10 None)
  = Ok [0%nat; 1%nat]
  /\ exists ranked,
       Permutation ranked
         (TPPSpec.unfiltered None 0
            (firstn (List.length Examples.distinct_vectors)
                    Examples.two_pages))
       /\ [0%nat; 1%nat] = take_py 10 ranked.
Proof.
  assert (H : snd (TPP.search 24 128 Examples.encode_10 Examples.two_pages
                              Examples.distinct_vectors (s2l "menu") 10 None)
              = Ok [0%nat; 1%nat]) by (vm_compute; reflexivity).
  split; [exact H|].
  exact (embedding_search_candidates _ _ _ _ _ _ _ _ H).
Defined.

Lemma embedding_result_scores_witness :
  snd (TPP.search 24 128 Examples.encode_10 Examples.two_pages
                  Examples.distinct_vectors (s2l "menu") 10 None)
  = Ok [0%nat; 1%nat]
  /\ TPP.similarity 24 128 (Examples.encode_10 (s2l "menu"))
                    (nth 1 Examples.distinct_vectors [])
     = Ok (TPP.score
             (TPP.deref
                (fst (TPP.search 24 128 Examples.encode_10 Examples.two_pages
                                 Examples.distinct_vectors (s2l "menu") 10
                                 None)) 1)).
Proof.
  assert (H : snd (TPP.search 24 128 Examples.encode_10 Examples.two_pages
                              Examples.distinct_vectors (s2l "menu") 10 None)
              = Ok [0%nat; 1%nat]) by (vm_compute; reflexivity).
  split; [exact H|].
  exact (proj2 (proj2 (proj2
           (embedding_result_scores _ _ _ _ _ _ _ _ H 1%nat
              (or_intror (or_introl eq_refl)))))).
Defined.

Lemma embedding_search_index_error_witness :
  Examples.two_pages <> []
  /\ (List.length Examples.two_pages
      < List.length Examples.three_vectors)%nat
  /\ snd (TPP.search 24 128 Examples.encode_10 Examples.two_pages
                     Examples.three_vectors (s2l "menu") 10 None)
     = Raise IndexError.
Proof.
  assert (H1 : Examples.two_pages <> []) by discriminate.
  assert (H2 : (List.length Examples.two_pages
                < List.length Examples.three_vectors)%nat) by (cbn; lia).
  split; [exact H1|]. split; [exact H2|].
  apply (@embedding_search_index_error 24 128 Examples.encode_10
           Examples.two_pages Examples.three_vectors (s2l "menu") 10 None
           H1 H2).
  repeat constructor.
Defined.

(** ** The extractors: lines and order *)

Section LineFacts.
Import Regex ExtractSpec.

Lemma split_lines_length (s : str) :
  List.length (split_lines s) = (count_nl s + 1)%nat.
Proof.
  unfold count_nl. induction s as [|c s IH]; [reflexivity|].
  cbn [split_lines filter].
  destruct (ascii_eqb NL c).
  - cbn [List.length]. rewrite IH. lia.
  - destruct (split_lines_cons s) as (l & ls & Hs). rewrite Hs in *.
    cbn [List.length] in *. exact IH.
Qed.

Lemma count_nl_app (a b : str) : count_nl (a ++ b) = (count_nl a + count_nl b)%nat.
Proof. unfold count_nl. rewrite filter_app, length_app. reflexivity. Qed.

Lemma count_nl_firstn_mono (s : str) (a b : nat) :
  (a <= b)%nat -> (count_nl (firstn a s) <= count_nl (firstn b s))%nat.
Proof.
  intro H. rewrite <- (Nat.min_l a b H) at 1. rewrite <- firstn_firstn.
  rewrite <- (firstn_skipn a (firstn b s)) at 2. rewrite count_nl_app. lia.
Qed.

Lemma count_nl_firstn_le (s : str) (a : nat) :
  (count_nl (firstn a s) <= count_nl s)%nat.
Proof.
  rewrite <- (firstn_skipn a s) at 2. rewrite count_nl_app. lia.
Qed.

(** The line computed for a position is a line of the file. *)
Lemma line_in_file (content : str) (pos : nat) :
  (1 <= count_nl (firstn pos content) + 1
   <= List.length (split_lines content))%nat.
Proof.
  rewrite split_lines_length. pose proof (count_nl_firstn_le content pos). lia.
Qed.

Lemma md_go_line path category lines : forall i c,
  In c (TPP.md_go path category i lines) ->
  (i + 1 <= TPP.line_number c <= i + List.length lines)%nat.
Proof.
  induction lines as [|line rest IH]; intros i c H; cbn [TPP.md_go] in H;
    [contradiction|].
  assert (Hrest : In c (TPP.md_go path category (S i) rest) ->
                  (i + 1 <= TPP.line_number c
                   <= i + List.length (line :: rest))%nat).
  { intro H'. apply IH in H'. cbn [List.length]. lia. }
  destruct (match_ TPP.header_pattern line); [|exact (Hrest H)].
  destruct H as [<- | H]; [|exact (Hrest H)].
  cbn [TPP.line_number List.length]. lia.
Qed.

End LineFacts.

(** Every chunk of the markup, script and documentation extractors
    reports a line of the file: a number from 1 to the number of lines
    of the text. *)
Theorem line_numbers_in_file (content path category : str) :
  let n := List.length (split_lines content) in
  (forall c, In c (Simple._extract_html_sections content path) ->
     (1 <= Simple.line_number c <= n)%nat)
  /\ (forall c, In c (Simple._extract_js_functions content path) ->
     (1 <= Simple.line_number c <= n)%nat)
  /\ (forall c, In c (TPP._extract_html_components content path category) ->
     (1 <= TPP.line_number c <= n)%nat)
  /\ (forall c, In c (TPP._extract_js_functions content path category) ->
     (1 <= TPP.line_number c <= n)%nat)
  /\ (forall c, In c (TPP._extract_md_sections content path category) ->
     (1 <= TPP.line_number c <= n)%nat).
Proof.
  intro n. subst n. repeat split.
  1,2: unfold Simple._extract_html_sections in H;
       apply in_app_or in H; destruct H as [H | H];
       apply in_map_iff in H; destruct H as (m & <- & _);
       apply line_in_file.
  1,2: unfold Simple._extract_js_functions in H;
       apply in_flat_map in H; destruct H as (p & _ & H);
       apply in_map_iff in H; destruct H as (m & <- & _);
       apply line_in_file.
  1,2: unfold TPP._extract_html_components in H;
       apply in_app_or in H; destruct H as [H | H];
       apply in_flat_map in H; destruct H as (m & _ & H);
       [unfold TPP.section_chunk in H;
        destruct (TPP.section_text content (split_lines content) m)
       |unfold TPP.form_chunk in H;
        destruct (TPP.form_text content (split_lines content) m)];
       try contradiction; destruct H as [<- | []]; apply line_in_file.
  1,2: unfold TPP._extract_js_functions in H;
       apply in_flat_map in H; destruct H as (p & _ & H);
       apply in_map_iff in H; destruct H as (m & <- & _);
       apply line_in_file.
  1,2: apply md_go_line in H; lia.
Qed.

Lemma line_numbers_in_file_witness :
  In (hd TPP.dummy (TPP._extract_md_sections Examples.long_doc [] []))
     (TPP._extract_md_sections Examples.long_doc [] [])
  /\ (1 <= TPP.line_number
             (hd TPP.dummy (TPP._extract_md_sections Examples.long_doc [] []))
      <= List.length (split_lines Examples.long_doc))%nat.
Proof.
  assert (H : In (hd TPP.dummy
                    (TPP._extract_md_sections Examples.long_doc [] []))
                 (TPP._extract_md_sections Examples.long_doc [] []))
    by (vm_compute; left; reflexivity).
  split; [exact H|].
  exact (proj2 (proj2 (proj2 (proj2
           (line_numbers_in_file Examples.long_doc [] [])))) _ H).
Defined.

Section OrderFacts.
Import Regex ExtractSpec.

Lemma finditer_go_lower r s : forall pos resume m,
  In m (finditer_go r s pos resume) ->
  (pos <= m_start m)%nat /\ (resume <= m_start m)%nat.
Proof.
  induction s as [|c s IH]; intros pos resume m H; cbn [finditer_go] in H;
    [contradiction|].
  destruct (pos <? resume) eqn:E.
  - apply IH in H. lia.
  - apply Nat.ltb_ge in E.
    destruct (exec r (c :: s) pos) as [m0|] eqn:Ex.
    + destruct H as [<- | H].
      * apply exec_start in Ex. lia.
      * apply IH in H. lia.
    + apply IH in H. lia.
Qed.

(** The matches of a pattern follow one another in the text and do not
    overlap. *)
Lemma finditer_go_sorted r s : forall pos resume,
  StronglySorted before (finditer_go r s pos resume).
Proof.
  induction s as [|c s IH]; intros pos resume; cbn [finditer_go];
    [constructor|].
  destruct (pos <? resume); [apply IH|].
  destruct (exec r (c :: s) pos) as [m0|]; [|apply IH].
  constructor; [apply IH|].
  apply Forall_forall. intros m Hm. apply finditer_go_lower in Hm.
  unfold before. lia.
Qed.

Lemma finditer_ends r s :
  Forall (fun m => (m_start m <= m_end m)%nat) (finditer r s).
Proof.
  apply Forall_forall. intros m Hm. apply finditer_exec in Hm.
  destruct Hm as [_ Hm]. apply exec_start in Hm. lia.
Qed.

Lemma sorted_lines content ms :
  StronglySorted before ms ->
  Forall (fun m => (m_start m <= m_end m)%nat) ms ->
  StronglySorted le
    (map (fun m => (count_nl (firstn (m_start m) content) + 1)%nat) ms).
Proof.
  induction 1 as [|m ms Hs IH Hall]; intro He; cbn [map]; constructor.
  - apply IH. inversion He; assumption.
  - apply Forall_forall. intros n Hn. apply in_map_iff in Hn.
    destruct Hn as (m' & <- & Hm').
    rewrite Forall_forall in Hall. specialize (Hall m' Hm').
    inversion He as [|? ? Hm _]; subst. unfold before in Hall.
    pose proof (@count_nl_firstn_mono content (m_start m) (m_start m')).
    lia.
Qed.

Lemma finditer_lines r content :
  StronglySorted le
    (map (fun m => (count_nl (firstn (m_start m) content) + 1)%nat)
         (finditer r content)).
Proof.
  apply sorted_lines; [apply finditer_go_sorted | apply finditer_ends].
Qed.

Lemma md_go_increasing path category lines : forall i,
  StronglySorted lt (map TPP.line_number (TPP.md_go path category i lines)).
Proof.
  induction lines as [|line rest IH]; intro i; cbn [TPP.md_go];
    [constructor|].
  destruct (match_ TPP.header_pattern line); [|apply IH].
  cbn [map TPP.line_number]. constructor; [apply IH|].
  apply Forall_forall. intros n Hn. apply in_map_iff in Hn.
  destruct Hn as (c & <- & Hc). apply md_go_line in Hc. lia.
Qed.

End OrderFacts.

(** The chunks of a file come in the order of the text.  The markup
    extractor of the simple program emits one chunk per tag match, by
    rising line, and behind them the form chunks, by rising line; its
    script extractor emits one run of chunks per pattern, each by rising
    line; the documentation extractor emits its chunks by strictly rising
    line, so no two of them share a line. *)
Theorem chunks_in_document_order (content path category : str) :
  (exists sections forms,
      Simple._extract_html_sections content path = sections ++ forms
      /\ List.length sections
         = List.length (Regex.finditer Simple.section_pattern content)
      /\ StronglySorted le (map Simple.line_number sections)
      /\ StronglySorted le (map Simple.line_number forms))
  /\ (exists runs,
      Simple._extract_js_functions content path = List.concat runs
      /\ List.length runs = List.length Simple.js_patterns
      /\ Forall (fun run => StronglySorted le (map Simple.line_number run))
                runs)
  /\ StronglySorted lt
       (map TPP.line_number (TPP._extract_md_sections content path category)).
Proof.
  split; [|split].
  - eexists; eexists. split; [reflexivity|].
    split; [apply length_map|].
    split; rewrite map_map; apply finditer_lines.
  - exists (map (fun pattern =>
                   map (Simple.js_chunk content path (split_lines content))
                       (Regex.finditer pattern content))
                Simple.js_patterns).
    split; [unfold Simple._extract_js_functions; apply flat_map_concat_map|].
    split; [apply length_map|].
    apply Forall_forall. intros run Hrun. apply in_map_iff in Hrun.
    destruct Hrun as (p & <- & _). rewrite map_map. apply finditer_lines.
  - apply md_go_increasing.
Qed.

(** ** The documentation extractor: headings and sections *)

Section MarkdownFacts.
Import Regex ExtractSpec.

(** A section goes on to the next heading of its level or of a higher
    rank, and not beyond it. *)
Lemma section_rest_extent level rest :
  exists k,
    TPP.section_rest level rest = firstn k rest
    /\ (k <= List.length rest)%nat
    /\ (forall l, In l (firstn k rest) -> ends_section level l = false)
    /\ ((k < List.length rest)%nat ->
        ends_section level (nth k rest []) = true).
Proof.
  induction rest as [|line rest (k & Hk & Hle & Hin & Hend)].
  - exists 0%nat. repeat split; [lia | intros l [] | simpl; lia].
  - cbn [TPP.section_rest].
    assert (Hgo : ends_section level line = false ->
              exists k',
                line :: TPP.section_rest level rest = firstn k' (line :: rest)
                /\ (k' <= List.length (line :: rest))%nat
                /\ (forall l, In l (firstn k' (line :: rest)) ->
                      ends_section level l = false)
                /\ ((k' < List.length (line :: rest))%nat ->
                    ends_section level (nth k' (line :: rest) []) = true)).
    { intro Hl. exists (S k). cbn [firstn List.length nth].
      split; [rewrite Hk; reflexivity|]. split; [lia|]. split.
      - intros l [<- | Hl']; [exact Hl | apply Hin, Hl'].
      - intro H. apply Hend. lia. }
    unfold ends_section in Hgo at 1.
    destruct (match_ TPP.header_pattern line) as [m|] eqn:Em;
      [|apply Hgo; reflexivity].
    destruct (List.length (group 1 line m) <=? level) eqn:El;
      [|apply Hgo; reflexivity].
    exists 0%nat. cbn [firstn List.length nth].
    split; [reflexivity|]. split; [lia|]. split; [intros l []|].
    intros _. unfold ends_section. rewrite Em. exact El.
Qed.

Lemma md_go_headings path category lines : forall i c,
  In c (TPP.md_go path category i lines) ->
  exists j line m,
    nth_error lines j = Some line
    /\ match_ TPP.header_pattern line = Some m
    /\ TPP.line_number c = (i + j + 1)%nat
    /\ TPP.name c = s2l "doc-" ++ group 2 line m
    /\ TPP.code c
       = join_lines
           (firstn 20
              (line :: TPP.section_rest (List.length (group 1 line m))
                                        (skipn (S j) lines))).
Proof.
  induction lines as [|line rest IH]; intros i c H; cbn [TPP.md_go] in H;
    [contradiction|].
  assert (Hrest : In c (TPP.md_go path category (S i) rest) ->
            exists j line0 m,
              nth_error (line :: rest) j = Some line0
              /\ match_ TPP.header_pattern line0 = Some m
              /\ TPP.line_number c = (i + j + 1)%nat
              /\ TPP.name c = s2l "doc-" ++ group 2 line0 m
              /\ TPP.code c
                 = join_lines
                     (firstn 20
                        (line0 :: TPP.section_rest
                                    (List.length (group 1 line0 m))
                                    (skipn (S j) (line :: rest))))).
  { intro H'. destruct (IH _ _ H') as (j & l0 & m & H1 & H2 & H3 & H4 & H5).
    exists (S j), l0, m. cbn [nth_error skipn].
    repeat split; try assumption. lia. }
  destruct (match_ TPP.header_pattern line) as [m|] eqn:Em;
    [|exact (Hrest H)].
  destruct H as [<- | H]; [|exact (Hrest H)].
  exists 0%nat, line, m. cbn [nth_error skipn TPP.line_number TPP.name TPP.code].
  repeat split; try assumption; try reflexivity. lia.
Qed.

Lemma md_go_count path category lines : forall i,
  List.length (TPP.md_go path category i lines)
  = List.length (filter is_heading lines).
Proof.
  induction lines as [|line rest IH]; intro i; cbn [TPP.md_go filter];
    [reflexivity|].
  unfold is_heading at 1.
  destruct (match_ TPP.header_pattern line); cbn [List.length];
    rewrite IH; reflexivity.
Qed.

End MarkdownFacts.

(** The documentation extractor emits one chunk per heading line.  The
    chunk reports the line of its heading, is named after the title, and
    its content is the heading line followed by the lines up to, and not
    including, the next heading of the same level or of a higher rank (or
    up to the end of the file), of which the first twenty lines are
    kept. *)
Theorem md_sections (content path category : str) :
  let lines := split_lines content in
  List.length (TPP._extract_md_sections content path category)
  = List.length (filter ExtractSpec.is_heading lines)
  /\ forall c, In c (TPP._extract_md_sections content path category) ->
       exists j line m k,
         nth_error lines j = Some line
         /\ Regex.match_ TPP.header_pattern line = Some m
         /\ TPP.line_number c = (j + 1)%nat
         /\ TPP.name c = s2l "doc-" ++ Regex.group 2 line m
         /\ TPP.code c
            = join_lines (firstn 20 (line :: firstn k (skipn (S j) lines)))
         /\ (forall l, In l (firstn k (skipn (S j) lines)) ->
               ExtractSpec.ends_section
                 (List.length (Regex.group 1 line m)) l = false)
         /\ ((k < List.length (skipn (S j) lines))%nat ->
             ExtractSpec.ends_section
               (List.length (Regex.group 1 line m))
               (nth k (skipn (S j) lines) []) = true).
Proof.
  intro lines. subst lines. split; [apply md_go_count|].
  intros c Hc. apply md_go_headings in Hc. cbn [plus] in Hc.
  destruct Hc as (j & line & m & H1 & H2 & H3 & H4 & H5).
  destruct (section_rest_extent (List.length (Regex.group 1 line m))
                                (skipn (S j) (split_lines content)))
    as (k & Hk & _ & Hin & Hend).
  set (lines := split_lines content) in *.
  exists j, line, m, k. rewrite Hk in H5.
  repeat split; assumption.
Qed.

Lemma md_sections_witness :
  In (hd TPP.dummy (TPP._extract_md_sections Examples.long_doc [] []))
     (TPP._extract_md_sections Examples.long_doc [] [])
  /\ exists j line m,
       nth_error (split_lines Examples.long_doc) j = Some line
       /\ Regex.match_ TPP.header_pattern line = Some m
       /\ TPP.line_number
            (hd TPP.dummy (TPP._extract_md_sections Examples.long_doc [] []))
          = (j + 1)%nat.
Proof.
  assert (H : In (hd TPP.dummy
                    (TPP._extract_md_sections Examples.long_doc [] []))
                 (TPP._extract_md_sections Examples.long_doc [] []))
    by (vm_compute; left; reflexivity).
  split; [exact H|].
  destruct (proj2 (md_sections Examples.long_doc [] []) _ H)
    as (j & line & m & k & H1 & H2 & H3 & _).
  exists j, line, m. auto.
Defined.

(** ** The rich extractors: where the content begins *)

Section ContentFacts.
Import Regex ExtractSpec.

Lemma star_within p s : forall pos caps k m,
  star p s pos caps k = Some m ->
  exists s' e caps',
    k s' e caps' = Some m /\ (e + List.length s' = pos + List.length s)%nat.
Proof.
  induction s as [|c s IH]; intros pos caps k m H; cbn [star] in H.
  - exists [], pos, caps. auto.
  - destruct (p c).
    + unfold or_else in H.
      destruct (star p s (S pos) caps k) eqn:E.
      * injection H as ->. destruct (IH _ _ _ _ E) as (s' & e & c' & Hk & He).
        exists s', e, c'. split; [exact Hk | cbn [List.length]; lia].
      * exists (c :: s), pos, caps. auto.
    + exists (c :: s), pos, caps. auto.
Qed.

Lemma upto_within p n : forall s pos caps k m,
  upto n p s pos caps k = Some m ->
  exists s' e caps',
    k s' e caps' = Some m /\ (e + List.length s' = pos + List.length s)%nat.
Proof.
  induction n as [|n IH]; intros s pos caps k m H.
  - destruct s; cbn [upto] in H; eexists; eexists; eexists; split;
      (exact H || reflexivity).
  - destruct s as [|c s]; cbn [upto] in H.
    + eexists; eexists; eexists; split; (exact H || reflexivity).
    + destruct (p c).
      * unfold or_else in H.
        destruct (upto n p s (S pos) caps k) eqn:E.
        -- injection H as ->.
           destruct (IH _ _ _ _ _ E) as (s' & e & c' & Hk & He).
           exists s', e, c'. split; [exact Hk | cbn [List.length]; lia].
        -- eexists; eexists; eexists; split; (exact H || reflexivity).
      * eexists; eexists; eexists; split; (exact H || reflexivity).
Qed.

(** The matcher hands to its continuation a rest of the text it was
    given: a match never ends behind the text. *)
Lemma run_within r : forall s pos caps k m,
  run r s pos caps k = Some m ->
  exists s' e caps',
    k s' e caps' = Some m /\ (e + List.length s' = pos + List.length s)%nat.
Proof.
  induction r as [ | p | a IHa b IHb | a IHa b IHb | p | n p | n r IH | ];
    intros s pos caps k m H; cbn [run] in H.
  - exists s, pos, caps. auto.
  - destruct s as [|c s]; [discriminate|].
    destruct (p c); [|discriminate].
    exists s, (S pos), caps. split; [exact H | cbn [List.length]; lia].
  - apply IHa in H. destruct H as (s1 & p1 & c1 & H & He).
    apply IHb in H. destruct H as (s2 & p2 & c2 & H & He2).
    exists s2, p2, c2. split; [exact H | lia].
  - unfold or_else in H. destruct (run a s pos caps k) eqn:E.
    + injection H as ->. eapply IHa, E.
    + eapply IHb, H.
  - eapply star_within, H.
  - eapply upto_within, H.
  - apply IH in H. destruct H as (s1 & p1 & c1 & H & He).
    eexists; eexists; eexists; split; [exact H | exact He].
  - destruct s as [|c [|c' s]]; try discriminate.
    + exists [], pos, caps. auto.
    + destruct (ascii_eqb c NL); [|discriminate].
      exists [c], pos, caps. auto.
Qed.

Lemma finditer_end r content m :
  In m (finditer r content) -> (m_end m <= List.length content)%nat.
Proof.
  intro H. apply finditer_exec in H. destruct H as [Hlt He].
  unfold exec in He. apply run_within in He.
  destruct He as (s' & e & caps' & Hk & Hlen). injection Hk as <-.
  cbn [m_end]. rewrite length_skipn in Hlen. cbn [m_start] in *. lia.
Qed.

Lemma slice_cons {A} (a b : nat) (l : list A) (d : A) :
  (a < b)%nat -> (a < List.length l)%nat ->
  slice a b l = nth a l d :: slice (S a) b l.
Proof.
  unfold slice. revert a b. induction l as [|x l IH]; intros a b Hab Hl;
    [simpl in Hl; lia|].
  destruct a as [|a].
  - cbn [skipn nth]. destruct b as [|b]; [lia|].
    rewrite Nat.sub_0_r. cbn [firstn]. f_equal.
    replace (S b - 1)%nat with b by lia. destruct l; reflexivity.
  - cbn [skipn nth]. destruct b as [|b]; [lia|].
    replace (S b - S a)%nat with (b - a)%nat by lia.
    rewrite (IH a b) by (simpl in Hl; lia).
    replace (S b - S (S a))%nat with (b - S a)%nat by lia. reflexivity.
Qed.

(** A span of lines that begins at a line of the file and ends no
    earlier begins with that line. *)
Lemma span_begins lines start_line end_line :
  (1 <= start_line <= List.length lines)%nat ->
  (start_line <= end_line)%nat ->
  exists rest,
    TPP.span lines start_line end_line
    = join_lines (nth (start_line - 1) lines [] :: rest).
Proof.
  intros Hs He. unfold TPP.span.
  rewrite (@slice_cons _ (start_line - 1) _ lines []) by lia.
  eexists. reflexivity.
Qed.

Lemma find_from_lower p s start e :
  find_from p s start = Some e -> (start <= e)%nat.
Proof.
  unfold find_from. destruct (List.length s <? start); [discriminate|].
  intro H. apply find_go_some in H. destruct H as (j & -> & _). lia.
Qed.

End ContentFacts.

(** In the rich program the content of a markup, form or script chunk,
    before it is capped, begins with the whole line the chunk reports;
    and a script chunk comes from a match of one of the patterns, whose
    name and line it has, and the brace loop started behind that match
    stops behind the match and not behind the end of the text. *)
Theorem rich_content_begins_with_line (content path category : str) :
  let lines := split_lines content in
  (forall c, In c (TPP._extract_html_components content path category) ->
     exists text rest,
       (ExtractSpec.capped 1000 text (TPP.code c)
        \/ ExtractSpec.capped 500 text (TPP.code c))
       /\ text = join_lines (nth (TPP.line_number c - 1) lines [] :: rest))
  /\ (forall c, In c (TPP._extract_js_functions content path category) ->
     exists pattern m e text rest,
       In pattern TPP.js_patterns
       /\ In m (Regex.finditer pattern content)
       /\ TPP.name c = Regex.group 1 content m
       /\ TPP.line_number c
          = ExtractSpec.line_of_pos content (Regex.m_start m)
       /\ ExtractSpec.capped 800 text (TPP.code c)
       /\ text = join_lines (nth (TPP.line_number c - 1) lines [] :: rest)
       /\ ExtractSpec.braces_end content (Regex.m_end m) e
       /\ (Regex.m_end m <= e <= List.length content)%nat).
Proof.
  intro lines. split.
  - intros c Hc. unfold TPP._extract_html_components in Hc.
    apply in_app_or in Hc. destruct Hc as [Hc | Hc];
      apply in_flat_map in Hc; destruct Hc as (m & Hm & Hc).
    + unfold TPP.section_chunk, TPP.section_text in Hc. fold lines in Hc.
      destruct (find_from (TPP.closing (Regex.group 1 content m)) content
                          (Regex.m_end m)) as [end_pos|] eqn:E;
        [|contradiction].
      destruct Hc as [<- | []]. cbn [TPP.code TPP.line_number].
      apply find_from_lower in E.
      apply finditer_exec in Hm. destruct Hm as [_ Hm].
      apply exec_start in Hm.
      destruct (@span_begins lines (TPP.line_of content m)
                  (TPP.line_at content end_pos + 1)) as [rest Hrest].
      * apply line_in_file.
      * unfold TPP.line_of, TPP.line_at.
        pose proof (@count_nl_firstn_mono content (Regex.m_start m) end_pos).
        lia.
      * eexists; exists rest. split; [left; apply cap_capped | exact Hrest].
    + unfold TPP.form_chunk, TPP.form_text in Hc. fold lines in Hc.
      destruct (find_from (s2l "</form>") content (Regex.m_end m))
        as [end_pos|] eqn:E; [|contradiction].
      destruct Hc as [<- | []]. cbn [TPP.code TPP.line_number].
      apply find_from_lower in E.
      apply finditer_exec in Hm. destruct Hm as [_ Hm].
      apply exec_start in Hm.
      destruct (@span_begins lines (TPP.line_of content m)
                  (TPP.line_at content end_pos + 1)) as [rest Hrest].
      * apply line_in_file.
      * unfold TPP.line_of, TPP.line_at.
        pose proof (@count_nl_firstn_mono content (Regex.m_start m) end_pos).
        lia.
      * eexists; exists rest. split; [right; apply cap_capped | exact Hrest].
  - intros c Hc. unfold TPP._extract_js_functions in Hc.
    apply in_flat_map in Hc. destruct Hc as (pattern & Hp & Hc).
    apply in_map_iff in Hc. destruct Hc as (m & <- & Hm).
    cbn [TPP.js_chunk TPP.code TPP.line_number TPP.name].
    pose proof (finditer_end _ _ _ Hm) as Hend.
    pose proof Hm as Hex.
    apply finditer_exec in Hex. destruct Hex as [_ Hex].
    apply exec_start in Hex.
    pose proof (brace_scan_spec (skipn (Regex.m_end m) content)
                                (Regex.m_end m) 1) as Hb.
    fold (TPP.function_end content m) in Hb. cbn zeta in Hb.
    pose proof Hb as (H1 & H2 & _).
    rewrite length_skipn in H2.
    destruct (@span_begins lines (TPP.line_of content m)
                (TPP.line_at content (TPP.function_end content m)))
      as [rest Hrest].
    + apply line_in_file.
    + unfold TPP.line_of, TPP.line_at.
      apply Nat.add_le_mono_r, count_nl_firstn_mono. lia.
    + exists pattern, m, (TPP.function_end content m).
      eexists; exists rest.
      split; [exact Hp|]. split; [exact Hm|]. split; [reflexivity|].
      split; [reflexivity|].
      split; [apply cap_capped|]. split; [exact Hrest|].
      split; [exact Hb | lia].
Qed.

Lemma rich_content_begins_with_line_witness :
  In (hd TPP.dummy (TPP._extract_js_functions Examples.js_file [] []))
     (TPP._extract_js_functions Examples.js_file [] [])
  /\ exists text rest,
       ExtractSpec.capped 800 text
         (TPP.code (hd TPP.dummy
                       (TPP._extract_js_functions Examples.js_file [] [])))
       /\ text
          = join_lines
              (nth (TPP.line_number
                      (hd TPP.dummy
                          (TPP._extract_js_functions Examples.js_file [] []))
                    - 1)
                   (split_lines Examples.js_file) [] :: rest).
Proof.
  assert (H : In (hd TPP.dummy
                    (TPP._extract_js_functions Examples.js_file [] []))
                 (TPP._extract_js_functions Examples.js_file [] []))
    by (vm_compute; left; reflexivity).
  split; [exact H|].
  destruct (proj2 (rich_content_begins_with_line Examples.js_file [] []) _ H)
    as (pattern & m & e & text & rest & _ & _ & _ & _ & H1 & H2 & _).
  exists text, rest. auto.
Defined.

(** ** Whole lines of a file *)

Section WholeLines.
Import Regex ExtractSpec.

Lemma count_nl_cons (c : ascii) (s : str) :
  count_nl (c :: s) = ((if ascii_eqb NL c then 1 else 0) + count_nl s)%nat.
Proof. unfold count_nl. cbn [filter]. destruct (ascii_eqb NL c); reflexivity. Qed.

(** Splitting a text into lines and joining the lines gives the text
    back. *)
Lemma join_split (s : str) : join_lines (split_lines s) = s.
Proof.
  induction s as [|c s IH]; [reflexivity|].
  cbn [split_lines]. destruct (split_lines_cons s) as (l & ls & Hs).
  rewrite Hs in *. destruct (ascii_eqb NL c) eqn:E.
  - apply Ascii.eqb_eq in E. subst c.
    change (join_lines ([] :: l :: ls)) with (NL :: join_lines (l :: ls)).
    rewrite IH. reflexivity.
  - destruct ls as [|l' ls].
    + change (join_lines [l]) with l in IH. rewrite <- IH. reflexivity.
    + change (join_lines ((c :: l) :: l' :: ls))
        with (c :: join_lines (l :: l' :: ls)).
      rewrite IH. reflexivity.
Qed.

(** No line holds a newline. *)
Lemma split_lines_clean (s : str) :
  Forall (fun l => count_nl l = 0%nat) (split_lines s).
Proof.
  induction s as [|c s IH]; [repeat constructor|].
  cbn [split_lines]. destruct (split_lines_cons s) as (l & ls & Hs).
  rewrite Hs in *. destruct (ascii_eqb NL c) eqn:E.
  - constructor; [reflexivity | exact IH].
  - inversion IH as [|? ? Hl Hls]; subst. constructor; [|exact Hls].
    rewrite count_nl_cons, E. exact Hl.
Qed.

Lemma count_nl_join (ls : list str) :
  Forall (fun l => count_nl l = 0%nat) ls ->
  count_nl (join_lines ls) = (List.length ls - 1)%nat.
Proof.
  induction 1 as [|l ls Hl Hls IH]; [reflexivity|].
  destruct ls as [|l' ls].
  - change (join_lines [l]) with l. cbn [List.length]. lia.
  - change (join_lines (l :: l' :: ls))
      with (l ++ NL :: join_lines (l' :: ls)).
    rewrite count_nl_app, count_nl_cons, IH, Hl.
    change (ascii_eqb NL NL) with true. cbn [List.length]. lia.
Qed.

Lemma join_lines_app (l1 l2 : list str) :
  l1 <> [] -> l2 <> [] ->
  join_lines (l1 ++ l2) = join_lines l1 ++ NL :: join_lines l2.
Proof.
  intros H1 H2. induction l1 as [|x l1 IH]; [congruence|].
  destruct l1 as [|y l1].
  - cbn [app join_lines]. destruct l2; [congruence | reflexivity].
  - change ((x :: y :: l1) ++ l2) with (x :: (y :: l1) ++ l2).
    change (join_lines (x :: y :: l1)) with (x ++ NL :: join_lines (y :: l1)).
    change (join_lines (x :: (y :: l1) ++ l2))
      with (x ++ NL :: join_lines ((y :: l1) ++ l2)).
    rewrite IH by discriminate. rewrite <- app_assoc. reflexivity.
Qed.

(** Lines in the middle of a list of lines: what stands in front of them
    in the joined text ends with a newline, and what stands behind them
    begins with one. *)
Lemma join_three (l1 l2 l3 : list str) :
  l2 <> [] -> Forall (fun l => count_nl l = 0%nat) l1 ->
  exists pre post,
    join_lines (l1 ++ l2 ++ l3) = pre ++ join_lines l2 ++ post
    /\ (pre = [] \/ exists p, pre = p ++ [NL])
    /\ (post = [] \/ exists p, post = NL :: p)
    /\ count_nl pre = List.length l1.
Proof.
  intros H2 Hc.
  assert (Hrest : exists post,
            join_lines (l2 ++ l3) = join_lines l2 ++ post
            /\ (post = [] \/ exists p, post = NL :: p)).
  { destruct l3 as [|y l3].
    - exists []. rewrite !app_nil_r. auto.
    - exists (NL :: join_lines (y :: l3)).
      split; [apply join_lines_app; [exact H2 | discriminate]|].
      right. eexists. reflexivity. }
  destruct Hrest as (post & Hj & Hpost).
  destruct l1 as [|x l1].
  - exists [], post. cbn [app List.length]. auto.
  - exists (join_lines (x :: l1) ++ [NL]), post.
    rewrite join_lines_app; [|discriminate|destruct l2; [congruence|discriminate]].
    rewrite Hj, <- !app_assoc. cbn [app].
    split; [reflexivity|]. split; [right; eexists; reflexivity|].
    split; [exact Hpost|].
    rewrite count_nl_app, (count_nl_join Hc).
    change (count_nl [NL]) with 1%nat. cbn [List.length]. lia.
Qed.

(** The lines [i + 1] to [j] of a text, joined, are whole lines of
    it. *)
Lemma lines_slice (content : str) (i j : nat) :
  (i < j)%nat -> (j <= List.length (split_lines content))%nat ->
  exists pre,
    whole_lines content pre
                (join_lines (slice i j (split_lines content))) (i + 1) j.
Proof.
  intros Hij Hj. set (lines := split_lines content) in *.
  pose proof (split_lines_clean content) as Hc. fold lines in Hc.
  assert (Hl : lines = firstn i lines ++ slice i j lines
                       ++ skipn (j - i) (skipn i lines)).
  { unfold slice. rewrite (firstn_skipn (j - i)), (firstn_skipn i).
    reflexivity. }
  assert (Hlen : List.length (slice i j lines) = (j - i)%nat).
  { unfold slice. rewrite length_firstn, length_skipn. lia. }
  assert (Hc1 : Forall (fun l => count_nl l = 0%nat) (firstn i lines)).
  { rewrite <- (firstn_skipn i lines) in Hc. apply Forall_app in Hc.
    apply Hc. }
  assert (Hc2 : Forall (fun l => count_nl l = 0%nat) (slice i j lines)).
  { rewrite Hl in Hc. apply Forall_app in Hc. destruct Hc as [_ Hc].
    apply Forall_app in Hc. apply Hc. }
  destruct (@join_three (firstn i lines) (slice i j lines)
              (skipn (j - i) (skipn i lines)))
    as (pre & post & Hjoin & Hpre & Hpost & Hcount).
  { intro E. rewrite E in Hlen. cbn in Hlen. lia. }
  { exact Hc1. }
  rewrite <- Hl in Hjoin. unfold lines in Hjoin at 1.
  rewrite join_split in Hjoin.
  exists pre. unfold whole_lines.
  split; [lia|]. split; [exact Hpre|].
  split; [exists post; split; [exact Hjoin | exact Hpost]|].
  split.
  - rewrite Hcount, length_firstn. lia.
  - rewrite (count_nl_join Hc2), Hlen. lia.
Qed.

(** A part of a text that ends with a newline and holds no more
    newlines than stand in front of a position ends at or in front of
    that position. *)
Lemma prefix_le_pos (content pre rest : str) (pos : nat) :
  content = pre ++ rest ->
  (pre = [] \/ exists p, pre = p ++ [NL]) ->
  (count_nl pre <= count_nl (firstn pos content))%nat ->
  (List.length pre <= pos)%nat.
Proof.
  intros Hc Hpre Hn. destruct Hpre as [-> | (p & Hp)]; [cbn; lia|].
  destruct (Nat.le_gt_cases (List.length pre) pos) as [|Hlt]; [assumption|].
  exfalso. subst content pre.
  rewrite length_app in Hlt. cbn in Hlt.
  rewrite <- app_assoc in Hn.
  rewrite firstn_app in Hn.
  replace (pos - List.length p)%nat with 0%nat in Hn by lia.
  cbn [firstn] in Hn. rewrite app_nil_r in Hn.
  rewrite count_nl_app in Hn.
  pose proof (count_nl_firstn_le p pos).
  change (count_nl [NL]) with 1%nat in Hn. lia.
Qed.

(** A position within a text with no more newlines in front of it than
    a part of the text holds, where a newline or nothing stands behind
    that part, lies within the part or at its end. *)
Lemma pos_le_end (content part post : str) (pos : nat) :
  content = part ++ post ->
  (post = [] \/ exists p, post = NL :: p) ->
  (count_nl (firstn pos content) <= count_nl part)%nat ->
  (pos <= List.length content)%nat ->
  (pos <= List.length part)%nat.
Proof.
  intros Hc Hpost Hn Hpos. subst content.
  destruct Hpost as [-> | (p & ->)].
  - rewrite app_nil_r in Hpos. exact Hpos.
  - destruct (Nat.le_gt_cases pos (List.length part)) as [|Hlt]; [assumption|].
    exfalso. rewrite firstn_app in Hn.
    rewrite firstn_all2 in Hn by lia.
    destruct (pos - List.length part)%nat as [|k] eqn:E; [lia|].
    cbn [firstn] in Hn. rewrite count_nl_app, count_nl_cons in Hn.
    change (ascii_eqb NL NL) with true in Hn. cbv iota in Hn. lia.
Qed.

(** Whole lines from line [a] on begin at or in front of every position
    of line [a] or a later line, and whole lines up to line [b] end at or
    behind every position of line [b] or an earlier line. *)
Lemma whole_lines_begin content pre text a b pos :
  whole_lines content pre text a b ->
  (a <= line_of_pos content pos)%nat ->
  (List.length pre <= pos)%nat.
Proof.
  intros (Hab & Hpre & (post & Hc & _) & Hn & _) Ha.
  unfold line_of_pos in Ha.
  apply (@prefix_le_pos content pre (text ++ post) pos Hc Hpre). lia.
Qed.

Lemma whole_lines_end content pre text a b pos :
  whole_lines content pre text a b ->
  (line_of_pos content pos <= b)%nat ->
  (pos <= List.length content)%nat ->
  (pos <= List.length pre + List.length text)%nat.
Proof.
  intros (Hab & Hpre & (post & Hc & Hpost) & Hn & Ht) Hb Hpos.
  unfold line_of_pos in Hb. rewrite <- length_app.
  apply (@pos_le_end content (pre ++ text) post pos);
    [rewrite <- app_assoc; exact Hc | exact Hpost | | exact Hpos].
  rewrite count_nl_app. lia.
Qed.

End WholeLines.

(** ** What a match consumes and captures *)

Section RegexTrace.
Import Regex ExtractSpec.

Lemma star_trace p s : forall pos caps k m,
  star p s pos caps k = Some m ->
  exists w s',
    k s' (pos + List.length w)%nat caps = Some m
    /\ s = w ++ s' /\ forallb p w = true.
Proof.
  induction s as [|c s IH]; intros pos caps k m H; cbn [star] in H.
  - exists [], []. cbn [List.length]. rewrite Nat.add_0_r. auto.
  - assert (Hstop : k (c :: s) pos caps = Some m ->
              exists w s',
                k s' (pos + List.length w)%nat caps = Some m
                /\ c :: s = w ++ s' /\ forallb p w = true).
    { intro Hk. exists [], (c :: s). cbn [List.length].
      rewrite Nat.add_0_r. auto. }
    destruct (p c) eqn:Hc; [|exact (Hstop H)].
    unfold or_else in H.
    destruct (star p s (S pos) caps k) eqn:E; [|exact (Hstop H)].
    injection H as ->. destruct (IH _ _ _ _ E) as (w & s' & Hk & -> & Hw).
    exists (c :: w), s'. cbn [List.length forallb app].
    rewrite Hc, Hw. rewrite <- Nat.add_succ_comm. auto.
Qed.

Lemma upto_trace p n : forall s pos caps k m,
  upto n p s pos caps k = Some m ->
  exists w s',
    k s' (pos + List.length w)%nat caps = Some m
    /\ s = w ++ s' /\ (List.length w <= n)%nat /\ forallb p w = true.
Proof.
  induction n as [|n IH]; intros s pos caps k m H.
  - exists [], s. cbn [List.length]. rewrite Nat.add_0_r.
    destruct s; cbn [upto] in H; auto.
  - assert (Hstop : k s pos caps = Some m ->
              exists w s',
                k s' (pos + List.length w)%nat caps = Some m
                /\ s = w ++ s' /\ (List.length w <= S n)%nat
                /\ forallb p w = true).
    { intro Hk. exists [], s. cbn [List.length].
      rewrite Nat.add_0_r. repeat split; auto. lia. }
    destruct s as [|c s]; cbn [upto] in H; [exact (Hstop H)|].
    destruct (p c) eqn:Hc; [|exact (Hstop H)].
    unfold or_else in H.
    destruct (upto n p s (S pos) caps k) eqn:E; [|exact (Hstop H)].
    injection H as ->.
    destruct (IH _ _ _ _ _ E) as (w & s' & Hk & -> & Hl & Hw).
    exists (c :: w), s'. cbn [List.length forallb app].
    rewrite Hc, Hw. rewrite <- Nat.add_succ_comm.
    repeat split; auto. lia.
Qed.

(** A run of the matcher consumes a text the pattern matches, hands the
    rest to its continuation, and adds to the captures those of the
    groups of the pattern only. *)
Lemma run_trace r : forall s pos caps k m,
  run r s pos caps k = Some m ->
  exists w s' delta,
    k s' (pos + List.length w)%nat (delta ++ caps) = Some m
    /\ s = w ++ s' /\ matches r w
    /\ Forall (fun g => In (fst g) (groups r)) delta.
Proof.
  induction r as [ | p | a IHa b IHb | a IHa b IHb | p | n p | n r IH | ];
    intros s pos caps k m H; cbn [run] in H.
  - exists [], s, []. cbn [List.length app]. rewrite Nat.add_0_r.
    repeat split; auto. constructor.
  - destruct s as [|c s]; [discriminate|].
    destruct (p c) eqn:Hc; [|discriminate].
    exists [c], s, []. cbn [List.length app]. rewrite Nat.add_1_r.
    repeat split; auto. constructor. exact Hc.
  - apply IHa in H. destruct H as (w1 & s1 & d1 & H & -> & M1 & F1).
    apply IHb in H. destruct H as (w2 & s2 & d2 & H & -> & M2 & F2).
    exists (w1 ++ w2), s2, (d2 ++ d1).
    rewrite length_app, Nat.add_assoc, <- !app_assoc.
    split; [exact H|]. split; [reflexivity|].
    split; [constructor; assumption|].
    cbn [groups]. apply Forall_app. split;
      (eapply Forall_impl; [|eassumption]); intros g Hg;
      apply in_or_app; auto.
  - unfold or_else in H. destruct (run a s pos caps k) eqn:E.
    + injection H as ->. apply IHa in E.
      destruct E as (w & s' & d & H & -> & M & F).
      exists w, s', d. split; [exact H|]. split; [reflexivity|].
      split; [apply matches_left, M|].
      cbn [groups]. eapply Forall_impl; [|exact F].
      intros g Hg. apply in_or_app. auto.
    + apply IHb in H. destruct H as (w & s' & d & H & -> & M & F).
      exists w, s', d. split; [exact H|]. split; [reflexivity|].
      split; [apply matches_right, M|].
      cbn [groups]. eapply Forall_impl; [|exact F].
      intros g Hg. apply in_or_app. auto.
  - apply star_trace in H. destruct H as (w & s' & H & -> & Hw).
    exists w, s', []. repeat split; auto. constructor. exact Hw.
  - apply upto_trace in H. destruct H as (w & s' & H & -> & Hl & Hw).
    exists w, s', []. repeat split; auto. constructor; assumption.
  - apply IH in H. destruct H as (w & s' & d & H & -> & M & F).
    exists w, s', ((n, (pos, (pos + List.length w)%nat)) :: d).
    split; [exact H|]. split; [reflexivity|].
    split; [constructor; exact M|].
    cbn [groups]. constructor; [left; reflexivity|].
    eapply Forall_impl; [|exact F]. intros g Hg. right. exact Hg.
  - exists [], s, []. cbn [List.length app]. rewrite Nat.add_0_r.
    assert (Hk : k s pos caps = Some m).
    { destruct s as [|c [|c' s]]; try discriminate; [exact H|].
      destruct (ascii_eqb c NL); [exact H | discriminate]. }
    repeat split; auto. constructor.
Qed.

Lemma lookup_skip (n : nat) (delta rest : captures) :
  Forall (fun g => fst g <> n) delta ->
  lookup n (delta ++ rest) = lookup n rest.
Proof.
  induction 1 as [|[g span] delta Hg Hd IH]; [reflexivity|].
  cbn [app lookup]. simpl in Hg.
  destruct (Nat.eqb g n) eqn:E; [apply Nat.eqb_eq in E; congruence|].
  exact IH.
Qed.

(** The first group of a pattern made of a head without groups, a group
    and a tail that does not name the group again: it captures a text
    its pattern matches. *)
Lemma group_capture (a b t : re) (n : nat) (content : str) (m : mtch) :
  groups a = [] -> ~ In n (groups b) -> ~ In n (groups t) ->
  In m (finditer (Seq a (Seq (Group n b) t)) content) ->
  matches b (group n content m).
Proof.
  intros Ga Gb Gt H. apply finditer_exec in H. destruct H as [_ H].
  unfold exec in H. cbn [run] in H.
  apply run_trace in H. destruct H as (w1 & s1 & d1 & H & Hs1 & _ & F1).
  rewrite Ga in F1. destruct d1 as [|g d1];
    [|inversion F1 as [|? ? Hin _]; destruct Hin].
  cbn [app] in H.
  apply run_trace in H. destruct H as (w2 & s2 & d2 & H & Hs2 & M2 & F2).
  apply run_trace in H. destruct H as (w3 & s3 & d3 & H & Hs3 & _ & F3).
  injection H as <-. unfold group. cbn [m_caps m_start] in *.
  rewrite lookup_skip.
  - cbn [lookup]. rewrite Nat.eqb_refl.
    unfold slice.
    replace (m_start m + List.length w1 + List.length w2
             - (m_start m + List.length w1))%nat
      with (List.length w2) by lia.
    rewrite Nat.add_comm, <- skipn_skipn, Hs1.
    rewrite skipn_app, skipn_all, Nat.sub_diag. cbn [skipn app].
    rewrite Hs2, firstn_app, firstn_all, Nat.sub_diag. cbn [firstn].
    rewrite app_nil_r. exact M2.
  - eapply Forall_impl; [|exact F3]. intros g Hg E.
    apply Gt. rewrite <- E. exact Hg.
Qed.

Lemma matches_seqs_ci (t : str) : forall w,
  matches (seqs (map (fun x => Chr (eq_chr_ci x)) t)) w ->
  lower w = lower t.
Proof.
  induction t as [|x t IH]; intros w H; cbn [map seqs] in H.
  - inversion H. reflexivity.
  - destruct t as [|y t].
    + cbn [map] in H. inversion H as [|p c Hc| | | | | | |]; subst.
      unfold eq_chr_ci, ascii_eqb in Hc. apply Ascii.eqb_eq in Hc.
      cbn [lower map]. rewrite Hc. reflexivity.
    + cbn [map] in H. inversion H as [| |a b w1 w2 M1 M2| | | | | |]; subst.
      inversion M1 as [|p c Hc| | | | | | |]; subst.
      unfold eq_chr_ci, ascii_eqb in Hc. apply Ascii.eqb_eq in Hc.
      apply IH in M2. unfold lower in *. cbn [app map] in *.
      rewrite Hc, M2. reflexivity.
Qed.

Lemma matches_alts_ci (tags : list string) : forall w,
  tags <> [] ->
  matches (alts (map lit_ci tags)) w ->
  exists tag, In tag tags /\ lower w = lower (s2l tag).
Proof.
  induction tags as [|t tags IH]; intros w Hne H; [congruence|].
  destruct tags as [|t' tags].
  - cbn [map alts] in H. exists t. split; [left; reflexivity|].
    apply matches_seqs_ci, H.
  - cbn [map alts] in H. cbn [map] in IH.
    inversion H as [| | |a b w' M|a b w' M| | | |]; subst.
    + exists t. split; [left; reflexivity|]. apply matches_seqs_ci, M.
    + destruct (IH w ltac:(discriminate) M) as (tag & Hin & Hl).
      exists tag. split; [right; exact Hin | exact Hl].
Qed.


Lemma rich_tag_name content m :
  In m (finditer TPP.section_pattern content) ->
  In (lower (group 1 content m)) rich_tags.
Proof.
  intro H. unfold TPP.section_pattern in H. cbn [seqs] in H.
  apply group_capture in H;
    [| reflexivity | intros [] | cbn; intuition discriminate].
  apply matches_alts_ci in H; [|discriminate].
  destruct H as (tag & Hin & ->).
  unfold rich_tags.
  repeat (destruct Hin as [<- | Hin]; [cbn; tauto|]). destruct Hin.
Qed.

End RegexTrace.

(** ** The chunks of the extractors, match by match *)

Section ChunkFacts.
Import Regex ExtractSpec.

Lemma Forall2_map_In {A B : Type} (R : A -> B -> Prop) (f : A -> B) l :
  (forall a, In a l -> R a (f a)) -> Forall2 R l (map f l).
Proof.
  induction l as [|a l IH]; intro H; cbn [map]; constructor.
  - apply H. left. reflexivity.
  - apply IH. intros a' Ha'. apply H. right. exact Ha'.
Qed.

Lemma line_of_pos_in_file (content : str) (pos : nat) :
  (1 <= line_of_pos content pos <= line_count content)%nat.
Proof.
  pose proof (line_in_file content pos) as H.
  rewrite split_lines_length in H. exact H.
Qed.

Lemma line_of_pos_mono (content : str) (a b : nat) :
  (a <= b)%nat -> (line_of_pos content a <= line_of_pos content b)%nat.
Proof.
  intro H. unfold line_of_pos.
  pose proof (@count_nl_firstn_mono content a b H). lia.
Qed.

(** The window of lines the simple program cuts around line [L]. *)
Lemma window_whole (content : str) (L b after : nat) :
  (1 <= L <= line_count content)%nat ->
  exists pre,
    whole_lines content pre
                (Simple.window (split_lines content) L (S b) after)
                (Nat.max 1 (L - b))
                (Nat.min (line_count content) (L + after)).
Proof.
  intro HL. unfold Simple.window. rewrite Nat.max_0_l.
  rewrite split_lines_length. fold (line_count content).
  destruct (@lines_slice content (L - S b)
              (Nat.min (line_count content) (L + after))) as [pre H].
  - lia.
  - rewrite split_lines_length. fold (line_count content). lia.
  - exists pre. replace (Nat.max 1 (L - b)) with (L - S b + 1)%nat by lia.
    exact H.
Qed.

(** The span of lines the rich program cuts from line [a] to line
    [e]. *)
Lemma span_whole (content : str) (a e : nat) :
  (1 <= a <= e)%nat -> (a <= line_count content)%nat ->
  exists pre,
    whole_lines content pre (TPP.span (split_lines content) a e)
                a (Nat.min e (line_count content)).
Proof.
  intros Ha Hl. unfold TPP.span.
  rewrite split_lines_length. fold (line_count content).
  destruct (@lines_slice content (a - 1)
              (Nat.min e (line_count content))) as [pre H].
  - lia.
  - rewrite split_lines_length. fold (line_count content). lia.
  - exists pre. replace (a - 1 + 1)%nat with a in H by lia. exact H.
Qed.

(** Where a text stands, and where [find] finds it. *)
Lemma occurs_at_starts (p s : str) (e : nat) :
  occurs_at p s e <->
  (e <= List.length s)%nat /\ starts_with p (skipn e s) = true.
Proof.
  unfold occurs_at. split.
  - intros (pre & post & -> & <-). split.
    + rewrite length_app. lia.
    + rewrite skipn_app, skipn_all, Nat.sub_diag. cbn [app skipn].
      apply starts_with_prefix. exists post. reflexivity.
  - intros [He Hs]. apply starts_with_prefix in Hs. destruct Hs as [post Hs].
    exists (firstn e s), post. split.
    + rewrite <- Hs. symmetry. apply firstn_skipn.
    + rewrite length_firstn. lia.
Qed.

Lemma find_go_first (p s : str) : forall pos e,
  find_go p s pos = Some e ->
  forall j, (pos + j < e)%nat -> starts_with p (skipn j s) = false.
Proof.
  induction s as [|c s IH]; intros pos e H j Hj; cbn [find_go] in H.
  - destruct (starts_with p []); [|discriminate]. injection H as <-. lia.
  - destruct (starts_with p (c :: s)) eqn:E; [injection H as <-; lia|].
    destruct j as [|j]; [exact E|].
    cbn [skipn]. apply (IH _ _ H). lia.
Qed.

Lemma find_from_first (p s : str) (start e : nat) :
  find_from p s start = Some e -> first_at p s start e.
Proof.
  unfold find_from. destruct (List.length s <? start) eqn:L; [discriminate|].
  apply Nat.ltb_ge in L. intro H.
  destruct (find_go_some _ _ _ H) as (j & -> & Hj & Hs).
  rewrite length_skipn in Hj. rewrite skipn_skipn in Hs.
  split; [lia|]. split.
  - apply occurs_at_starts. split; [lia|].
    replace (start + j)%nat with (j + start)%nat by lia. exact Hs.
  - intros e' He' Ho. apply occurs_at_starts in Ho. destruct Ho as [_ Ho].
    pose proof (@find_go_first _ _ _ _ H (e' - start)%nat) as Hf.
    rewrite skipn_skipn in Hf.
    replace (e' - start + start)%nat with e' in Hf by lia.
    rewrite Hf in Ho by lia. discriminate.
Qed.

Lemma find_from_none (p s : str) (start : nat) :
  find_from p s start = None ->
  forall e, (start <= e)%nat -> ~ occurs_at p s e.
Proof.
  unfold find_from. intros H e He Ho.
  apply occurs_at_starts in Ho. destruct Ho as [Hl Ho].
  destruct (List.length s <? start) eqn:L.
  - apply Nat.ltb_lt in L. lia.
  - pose proof (@find_go_none _ _ _ H (e - start)%nat) as Hn.
    rewrite length_skipn, skipn_skipn in Hn.
    replace (e - start + start)%nat with e in Hn by lia.
    rewrite Hn in Ho by lia. discriminate.
Qed.

Lemma first_at_closing (p s : str) (m : mtch) (e : nat) :
  first_at p s (m_end m) e -> has_closing p s m.
Proof. intros (H1 & H2 & _). exists e. auto. Qed.

(** A match of [finditer] begins in front of its end, within the
    text. *)
Lemma finditer_bounds r content m :
  In m (finditer r content) ->
  (m_start m <= m_end m <= List.length content)%nat.
Proof.
  intro H. split; [|eapply finditer_end, H].
  apply finditer_exec in H. destruct H as [_ H].
  apply exec_start in H. lia.
Qed.

(** A match of the form pattern begins with [<], on the line computed
    for it. *)
Lemma exec_first_nested p a b s pos m :
  exec (Seq (Seq (Chr p) a) b) s pos = Some m ->
  exists c s', s = c :: s' /\ p c = true.
Proof.
  unfold exec. cbn [run]. intro H.
  destruct s as [|c s']; [discriminate|].
  destruct (p c) eqn:E; [|discriminate].
  exists c, s'. auto.
Qed.

Lemma form_on_line content m :
  In m (finditer TPP.form_pattern content) ->
  tag_on_line content (m_start m) (line_of_pos content (m_start m)).
Proof.
  intro H. apply finditer_exec in H. destruct H as [Hlt He].
  apply exec_first_nested in He. destruct He as (c & s' & Hs & Hc).
  apply eq_chr_ci_lt in Hc. subst c.
  apply skipn_nth_error in Hs.
  split; [exact Hs|]. split; [unfold line_of_pos; lia|].
  unfold line_of_pos. rewrite Nat.add_sub.
  apply char_on_line; [exact Hs | discriminate].
Qed.

(** The text of an element of the rich markup extractor. *)
Lemma markup_text (content : str) (m : mtch) (end_pos : nat) :
  (m_start m <= m_end m)%nat -> (m_end m <= end_pos)%nat ->
  exists pre,
    whole_lines content pre
      (TPP.span (split_lines content) (TPP.line_of content m)
                (TPP.line_at content end_pos + 1))
      (line_of_pos content (m_start m))
      (Nat.min (line_of_pos content end_pos + 1) (line_count content)).
Proof.
  intros H1 H2.
  apply (@span_whole content (line_of_pos content (m_start m))
                     (line_of_pos content end_pos + 1)).
  - pose proof (line_of_pos_in_file content (m_start m)).
    pose proof (@line_of_pos_mono content (m_start m) end_pos). lia.
  - apply line_of_pos_in_file.
Qed.

Lemma rich_sections_emitted content path category ms :
  (forall m, In m ms -> In m (finditer TPP.section_pattern content)) ->
  emitted (section_closed content)
          (fun m c =>
             rich_section content m c
             /\ rich_markup_content 1000 (closing_tag (group 1 content m))
                                    content m c)
          ms
          (flat_map (TPP.section_chunk content path category
                                       (split_lines content)) ms).
Proof.
  induction ms as [|m ms IH]; intro H; cbn [flat_map]; [constructor|].
  assert (IH' := IH (fun m' Hm' => H m' (or_intror Hm'))).
  assert (Hm := H m (or_introl eq_refl)).
  unfold TPP.section_chunk at 1, TPP.section_text.
  change (TPP.closing (group 1 content m))
    with (closing_tag (group 1 content m)).
  destruct (find_from (closing_tag (group 1 content m)) content (m_end m))
    as [end_pos|] eqn:E; cbn [app].
  - apply find_from_first in E.
    apply emitted_chunk; [eapply first_at_closing, E | | exact IH'].
    split.
    + unfold rich_section. cbn [TPP.name TPP.line_number].
      split; [apply rich_tag_name, Hm|].
      split; [reflexivity|]. split; [reflexivity|].
      unfold TPP.section_pattern in Hm. eapply match_on_line, Hm.
    + destruct (finditer_bounds _ _ _ Hm) as [Hs _].
      destruct (@markup_text content m end_pos Hs) as [pre Hw];
        [apply E|].
      exists end_pos, pre. eexists.
      split; [exact E|]. split; [exact Hw|]. cbn [TPP.code].
      split; [apply cap_capped | eapply capped_length, cap_capped].
  - apply emitted_none; [|exact IH'].
    intros (e & He & Ho). exact (@find_from_none _ _ _ E e He Ho).
Qed.

Lemma rich_forms_emitted content path category ms :
  (forall m, In m ms -> In m (finditer TPP.form_pattern content)) ->
  emitted (form_closed content)
          (fun m c =>
             rich_form content m c
             /\ rich_markup_content 500 (s2l "</form>") content m c)
          ms
          (flat_map (TPP.form_chunk content path category
                                    (split_lines content)) ms).
Proof.
  induction ms as [|m ms IH]; intro H; cbn [flat_map]; [constructor|].
  assert (IH' := IH (fun m' Hm' => H m' (or_intror Hm'))).
  assert (Hm := H m (or_introl eq_refl)).
  unfold TPP.form_chunk at 1, TPP.form_text.
  destruct (find_from (s2l "</form>") content (m_end m))
    as [end_pos|] eqn:E; cbn [app].
  - apply find_from_first in E.
    apply emitted_chunk; [eapply first_at_closing, E | | exact IH'].
    split.
    + unfold rich_form. cbn [TPP.name TPP.line_number].
      split; [eexists; reflexivity|]. split; [reflexivity|].
      apply form_on_line, Hm.
    + destruct (finditer_bounds _ _ _ Hm) as [Hs _].
      destruct (@markup_text content m end_pos Hs) as [pre Hw];
        [apply E|].
      exists end_pos, pre. eexists.
      split; [exact E|]. split; [exact Hw|]. cbn [TPP.code].
      split; [apply cap_capped | eapply capped_length, cap_capped].
  - apply emitted_none; [|exact IH'].
    intros (e & He & Ho). exact (@find_from_none _ _ _ E e He Ho).
Qed.

Lemma emitted_impl {M C : Type} (P : M -> Prop) (R R' : M -> C -> Prop)
      ms cs :
  (forall m c, R m c -> R' m c) -> emitted P R ms cs -> emitted P R' ms cs.
Proof.
  intro H. induction 1; [constructor | apply emitted_chunk | apply emitted_none];
    auto.
Qed.

(** The text of a construct in braces, as the script and stylesheet
    extractors of the rich program cut it. *)
Lemma braced_span content r m :
  In m (finditer r content) ->
  exists pre,
    braced_text content m pre
                (TPP.function_text content (split_lines content) m)
                (TPP.function_end content m).
Proof.
  intro Hm. destruct (finditer_bounds _ _ _ Hm) as [Hs He].
  pose proof (brace_scan_spec (skipn (m_end m) content) (m_end m) 1)
    as Hb.
  fold (TPP.function_end content m) in Hb. cbn zeta in Hb.
  unfold TPP.function_text, TPP.line_at, TPP.line_of.
  fold (line_of_pos content (m_start m)).
  fold (line_of_pos content (TPP.function_end content m)).
  set (e := TPP.function_end content m) in *.
  assert (Hle : (m_end m <= e <= List.length content)%nat).
  { destruct Hb as (H1 & H2 & _). rewrite length_skipn in H2. lia. }
  destruct (@span_whole content (line_of_pos content (m_start m))
              (line_of_pos content e)) as [pre Hw].
  { pose proof (line_of_pos_in_file content (m_start m)).
    pose proof (@line_of_pos_mono content (m_start m) e). lia. }
  { apply line_of_pos_in_file. }
  rewrite Nat.min_l in Hw by apply line_of_pos_in_file.
  exists pre. unfold braced_text.
  split; [exact Hb|]. split; [exact Hw|].
  split; [eapply whole_lines_begin; [exact Hw | lia]|].
  eapply whole_lines_end; [exact Hw | lia | lia].
Qed.

(** The chunks of the rich script extractor for the matches of one
    pattern. *)
Lemma rich_js_chunks content path category pattern ms :
  (forall m, In m ms -> In m (finditer pattern content)) ->
  Forall2 (fun m c => rich_js content m c /\ braced_content 800 content m c)
          ms
          (map (TPP.js_chunk content path category (split_lines content)) ms).
Proof.
  intro H. apply Forall2_map_In. intros m Hm.
  destruct (braced_span _ _ _ (H m Hm)) as [pre Hb].
  unfold rich_js, braced_content.
  cbn [TPP.js_chunk TPP.name TPP.line_number TPP.code].
  split.
  - split; [reflexivity|]. split; [reflexivity|].
    exists (TPP.function_end content m), pre. eexists.
    split; [exact Hb | apply cap_capped].
  - exists (TPP.function_end content m), pre. eexists.
    split; [exact Hb|]. split; [apply cap_capped|].
    apply (@capped_length 800 _ _ (cap_capped 800 _)).
Qed.

(** The chunks of the rich stylesheet extractor. *)
Lemma rich_css_emitted content path category ms :
  (forall m, In m ms -> In m (finditer TPP.css_pattern content)) ->
  emitted (css_selected content) (braced_content 400 content) ms
          (flat_map (TPP.css_chunk content path category
                                   (split_lines content)) ms).
Proof.
  induction ms as [|m ms IH]; intro H; cbn [flat_map]; [constructor|].
  assert (IH' := IH (fun m' Hm' => H m' (or_intror Hm'))).
  assert (Hm := H m (or_introl eq_refl)).
  unfold TPP.css_chunk at 1, css_selected.
  destruct (strip (group 1 content m)) as [|x t] eqn:Es.
  - cbn [app]. apply emitted_none; [|exact IH'].
    intros [Hne _]. apply Hne. exact Es.
  - destruct (starts_with (s2l "/*") (x :: t)) eqn:Ec; cbn [app].
    + apply emitted_none; [|exact IH'].
      intros [_ Hn]. apply Hn. apply starts_with_prefix in Ec.
      rewrite Es. exact Ec.
    + apply emitted_chunk; [| |exact IH'].
      * rewrite Es. split; [discriminate|].
        intro Hp. apply starts_with_prefix in Hp. congruence.
      * destruct (braced_span _ _ _ Hm) as [pre Hb].
        unfold braced_content. cbn [TPP.code].
        exists (TPP.function_end content m), pre. eexists.
        split; [exact Hb|]. split; [apply cap_capped|].
        apply (@capped_length 400 _ _ (cap_capped 400 _)).
Qed.

(** The chunks of the simple program: the name and line of a tag, and
    the window around it. *)
Lemma simple_windows content (f : mtch -> Simple.SearchResult)
      (b after : nat) ms :
  (forall m, Simple.content (f m)
             = Simple.window (split_lines content)
                             (line_of_pos content (m_start m)) (S b) after) ->
  Forall2 (simple_window b after content) ms (map f ms).
Proof.
  intro Hf. induction ms as [|m ms IH]; cbn [map]; constructor; [|exact IH].
  unfold simple_window. rewrite Hf. apply window_whole.
  apply line_of_pos_in_file.
Qed.

(** The chunks of the documentation extractor, heading by heading. *)
Lemma md_go_chunks path category (lines : list str) : forall front cur,
  lines = front ++ cur ->
  Forall2
    (fun j c =>
       exists m k,
         match_ TPP.header_pattern (nth j lines []) = Some m
         /\ (k <= List.length (skipn (S j) lines))%nat
         /\ (forall l, In l (firstn k (skipn (S j) lines)) ->
               ends_section (List.length (group 1 (nth j lines []) m)) l
               = false)
         /\ ((k < List.length (skipn (S j) lines))%nat ->
             ends_section (List.length (group 1 (nth j lines []) m))
                          (nth k (skipn (S j) lines) []) = true)
         /\ TPP.code c
            = join_lines (slice j (j + Nat.min 20 (S k)) lines))
    (filter (fun j => is_heading (nth j lines []))
            (seq (List.length front) (List.length cur)))
    (TPP.md_go path category (List.length front) cur).
Proof.
  intros front cur. revert front.
  induction cur as [|line rest IH]; intros front Hl;
    cbn [TPP.md_go List.length seq filter]; [constructor|].
  assert (Hnth : nth (List.length front) lines [] = line).
  { rewrite Hl. apply nth_middle. }
  assert (Hskip : skipn (S (List.length front)) lines = rest).
  { rewrite Hl. replace (front ++ line :: rest)
      with ((front ++ [line]) ++ rest) by (rewrite <- app_assoc; reflexivity).
    rewrite skipn_app, skipn_all2, length_app by (rewrite length_app; cbn; lia).
    cbn [List.length app]. replace (S _ - _)%nat with 0%nat by lia.
    reflexivity. }
  assert (IH' := IH (front ++ [line])).
  rewrite length_app in IH'. cbn [List.length] in IH'.
  rewrite Nat.add_1_r in IH'.
  specialize (IH' ltac:(rewrite <- app_assoc; exact Hl)).
  rewrite Hnth. unfold is_heading at 1.
  destruct (match_ TPP.header_pattern line) as [m|] eqn:Em; [|exact IH'].
  constructor; [|exact IH'].
  destruct (section_rest_extent (List.length (group 1 line m)) rest)
    as (k & Hk & Hle & Hin & Hend).
  exists m, k. rewrite Hnth, Hskip. cbn [TPP.code].
  split; [exact Em|]. split; [exact Hle|]. split; [exact Hin|].
  split; [exact Hend|].
  unfold TPP.section_lines. rewrite Hk. f_equal.
  unfold slice.
  replace (List.length front + Nat.min 20 (S k) - List.length front)%nat
    with (Nat.min 20 (S k)) by lia.
  assert (Hs : skipn (List.length front) lines = line :: rest).
  { rewrite Hl, skipn_app, skipn_all, Nat.sub_diag. reflexivity. }
  rewrite Hs. change (line :: firstn k rest) with (firstn (S k) (line :: rest)).
  apply firstn_firstn.
Qed.

Lemma md_chunks content path category :
  Forall2 (md_content content) (heading_lines (split_lines content))
          (TPP._extract_md_sections content path category).
Proof.
  unfold TPP._extract_md_sections, heading_lines.
  pose proof (@md_go_chunks path category (split_lines content) []
                (split_lines content) eq_refl) as H.
  cbn [List.length] in H.
  eapply Forall2_impl; [|exact H].
  intros j c (m & k & Hm & Hk & Hin & Hend & Hcode).
  destruct (@lines_slice content j (j + Nat.min 20 (S k))) as [pre Hw].
  - lia.
  - rewrite length_skipn in Hk.
    assert (j < List.length (split_lines content))%nat.
    { destruct (Nat.lt_ge_cases j (List.length (split_lines content)))
        as [|Hge]; [assumption|].
      rewrite nth_overflow in Hm by exact Hge. discriminate Hm. }
    lia.
  - unfold md_content. cbn zeta. exists m, k, pre. rewrite Hcode.
    split; [exact Hm|]. split; [exact Hk|]. split; [exact Hin|].
    split; [exact Hend | exact Hw].
Qed.

End ChunkFacts.

(** ** Matches and chunks of the extractors *)


(** Claim C5, amended.  The rich extractor emits one chunk per pattern
  and match, pattern by pattern.  The end of the construct is where the
  brace loop, started behind the match at depth 1, brings the depth to
  zero, or the end of the text when it never does.  The content is the
  whole lines of the file from the line on which the match begins to
  the line on which the loop stopped, capped at 800 characters: these
  lines hold the construct from the matched keyword to its closing
  brace, and they may begin in front of the keyword and go on behind the
  brace.  The simple extractor counts no braces: for each match of its
  three patterns the content is the whole lines from one line in front
  of the line of the match to fifteen lines behind it, as far as the
  file has them. *)
Theorem js_function_chunks (content path category : str) :
  (exists runs,
      TPP._extract_js_functions content path category = List.concat runs
      /\ Forall2 (fun pattern run =>
                    Forall2 (ExtractSpec.rich_js content)
                            (Regex.finditer pattern content) run)
                 TPP.js_patterns runs)
  /\ (exists runs,
      Simple._extract_js_functions content path = List.concat runs
      /\ Forall2 (fun pattern run =>
                    Forall2 (ExtractSpec.simple_js content)
                            (Regex.finditer pattern content) run)
                 Simple.js_patterns runs).
Proof.
  split.
  - exists (map (fun pattern =>
                   map (TPP.js_chunk content path category
                                     (split_lines content))
                       (Regex.finditer pattern content))
                TPP.js_patterns).
    split; [apply flat_map_concat_map|].
    apply Forall2_map_In. intros pattern _.
    eapply Forall2_impl; [|apply (@rich_js_chunks _ _ _ pattern); auto].
    intros m c [H _]. exact H.
  - exists (map (fun pattern =>
                   map (Simple.js_chunk content path (split_lines content))
                       (Regex.finditer pattern content))
                Simple.js_patterns).
    split; [apply flat_map_concat_map|].
    apply Forall2_map_In. intros pattern _.
    apply Forall2_map_In. intros m _.
    unfold ExtractSpec.simple_js, ExtractSpec.simple_window.
    cbn [Simple.js_chunk Simple.name Simple.line_number Simple.content].
    split; [reflexivity|]. split; [reflexivity|].
    apply window_whole, line_of_pos_in_file.
Qed.

(** Claim C6, amended.  In the rich program the content of a markup
  chunk is its text, the lines from the line of the opening tag to the
  line behind the line of the first closing tag, capped at 1000
  characters, that of a form chunk capped at 500, that of a script chunk
  at 800, of a stylesheet chunk at 400 and of a chunk of a Python
  function at 600: the text itself when it is no longer than the cap,
  and otherwise its first characters up to the cap followed by the
  marker, so the marker is there exactly when the text was cut, and the
  content is at most three characters longer than the cap.  The content
  of a documentation chunk is the first twenty lines of the section, or
  all of them when there are fewer, as they stand in the file: nothing
  is appended.  In the simple program the content is a window of whole
  lines of the file around the line of the match, as they stand in the
  file: from four lines in front of it to fifteen behind it for a tag,
  from one in front to twenty behind for a form, from one in front to
  fifteen behind for a script match, and from the line itself to ten
  behind it for a stylesheet match. *)
Theorem content_caps (content path category : str) :
  (exists sections forms,
      TPP._extract_html_components content path category = sections ++ forms
      /\ ExtractSpec.emitted
           (ExtractSpec.section_closed content)
           (fun m c =>
              ExtractSpec.rich_markup_content
                1000 (ExtractSpec.closing_tag (Regex.group 1 content m))
                content m c)
           (Regex.finditer TPP.section_pattern content) sections
      /\ ExtractSpec.emitted
           (ExtractSpec.form_closed content)
           (ExtractSpec.rich_markup_content 500 (s2l "</form>") content)
           (Regex.finditer TPP.form_pattern content) forms)
  /\ (exists runs,
      TPP._extract_js_functions content path category = List.concat runs
      /\ Forall2 (fun pattern run =>
                    Forall2 (ExtractSpec.braced_content 800 content)
                            (Regex.finditer pattern content) run)
                 TPP.js_patterns runs)
  /\ ExtractSpec.emitted (ExtractSpec.css_selected content)
                         (ExtractSpec.braced_content 400 content)
                         (Regex.finditer TPP.css_pattern content)
                         (TPP._extract_css_rules content path category)
  /\ Forall2 (ExtractSpec.python_content content)
             (TPP.def_finditer content)
             (TPP._extract_python_functions content path category)
  /\ Forall2 (ExtractSpec.md_content content)
             (ExtractSpec.heading_lines (split_lines content))
             (TPP._extract_md_sections content path category)
  /\ (exists sections forms,
      Simple._extract_html_sections content path = sections ++ forms
      /\ Forall2 (ExtractSpec.simple_window 4 15 content)
                 (Regex.finditer Simple.section_pattern content) sections
      /\ Forall2 (ExtractSpec.simple_window 1 20 content)
                 (Regex.finditer Simple.form_pattern content) forms)
  /\ (exists runs,
      Simple._extract_js_functions content path = List.concat runs
      /\ Forall2 (fun pattern run =>
                    Forall2 (ExtractSpec.simple_window 1 15 content)
                            (Regex.finditer pattern content) run)
                 Simple.js_patterns runs)
  /\ Forall2 (ExtractSpec.simple_window 0 10 content)
             (Regex.finditer Simple.css_pattern content)
             (Simple._extract_css_rules content path).
Proof.
  split; [|split; [|split; [|split; [|split; [|split; [|split]]]]]].
  - eexists; eexists. split; [reflexivity|]. split.
    + eapply emitted_impl; [|apply rich_sections_emitted; auto].
      intros m c [_ H]. exact H.
    + eapply emitted_impl; [|apply rich_forms_emitted; auto].
      intros m c [_ H]. exact H.
  - exists (map (fun pattern =>
                   map (TPP.js_chunk content path category
                                     (split_lines content))
                       (Regex.finditer pattern content))
                TPP.js_patterns).
    split; [apply flat_map_concat_map|].
    apply Forall2_map_In. intros pattern _.
    eapply Forall2_impl; [|apply (@rich_js_chunks _ _ _ pattern); auto].
    intros m c [_ H]. exact H.
  - apply rich_css_emitted. auto.
  - apply Forall2_map_In. intros m _.
    unfold ExtractSpec.python_content. cbn [TPP.python_chunk TPP.code].
    split; [apply cap_capped|].
    apply (@capped_length 600 _ _ (cap_capped 600 _)).
  - apply md_chunks.
  - eexists; eexists. split; [reflexivity|].
    split; apply simple_windows; reflexivity.
  - exists (map (fun pattern =>
                   map (Simple.js_chunk content path (split_lines content))
                       (Regex.finditer pattern content))
                Simple.js_patterns).
    split; [apply flat_map_concat_map|].
    apply Forall2_map_In. intros pattern _.
    apply simple_windows. reflexivity.
  - apply simple_windows. reflexivity.
Qed.

(** ** Statistics *)

Section StatsFacts.
Import TPP TPPSpec.

Lemma str_eqb_refl (a : str) : str_eqb a a = true.
Proof. apply str_eqb_eq. reflexivity. Qed.

Lemma str_eqb_neq (a b : str) : str_eqb a b = false <-> a <> b.
Proof.
  split.
  - intros H E. apply str_eqb_eq in E. congruence.
  - intro H. destruct (str_eqb a b) eqn:E; [|reflexivity].
    apply str_eqb_eq in E. contradiction.
Qed.

Lemma dict_get_set (d : dict) (k k' : str) (v dflt : nat) :
  dict_get (dict_set d k v) k' dflt
  = if str_eqb k k' then v else dict_get d k' dflt.
Proof.
  induction d as [|[k0 v0] d IH]; cbn [dict_set dict_get].
  - reflexivity.
  - destruct (str_eqb k0 k) eqn:E0; cbn [dict_get].
    + apply str_eqb_eq in E0. subst k0.
      destruct (str_eqb k k'); reflexivity.
    + destruct (str_eqb k0 k') eqn:E1; [|exact IH].
      apply str_eqb_eq in E1. subst k0. rewrite str_eqb_neq in E0.
      destruct (str_eqb k k') eqn:E2; [|reflexivity].
      apply str_eqb_eq in E2. congruence.
Qed.

Lemma dict_sum_count (d : dict) (k : str) :
  dict_sum (dict_set d k (dict_get d k 0 + 1)) = (dict_sum d + 1)%nat.
Proof.
  unfold dict_sum.
  induction d as [|[k0 v0] d IH]; cbn [dict_set dict_get map snd].
  - reflexivity.
  - destruct (str_eqb k0 k); cbn [map snd]; rewrite !list_sum_cons;
      [|rewrite IH]; lia.
Qed.

Lemma dict_keys_set (d : dict) (k : str) (v : nat) :
  dict_keys (dict_set d k v)
  = if existsb (fun k0 => str_eqb k0 k) (dict_keys d)
    then dict_keys d else dict_keys d ++ [k].
Proof.
  unfold dict_keys.
  induction d as [|[k0 v0] d IH]; cbn [dict_set map fst existsb].
  - reflexivity.
  - destruct (str_eqb k0 k); cbn [map fst orb]; [reflexivity|].
    rewrite IH.
    destruct (existsb (fun k1 => str_eqb k1 k) (map fst d)); reflexivity.
Qed.

Lemma existsb_str (k : str) (ks : list str) :
  existsb (fun k0 => str_eqb k0 k) ks = true <-> In k ks.
Proof.
  rewrite existsb_exists. split.
  - intros (x & Hx & E). apply str_eqb_eq in E. subst. exact Hx.
  - intro H. exists k. split; [exact H | apply str_eqb_refl].
Qed.

Lemma tally_get (keys : list str) : forall d k,
  dict_get (tally d keys) k 0
  = (dict_get d k 0 + List.length (filter (fun k0 => str_eqb k0 k) keys))%nat.
Proof.
  unfold tally. induction keys as [|x keys IH]; intros d k;
    cbn [fold_left filter]; [cbn [List.length]; lia|].
  rewrite IH, dict_get_set.
  destruct (str_eqb x k) eqn:E; cbn [List.length]; [|lia].
  apply str_eqb_eq in E. subst x. lia.
Qed.

Lemma tally_sum (keys : list str) : forall d,
  dict_sum (tally d keys) = (dict_sum d + List.length keys)%nat.
Proof.
  unfold tally. induction keys as [|x keys IH]; intro d;
    cbn [fold_left List.length]; [lia|].
  rewrite IH, dict_sum_count. lia.
Qed.

Lemma tally_keys (keys : list str) : forall d,
  NoDup (dict_keys d) ->
  NoDup (dict_keys (tally d keys))
  /\ forall k, In k (dict_keys (tally d keys))
               <-> In k (dict_keys d) \/ In k keys.
Proof.
  unfold tally. induction keys as [|x keys IH]; intros d Hd;
    cbn [fold_left].
  - split; [exact Hd | intro k; cbn [In]; tauto].
  - set (d' := dict_set d x (dict_get d x 0 + 1)).
    assert (Hk : dict_keys d'
                 = if existsb (fun k0 => str_eqb k0 x) (dict_keys d)
                   then dict_keys d else dict_keys d ++ [x])
      by apply dict_keys_set.
    assert (Hd' : NoDup (dict_keys d')
                  /\ forall k, In k (dict_keys d')
                               <-> In k (dict_keys d) \/ k = x).
    { rewrite Hk.
      destruct (existsb (fun k0 => str_eqb k0 x) (dict_keys d)) eqn:E.
      - apply existsb_str in E. split; [exact Hd|].
        intro k. split; [auto | intros [H | ->]; assumption].
      - assert (Hx : ~ In x (dict_keys d)).
        { intro H. apply existsb_str in H. congruence. }
        split.
        + apply NoDup_app; [exact Hd | repeat constructor; intros []|].
          intros k Hk1 [<- | []]. exact (Hx Hk1).
        + intro k. rewrite in_app_iff. cbn [In]. split.
          * intros [H | [<- | []]]; auto.
          * intros [H | ->]; auto. }
    destruct Hd' as [Hn Hin]. destruct (IH d' Hn) as [H1 H2].
    split; [exact H1|].
    intro k. rewrite H2, Hin. cbn [In]. split.
    + intros [[H | ->] | H]; auto.
    + intros [H | [<- | H]]; auto.
Qed.

Lemma stats_fold (chunks : list TPPCodeResult) : forall st,
  fold_left count_chunk chunks st
  = mkStats (total st)
            (tally (file_types st) (map file_type chunks))
            (tally (categories st) (map category chunks)).
Proof.
  unfold tally. induction chunks as [|c chunks IH]; intro st;
    cbn [fold_left map].
  - destruct st; reflexivity.
  - rewrite IH. reflexivity.
Qed.

Lemma filter_map_length {A B} (f : A -> B) (p : B -> bool) (l : list A) :
  List.length (filter p (map f l))
  = List.length (filter (fun a => p (f a)) l).
Proof.
  induction l as [|a l IH]; cbn [map filter]; [reflexivity|].
  destruct (p (f a)); cbn [List.length]; rewrite IH; reflexivity.
Qed.

End StatsFacts.

(** The statistics count right: the total is the number of chunks, and
    the count a file type or a category gets, 0 when it is not listed, is
    the number of chunks that have it. *)
Theorem stats_counts (code_chunks : list TPP.TPPCodeResult) (k : str) :
  TPP.total (TPP._get_stats code_chunks) = List.length code_chunks
  /\ TPP.dict_get (TPP.file_types (TPP._get_stats code_chunks)) k 0
     = List.length (filter (TPPSpec.of_file_type k) code_chunks)
  /\ TPP.dict_get (TPP.categories (TPP._get_stats code_chunks)) k 0
     = List.length (filter (TPPSpec.of_category k) code_chunks).
Proof.
  unfold TPP._get_stats. rewrite stats_fold.
  cbn [TPP.total TPP.file_types TPP.categories].
  rewrite !tally_get, !filter_map_length. cbn [TPP.dict_get].
  repeat split.
Qed.

(** The statistics list every file type that occurs among the chunks,
    each once, and no other; the counts listed add up to the number of
    chunks.  The same holds for the categories. *)
Theorem stats_listing (code_chunks : list TPP.TPPCodeResult) :
  let st := TPP._get_stats code_chunks in
  NoDup (TPPSpec.dict_keys (TPP.file_types st))
  /\ (forall k, In k (TPPSpec.dict_keys (TPP.file_types st))
                <-> exists c, In c code_chunks /\ TPP.file_type c = k)
  /\ TPPSpec.dict_sum (TPP.file_types st) = List.length code_chunks
  /\ NoDup (TPPSpec.dict_keys (TPP.categories st))
  /\ (forall k, In k (TPPSpec.dict_keys (TPP.categories st))
                <-> exists c, In c code_chunks /\ TPP.category c = k)
  /\ TPPSpec.dict_sum (TPP.categories st) = List.length code_chunks.
Proof.
  intro st. subst st. unfold TPP._get_stats. rewrite stats_fold.
  cbn [TPP.total TPP.file_types TPP.categories].
  destruct (@tally_keys (map TPP.file_type code_chunks) [] (NoDup_nil _))
    as [Hn1 Hk1].
  destruct (@tally_keys (map TPP.category code_chunks) [] (NoDup_nil _))
    as [Hn2 Hk2].
  rewrite !tally_sum, !length_map.
  split; [exact Hn1|]. split.
  { intro k. rewrite Hk1, in_map_iff. cbn. split.
    - intros [[] | (c & H1 & H2)]. exists c. auto.
    - intros (c & H1 & H2). right. exists c. auto. }
  split; [reflexivity|]. split; [exact Hn2|]. split; [|reflexivity].
  intro k. rewrite Hk2, in_map_iff. cbn. split.
  - intros [[] | (c & H1 & H2)]. exists c. auto.
  - intros (c & H1 & H2). right. exists c. auto.
Qed.

(** ** Indexing *)

Section IndexFacts.

Lemma index_files_types (extractor : str -> str -> list Simple.SearchResult)
      (t : str) (files : list file) :
  (forall content path c, In c (extractor content path) ->
     Simple.file_type c = t /\ Simple.score c = 0) ->
  Forall (fun c => Simple.file_type c = t /\ Simple.score c = 0)
         (Simple.index_files extractor files).
Proof.
  intro H. apply Forall_forall. intros c Hc.
  unfold Simple.index_files in Hc. apply in_flat_map in Hc.
  destruct Hc as (f & _ & Hc).
  destruct (skipped (f_path f)); [contradiction|].
  unfold Simple.extract_file in Hc.
  destruct (f_read f); [eapply H, Hc | contradiction].
Qed.

End IndexFacts.

(** An indexing pass of the simple program appends: the chunks already
    stored stay in front, in order, and indexing the same files a second
    time stores every chunk a second time.  The chunks of a pass come in
    three runs, markup, then script, then stylesheet, each chunk with
    score 0; and a file that is skipped or cannot be read adds
    nothing. *)
Theorem index_project_appends (html_files js_files css_files : list file)
        (code_chunks : list Simple.SearchResult) :
  let fresh := Simple.index_project html_files js_files css_files [] in
  Simple.index_project html_files js_files css_files code_chunks
  = code_chunks ++ fresh
  /\ Simple.index_project html_files js_files css_files
       (Simple.index_project html_files js_files css_files code_chunks)
     = code_chunks ++ fresh ++ fresh
  /\ (exists markup script style,
        fresh = markup ++ script ++ style
        /\ Forall (fun c => Simple.file_type c = s2l "html"
                            /\ Simple.score c = 0) markup
        /\ Forall (fun c => Simple.file_type c = s2l "js"
                            /\ Simple.score c = 0) script
        /\ Forall (fun c => Simple.file_type c = s2l "css"
                            /\ Simple.score c = 0) style)
  /\ (forall f,
        skipped (f_path f) = true \/ (exists e, f_read f = Raise e) ->
        Simple.index_project (f :: html_files) js_files css_files code_chunks
        = Simple.index_project html_files js_files css_files code_chunks
        /\ Simple.index_project html_files (f :: js_files) css_files
                                code_chunks
           = Simple.index_project html_files js_files css_files code_chunks
        /\ Simple.index_project html_files js_files (f :: css_files)
                                code_chunks
           = Simple.index_project html_files js_files css_files code_chunks).
Proof.
  intro fresh. subst fresh. unfold Simple.index_project. cbn [app].
  split; [reflexivity|]. split; [rewrite <- !app_assoc; reflexivity|].
  split.
  - eexists; eexists; eexists. split; [reflexivity|].
    split; [|split]; apply index_files_types; intros content path c Hc.
    + unfold Simple._extract_html_sections in Hc.
      apply in_app_or in Hc. destruct Hc as [Hc | Hc];
        apply in_map_iff in Hc; destruct Hc as (m & <- & _);
        split; reflexivity.
    + unfold Simple._extract_js_functions in Hc.
      apply in_flat_map in Hc. destruct Hc as (p & _ & Hc).
      apply in_map_iff in Hc. destruct Hc as (m & <- & _).
      split; reflexivity.
    + unfold Simple._extract_css_rules in Hc.
      apply in_map_iff in Hc. destruct Hc as (m & <- & _).
      split; reflexivity.
  - intros f Hf.
    assert (H : forall extractor files,
               Simple.index_files extractor (f :: files)
               = Simple.index_files extractor files).
    { intros extractor files. unfold Simple.index_files. cbn [flat_map].
      destruct Hf as [-> | [e He]]; [reflexivity|].
      unfold Simple.extract_file. rewrite He.
      destruct (skipped (f_path f)); reflexivity. }
    rewrite !H. repeat split.
Qed.

(** A page below a directory named [.github]: its path holds [.git]. *)
Lemma index_project_appends_witness :
  (skipped (s2l "/site/.github/index.html") = true
   \/ exists e, Ok (s2l "<nav id='a'>") = Raise e)
  /\ Simple.index_project
       [mkFile (s2l "/site/.github/index.html") (Ok (s2l "<nav id='a'>"))]
       [] [] Examples.contact_store
     = Simple.index_project [] [] [] Examples.contact_store.
Proof.
  assert (H : skipped (s2l "/site/.github/index.html") = true
              \/ exists e, Ok (s2l "<nav id='a'>") = Raise e)
    by (left; vm_compute; reflexivity).
  split; [exact H|].
  exact (proj1 (proj2 (proj2 (proj2
           (index_project_appends [] [] [] Examples.contact_store)))
           (mkFile (s2l "/site/.github/index.html")
                   (Ok (s2l "<nav id='a'>"))) H)).
Defined.

(** ** Indexing, then searching *)

Section IndexSearch.
Import TPP.
Variables prec emax : Z.

Lemma insert_asc_raises {A} (lt : A -> A -> result bool) (ex : exn) x l :
  (forall a b e, lt a b = Raise e -> e = ex) ->
  forall e, insert_asc lt x l = Raise e -> e = ex.
Proof.
  intro Hlt. induction l as [|y ys IH]; intros e H; cbn [insert_asc] in H;
    [discriminate|].
  destruct (lt x y) as [[|]|e'] eqn:E; cbn [bind] in H.
  - discriminate.
  - destruct (insert_asc lt x ys) as [ys'|e'']; cbn [bind] in H;
      [discriminate|].
    injection H as <-. apply IH. reflexivity.
  - injection H as <-. eapply Hlt, E.
Qed.

Lemma sort_asc_from_raises {A} (lt : A -> A -> result bool) (ex : exn) l :
  (forall a b e, lt a b = Raise e -> e = ex) ->
  forall acc e, sort_asc_from lt acc l = Raise e -> e = ex.
Proof.
  intro Hlt. induction l as [|x xs IH]; intros acc e H;
    cbn [sort_asc_from] in H; [discriminate|].
  destruct (insert_asc lt x acc) as [acc'|e'] eqn:E; cbn [bind] in H.
  - eapply IH, H.
  - injection H as <-. eapply insert_asc_raises; eassumption.
Qed.

Lemma sort_reverse_raises {A} (lt : A -> A -> result bool) (ex : exn) l :
  (forall a b e, lt a b = Raise e -> e = ex) ->
  forall e, sort_reverse lt l = Raise e -> e = ex.
Proof.
  intros Hlt e H. unfold sort_reverse, sort_asc in H.
  destruct (sort_asc_from lt [] (rev l)) as [s|e'] eqn:E; cbn [bind] in H;
    [discriminate|].
  injection H as <-. eapply sort_asc_from_raises; eassumption.
Qed.

Lemma tuple_lt_raises store a b e :
  tuple_lt store a b = Raise e -> e = TypeError.
Proof.
  unfold tuple_lt. destruct (SFeqb (fst a) (fst b)); [|discriminate].
  destruct (chunk_eqb (deref store (snd a)) (deref store (snd b)));
    [discriminate|].
  intro H. injection H as <-. reflexivity.
Qed.

(** With as many embeddings as chunks, all of the length of the query
    vector, a search returns or raises [TypeError]. *)
Lemma aligned_search encode store embeddings query top_k ft :
  List.length embeddings = List.length store ->
  Forall (fun e => List.length e = List.length (encode query)) embeddings ->
  (exists ids,
      snd (search prec emax encode store embeddings query top_k ft) = Ok ids)
  \/ snd (search prec emax encode store embeddings query top_k ft)
     = Raise TypeError.
Proof.
  intros Hlen Hall. unfold search. destruct store as [|c rest].
  - left. exists []. reflexivity.
  - destruct (@scan_candidates prec emax (encode query) ft embeddings 0
                (c :: rest) Hlen Hall) as (scores & Hs & _).
    destruct (scan prec emax (encode query) ft 0 embeddings (c :: rest))
      as [store' r].
    cbn [snd] in *. subst r. cbn [bind].
    destruct (sort_reverse (tuple_lt store') scores) as [sorted|e] eqn:E;
      cbn [bind].
    + left. eexists. reflexivity.
    + right. f_equal.
      eapply sort_reverse_raises; [|exact E].
      intros a b e'. apply tuple_lt_raises.
Qed.

End IndexSearch.

(** After an indexing pass of the rich program the store holds the old
    chunks and, behind them, the chunks of the pass; when it is not
    empty there is one embedding per chunk, that of the name, a newline
    and the content.  With an encoder that returns one vector per text,
    all of one length, a search on the indexed store therefore returns,
    or raises [TypeError] on a tie: it raises neither [IndexError] nor
    [ValueError]. *)
Theorem index_then_search (prec emax : Z) (loads : str -> result TPP.json)
        (dumps : TPP.json -> str)
        (encode_batch : list str -> list (list spec_float)) (dim : nat)
        (p : TPP.project) (code_chunks : list TPP.TPPCodeResult)
        (embeddings : list (list spec_float))
        (query : str) (top_k : Z) (ft : option str) :
  (forall texts,
      List.length (encode_batch texts) = List.length texts
      /\ Forall (fun v => List.length v = dim) (encode_batch texts)) ->
  let state :=
    TPP.index_tpp_project loads dumps encode_batch p code_chunks embeddings in
  fst state = code_chunks ++ TPP.indexed loads dumps p
  /\ (fst state <> [] ->
      snd state = encode_batch (map TPP.chunk_text (fst state))
      /\ List.length (snd state) = List.length (fst state))
  /\ ((exists ids,
         snd (TPP.search prec emax (TPP.encode_query encode_batch)
                         (fst state) (snd state) query top_k ft) = Ok ids)
      \/ snd (TPP.search prec emax (TPP.encode_query encode_batch)
                         (fst state) (snd state) query top_k ft)
         = Raise TypeError).
Proof.
  intros Henc state. subst state. unfold TPP.index_tpp_project.
  destruct (code_chunks ++ TPP.indexed loads dumps p) as [|c rest] eqn:E;
    cbn [fst snd].
  - split; [reflexivity|]. split; [congruence|].
    left. exists []. reflexivity.
  - split; [reflexivity|].
    destruct (Henc (map TPP.chunk_text (c :: rest))) as [Hl Hd].
    rewrite length_map in Hl.
    split; [intros _; split; [reflexivity | exact Hl]|].
    apply aligned_search; [exact Hl|].
    eapply Forall_impl; [|exact Hd].
    intros v Hv. rewrite Hv. unfold TPP.encode_query.
    destruct (Henc [query]) as [Hq1 Hq2].
    destruct (encode_batch [query]) as [|w ws]; [discriminate Hq1|].
    inversion Hq2; subst. reflexivity.
Qed.

Lemma index_then_search_witness :
  (forall texts,
      List.length (Examples.constant_encoder texts) = List.length texts
      /\ Forall (fun v => List.length v = 2%nat)
                (Examples.constant_encoder texts))
  /\ fst (TPP.index_tpp_project Examples.no_json Examples.no_dumps
            Examples.constant_encoder Examples.sample_project [] [])
     = [] ++ TPP.indexed Examples.no_json Examples.no_dumps
                         Examples.sample_project.
Proof.
  assert (H : forall texts,
             List.length (Examples.constant_encoder texts)
             = List.length texts
             /\ Forall (fun v => List.length v = 2%nat)
                       (Examples.constant_encoder texts)).
  { intro texts. unfold Examples.constant_encoder.
    split; [apply length_map|].
    apply Forall_forall. intros v Hv. apply in_map_iff in Hv.
    destruct Hv as (x & <- & _). reflexivity. }
  split; [exact H|].
  exact (proj1 (@index_then_search 24 128 Examples.no_json Examples.no_dumps
                  Examples.constant_encoder 2 Examples.sample_project [] []
                  (s2l "main") 10 None H)).
Defined.

(** ** The stylesheet extractor of the rich program *)

Section StripFacts.

Lemma lstrip_head (s : str) :
  lstrip s = [] \/ exists c t, lstrip s = c :: t /\ is_space c = false.
Proof.
  induction s as [|c s IH]; cbn [lstrip]; [left; reflexivity|].
  destruct (is_space c) eqn:E; [exact IH|].
  right. exists c, s. auto.
Qed.

Lemma lstrip_last (l : str) (c : ascii) :
  is_space c = false -> exists l', lstrip (l ++ [c]) = l' ++ [c].
Proof.
  intro Hc. induction l as [|x l IH]; cbn [app lstrip].
  - rewrite Hc. exists []. reflexivity.
  - destruct (is_space x); [exact IH|].
    exists (x :: l). reflexivity.
Qed.

(** A stripped text is empty or begins with a character that is not
    whitespace. *)
Lemma strip_head (s : str) :
  strip s = [] \/ exists c t, strip s = c :: t /\ is_space c = false.
Proof.
  unfold strip, rstrip.
  destruct (lstrip_head s) as [-> | (c & t & -> & Hc)];
    [left; reflexivity|].
  right. cbn [rev].
  destruct (@lstrip_last (rev t) c Hc) as [l' ->].
  rewrite rev_app_distr. cbn [rev app]. exists c, (rev l'). auto.
Qed.

Lemma lstrip_Forall (P : ascii -> Prop) (s : str) :
  Forall P s -> Forall P (lstrip s).
Proof.
  induction 1 as [|c s Hc Hs IH]; cbn [lstrip]; [constructor|].
  destruct (is_space c); [exact IH | constructor; assumption].
Qed.

Lemma strip_Forall (P : ascii -> Prop) (s : str) :
  Forall P s -> Forall P (strip s).
Proof.
  intro H. unfold strip, rstrip.
  apply Forall_rev, lstrip_Forall, Forall_rev, lstrip_Forall, H.
Qed.

Lemma Forall_take {A} (P : A -> Prop) (n : nat) (l : list A) :
  Forall P l -> Forall P (firstn n l).
Proof.
  intro H. rewrite <- (firstn_skipn n l) in H.
  apply Forall_app in H. apply H.
Qed.

Lemma newline_is_space : is_space NL = true.
Proof. reflexivity. Qed.

Lemma newlines_to_spaces_clean (s : str) :
  Forall (fun c => c <> NL) (newlines_to_spaces s).
Proof.
  unfold newlines_to_spaces. apply Forall_forall. intros c Hc.
  apply in_map_iff in Hc. destruct Hc as (x & <- & _).
  unfold ascii_eqb. destruct (Ascii.eqb x NL) eqn:E.
  - discriminate.
  - apply Ascii.eqb_neq in E. exact E.
Qed.

Lemma lstrip_fixed (c : ascii) (t : str) :
  is_space c = false -> lstrip (c :: t) = c :: t.
Proof. intro H. cbn [lstrip]. rewrite H. reflexivity. Qed.

(** A stripped text is empty, or begins and ends with characters that
    are not whitespace. *)
Lemma strip_ends (s : str) :
  strip s = []
  \/ (exists x t, strip s = x :: t /\ is_space x = false)
     /\ (exists t y, strip s = t ++ [y] /\ is_space y = false).
Proof.
  destruct (strip_head s) as [E | Hhead]; [left; exact E | right].
  split; [exact Hhead|].
  unfold strip, rstrip in *.
  destruct (lstrip_head (rev (lstrip s))) as [E | (c & t & E & Hc)].
  - rewrite E in Hhead. destruct Hhead as (x & t & Habs & _).
    discriminate Habs.
  - rewrite E. cbn [rev]. exists (rev t), c. auto.
Qed.

(** Stripping a text that begins and ends with characters that are not
    whitespace changes nothing. *)
Lemma strip_fixed (s : str) :
  (exists x t, s = x :: t /\ is_space x = false) ->
  (exists t y, s = t ++ [y] /\ is_space y = false) ->
  strip s = s.
Proof.
  intros (x & t & Hs & Hx) (t' & y & Hs' & Hy).
  unfold strip, rstrip. rewrite Hs at 1. rewrite (@lstrip_fixed x t Hx).
  rewrite <- Hs, Hs', rev_app_distr. cbn [rev app].
  rewrite (@lstrip_fixed y (rev t') Hy).
  change (y :: rev t') with ([y] ++ rev t').
  rewrite rev_app_distr, rev_involutive. reflexivity.
Qed.

Lemma not_space_kept (c : ascii) :
  is_space c = false -> (if ascii_eqb c NL then chr 32 else c) = c.
Proof.
  intro H. unfold ascii_eqb. destruct (Ascii.eqb c NL) eqn:E; [|reflexivity].
  apply Ascii.eqb_eq in E. subst c. discriminate H.
Qed.

(** The second strip of the selector, made after the newlines are
    replaced, changes nothing: the selector was stripped before. *)
Lemma strip_clean_selector (sel : str) :
  (exists x t, sel = x :: t /\ is_space x = false)
  /\ (exists t y, sel = t ++ [y] /\ is_space y = false) ->
  strip (newlines_to_spaces sel) = newlines_to_spaces sel.
Proof.
  intros [(x & t & Hs & Hx) (t' & y & Hs' & Hy)].
  apply strip_fixed.
  - exists x, (newlines_to_spaces t). rewrite Hs. unfold newlines_to_spaces.
    cbn [map]. rewrite (@not_space_kept x Hx). auto.
  - exists (newlines_to_spaces t'), y. rewrite Hs'. unfold newlines_to_spaces.
    rewrite map_app. cbn [map]. rewrite (@not_space_kept y Hy). auto.
Qed.

(** The selector as it stands in the name of a chunk. *)
Lemma selector_name_shape (selector : str) :
  (exists c t, selector = c :: t /\ is_space c = false) ->
  let selector_name := firstn 50 (strip (newlines_to_spaces selector)) in
  (1 <= List.length selector_name <= 50)%nat
  /\ Forall (fun c => c <> NL) selector_name
  /\ exists c t, selector_name = c :: t /\ is_space c = false.
Proof.
  intros (c & t & -> & Hc) selector_name. subst selector_name.
  assert (Hnl : ascii_eqb c NL = false).
  { unfold ascii_eqb. destruct (Ascii.eqb c NL) eqn:E; [|reflexivity].
    apply Ascii.eqb_eq in E. subst c. rewrite newline_is_space in Hc.
    discriminate. }
  assert (Hs : exists t', strip (newlines_to_spaces (c :: t)) = c :: t').
  { unfold newlines_to_spaces. cbn [map]. rewrite Hnl.
    unfold strip. cbn [lstrip]. rewrite Hc. unfold rstrip. cbn [rev].
    destruct (@lstrip_last (rev (map (fun c0 => if ascii_eqb c0 NL
                                                then chr 32 else c0) t))
                           c Hc) as [l' ->].
    rewrite rev_app_distr. cbn [rev app]. eexists. reflexivity. }
  destruct Hs as [t' Hs].
  split; [|split].
  - rewrite length_firstn, Hs. cbn [List.length]. lia.
  - apply Forall_take, strip_Forall, newlines_to_spaces_clean.
  - rewrite Hs. cbn [firstn]. eexists; eexists. split; [reflexivity | exact Hc].
Qed.

End StripFacts.

(** Every chunk of the rich stylesheet extractor comes from a match
    whose selector text, stripped, is neither empty nor the beginning of
    a comment.  Its name is css- and the first 50 characters of that
    stripped text with every newline replaced by a space: this is not
    empty, holds no newline and begins with a character that is not
    whitespace.  Its content is the text of the rule, from the line of
    the match to the line where the brace loop stops, capped at 400
    characters. *)
Theorem css_rule_chunks (content path category : str) :
  forall c, In c (TPP._extract_css_rules content path category) ->
    exists m selector_name,
      In m (Regex.finditer TPP.css_pattern content)
      /\ strip (Regex.group 1 content m) <> []
      /\ starts_with (s2l "/*") (strip (Regex.group 1 content m)) = false
      /\ TPP.name c = s2l "css-" ++ selector_name
      /\ selector_name
         = firstn 50 (newlines_to_spaces (strip (Regex.group 1 content m)))
      /\ (1 <= List.length selector_name <= 50)%nat
      /\ Forall (fun x => x <> NL) selector_name
      /\ (exists x t, selector_name = x :: t /\ is_space x = false)
      /\ ExtractSpec.braced_content 400 content m c.
Proof.
  intros c Hc. unfold TPP._extract_css_rules in Hc.
  apply in_flat_map in Hc. destruct Hc as (m & Hm & Hc).
  unfold TPP.css_chunk in Hc.
  pose proof (strip_ends (Regex.group 1 content m)) as Hends.
  destruct (strip (Regex.group 1 content m)) as [|x t] eqn:E;
    [contradiction|].
  destruct Hends as [Habs | Hends]; [discriminate Habs|].
  destruct (starts_with (s2l "/*") (x :: t)) eqn:Es; [contradiction|].
  destruct Hc as [<- | []].
  destruct (@selector_name_shape (x :: t) (proj1 Hends)) as (H1 & H2 & H3).
  rewrite (strip_clean_selector Hends) in H1, H2, H3.
  exists m. eexists. rewrite E.
  split; [exact Hm|]. split; [discriminate|]. split; [exact Es|].
  cbn [TPP.name TPP.code].
  split; [rewrite (strip_clean_selector Hends); reflexivity|].
  split; [reflexivity|].
  split; [exact H1|]. split; [exact H2|]. split; [exact H3|].
  destruct (braced_span _ _ _ Hm) as [pre Hb].
  exists (TPP.function_end content m), pre. eexists.
  split; [exact Hb|]. split; [apply cap_capped|].
  apply (@capped_length 400 _ _ (cap_capped 400 _)).
Qed.

Lemma css_rule_chunks_witness :
  In (hd TPP.dummy
         (TPP._extract_css_rules (s2l ".btn-primary { color: red; }") [] []))
     (TPP._extract_css_rules (s2l ".btn-primary { color: red; }") [] [])
  /\ exists m selector_name,
       TPP.name (hd TPP.dummy
                    (TPP._extract_css_rules
                       (s2l ".btn-primary { color: red; }") [] []))
       = s2l "css-" ++ selector_name
       /\ selector_name
          = firstn 50 (newlines_to_spaces
                         (strip (Regex.group
                                   1 (s2l ".btn-primary { color: red; }") m))).
Proof.
  assert (H : In (hd TPP.dummy
                    (TPP._extract_css_rules
                       (s2l ".btn-primary { color: red; }") [] []))
                 (TPP._extract_css_rules
                    (s2l ".btn-primary { color: red; }") [] []))
    by (vm_compute; left; reflexivity).
  split; [exact H|].
  destruct (css_rule_chunks (s2l ".btn-primary { color: red; }") [] [] _ H)
    as (m & sel & _ & _ & _ & Hn & Hs & _).
  exists m, sel. auto.
Defined.

(** ** The extractor of Python functions *)

Section PythonFacts.
Import Regex ExtractSpec.

Lemma exec_three (p1 p2 p3 : ascii -> bool) (r : re) s pos h :
  exec (Seq (Seq (Chr p1) (Seq (Chr p2) (Chr p3))) r) s pos = Some h ->
  exists c1 c2 c3 t,
    s = c1 :: c2 :: c3 :: t
    /\ p1 c1 = true /\ p2 c2 = true /\ p3 c3 = true
    /\ (pos + 3 <= m_end h)%nat.
Proof.
  unfold exec. cbn [run]. intro H.
  destruct s as [|c1 s]; [discriminate|].
  destruct (p1 c1) eqn:E1; [|discriminate].
  destruct s as [|c2 s]; [discriminate|].
  destruct (p2 c2) eqn:E2; [|discriminate].
  destruct s as [|c3 t]; [discriminate|].
  destruct (p3 c3) eqn:E3; [|discriminate].
  apply run_result in H. destruct H as (s' & e & caps' & Hk & Hle).
  injection Hk as <-. cbn [m_end].
  exists c1, c2, c3, t. repeat split; auto. lia.
Qed.

Lemma def_head_begins s pos h :
  exec TPP.def_head s pos = Some h ->
  starts_with (s2l "def") s = true /\ (pos + 3 <= m_end h)%nat.
Proof.
  intro H.
  change TPP.def_head
    with (Seq (Seq (Chr (eq_chr "d"%char))
                   (Seq (Chr (eq_chr "e"%char)) (Chr (eq_chr "f"%char))))
              (seqs [plus space; Group 1 (plus word); Star space; lit "(";
                     Star (ne_chr ")"%char); lit ")"; lit ":"])) in H.
  apply exec_three in H.
  destruct H as (c1 & c2 & c3 & t & -> & H1 & H2 & H3 & Hle).
  split; [|exact Hle].
  unfold eq_chr in *. cbn [starts_with s2l list_ascii_of_string].
  unfold ascii_eqb in *. rewrite Ascii.eqb_sym, H1, Ascii.eqb_sym, H2,
    Ascii.eqb_sym, H3. reflexivity.
Qed.

Lemma starts_with_split (p s : str) :
  starts_with p s = true <-> exists t, s = p ++ t.
Proof.
  revert s. induction p as [|x p IH]; intro s; cbn [starts_with app].
  - split; [intros _; exists s; reflexivity | reflexivity].
  - destruct s as [|y s].
    + split; [discriminate | intros [t Ht]; discriminate Ht].
    + rewrite andb_true_iff. unfold ascii_eqb. rewrite Ascii.eqb_eq, IH.
      split.
      * intros [-> [t ->]]. exists t. reflexivity.
      * intros [t Ht]. injection Ht as -> ->. split; [reflexivity|].
        exists t. reflexivity.
Qed.

Lemma def_end_bounds t : forall pos bol,
  (pos <= TPP.def_end t pos bol <= pos + List.length t)%nat.
Proof.
  induction t as [|c t IH]; intros pos bol; cbn [TPP.def_end List.length];
    [lia|].
  destruct (bol && starts_with (s2l "def") (c :: t)); [lia|].
  specialize (IH (S pos) (ascii_eqb c NL)). lia.
Qed.

(** A match of the Python pattern: it begins at the beginning of a line,
    on the text [def], and is at least as long as that. *)
Lemma def_finditer_go_spec s : forall pos resume bol m,
  In m (TPP.def_finditer_go s pos resume bol) ->
  exists j,
    (j < List.length s)%nat /\ m_start m = (pos + j)%nat
    /\ starts_with (s2l "def") (skipn j s) = true
    /\ (m_start m + 3 <= m_end m <= pos + List.length s)%nat
    /\ (j = 0%nat -> bol = true)
    /\ (forall j', j = S j' -> nth_error s j' = Some NL).
Proof.
  induction s as [|c s IH]; intros pos resume bol m H;
    cbn [TPP.def_finditer_go] in H; [contradiction|].
  assert (Hrest : forall resume',
            In m (TPP.def_finditer_go s (S pos) resume' (ascii_eqb c NL)) ->
            exists j,
              (j < List.length (c :: s))%nat /\ m_start m = (pos + j)%nat
              /\ starts_with (s2l "def") (skipn j (c :: s)) = true
              /\ (m_start m + 3 <= m_end m
                  <= pos + List.length (c :: s))%nat
              /\ (j = 0%nat -> bol = true)
              /\ (forall j', j = S j' -> nth_error (c :: s) j' = Some NL)).
  { intros resume' H'.
    destruct (IH _ _ _ _ H') as (j & Hj & Hs & Hd & Hb & H0 & HS).
    exists (S j). cbn [List.length skipn].
    split; [lia|]. split; [lia|]. split; [exact Hd|]. split; [lia|].
    split; [discriminate|].
    intros j' Ej. injection Ej as <-. destruct j as [|j].
    - cbn [nth_error]. f_equal. specialize (H0 eq_refl).
      unfold ascii_eqb in H0. apply Ascii.eqb_eq in H0. exact H0.
    - cbn [nth_error]. apply HS. reflexivity. }
  destruct (pos <? resume); [exact (Hrest _ H)|].
  destruct bol; [|exact (Hrest _ H)].
  destruct (exec TPP.def_head (c :: s) pos) as [h|] eqn:E;
    [|exact (Hrest _ H)].
  destruct H as [<- | H]; [|exact (Hrest _ H)].
  pose proof (exec_start _ _ _ E) as [_ Hhs].
  pose proof E as E'. unfold exec in E'. apply run_within in E'.
  destruct E' as (s' & e & caps' & Hk & Hlen). injection Hk as Hk.
  assert (Hhe : m_end h = e) by (rewrite <- Hk; reflexivity).
  apply def_head_begins in E. destruct E as [Hd H3].
  pose proof (def_end_bounds (skipn (m_end h - pos) (c :: s)) (m_end h) false)
    as Hb.
  rewrite length_skipn in Hb.
  exists 0%nat. cbn [m_start m_end skipn List.length] in *.
  split; [lia|]. split; [lia|]. split; [exact Hd|]. split; [lia|].
  split; [reflexivity | discriminate].
Qed.

End PythonFacts.

(** Every chunk of the Python extractor comes from a match that begins
    at the beginning of a line (the beginning of the text or behind a
    newline) on the text [def]; it is named by group 1, and its content
    is the matched text, which begins with [def], capped at 600
    characters.  A [def] that is indented is no chunk of its own. *)
Theorem python_function_chunks (content path category : str) :
  forall c, In c (TPP._extract_python_functions content path category) ->
    exists m,
      In m (TPP.def_finditer content)
      /\ TPP.name c = Regex.group 1 content m
      /\ ExtractSpec.capped 600 (Regex.group0 content m) (TPP.code c)
      /\ starts_with (s2l "def") (Regex.group0 content m) = true
      /\ (Regex.m_end m <= List.length content)%nat
      /\ (Regex.m_start m = 0%nat
          \/ nth_error content (Regex.m_start m - 1) = Some NL).
Proof.
  intros c Hc. unfold TPP._extract_python_functions in Hc.
  apply in_map_iff in Hc. destruct Hc as (m & <- & Hm).
  exists m. split; [exact Hm|]. split; [reflexivity|].
  split; [apply cap_capped|].
  unfold TPP.def_finditer in Hm. apply def_finditer_go_spec in Hm.
  destruct Hm as (j & Hj & Hs & Hd & Hb & H0 & HS). cbn [plus] in *.
  subst j. split; [|split; [lia|]].
  - unfold Regex.group0, slice.
    apply starts_with_split in Hd. destruct Hd as [t ->].
    apply starts_with_split.
    remember (Regex.m_end m - Regex.m_start m - 3)%nat as k eqn:Ek.
    exists (firstn k t).
    replace (Regex.m_end m - Regex.m_start m)%nat
      with (List.length (s2l "def") + k)%nat
      by (subst k; cbn [List.length s2l list_ascii_of_string]; lia).
    apply firstn_app_2.
  - destruct (Regex.m_start m) as [|j'] eqn:E; [left; reflexivity|].
    right. cbn [Nat.sub]. rewrite Nat.sub_0_r. apply HS. reflexivity.
Qed.

Lemma python_function_chunks_witness :
  In (hd TPP.dummy
         (TPP._extract_python_functions
            (s2l "import os" ++ NL :: s2l "def main():" ++ NL
                 :: s2l "    pass") [] []))
     (TPP._extract_python_functions
        (s2l "import os" ++ NL :: s2l "def main():" ++ NL
             :: s2l "    pass") [] [])
  /\ exists m,
       TPP.name (hd TPP.dummy
                    (TPP._extract_python_functions
                       (s2l "import os" ++ NL :: s2l "def main():" ++ NL
                            :: s2l "    pass") [] []))
       = Regex.group 1 (s2l "import os" ++ NL :: s2l "def main():" ++ NL
                            :: s2l "    pass") m.
Proof.
  assert (H : In (hd TPP.dummy
                    (TPP._extract_python_functions
                       (s2l "import os" ++ NL :: s2l "def main():" ++ NL
                            :: s2l "    pass") [] []))
                 (TPP._extract_python_functions
                    (s2l "import os" ++ NL :: s2l "def main():" ++ NL
                         :: s2l "    pass") [] []))
    by (vm_compute; left; reflexivity).
  split; [exact H|].
  destruct (python_function_chunks _ _ _ _ H) as (m & _ & Hn & _).
  exists m. exact Hn.
Defined.

(** ** The embedding search without ties *)

Section NoTies.
Import TPP TPPSpec.
Variables prec emax : Z.

Lemma insert_asc_ok {A} (lt : A -> A -> result bool) x l :
  (forall y, In y l -> exists b, lt x y = Ok b) ->
  exists l', insert_asc lt x l = Ok l'.
Proof.
  induction l as [|y ys IH]; intro H; cbn [insert_asc].
  - eexists. reflexivity.
  - destruct (H y (or_introl eq_refl)) as [b ->]. cbn [bind].
    destruct b; [eexists; reflexivity|].
    destruct IH as [ys' ->]; [intros z Hz; apply H; right; exact Hz|].
    eexists. reflexivity.
Qed.

Lemma sort_asc_from_ok {A} (lt : A -> A -> result bool) l : forall acc,
  NoDup (acc ++ l) ->
  (forall a b, In a (acc ++ l) -> In b (acc ++ l) -> a <> b ->
               exists bo, lt a b = Ok bo) ->
  exists r, sort_asc_from lt acc l = Ok r.
Proof.
  induction l as [|x xs IH]; intros acc Hn H; cbn [sort_asc_from].
  - eexists. reflexivity.
  - destruct (@insert_asc_ok _ lt x acc) as [acc' E].
    { intros y Hy. apply H.
      - apply in_or_app. right. left. reflexivity.
      - apply in_or_app. left. exact Hy.
      - intros <-. apply NoDup_remove_2 in Hn. apply Hn.
        apply in_or_app. left. exact Hy. }
    rewrite E. cbn [bind].
    assert (Hp : Permutation (acc' ++ xs) (acc ++ x :: xs)).
    { rewrite (insert_asc_perm _ _ _ E). cbn [app].
      apply Permutation_middle. }
    apply IH.
    + apply (Permutation_NoDup (Permutation_sym Hp)), Hn.
    + intros a b Ha Hb. apply H; apply (Permutation_in _ Hp); assumption.
Qed.

Lemma sort_reverse_ok {A} (lt : A -> A -> result bool) l :
  NoDup l ->
  (forall a b, In a l -> In b l -> a <> b -> exists bo, lt a b = Ok bo) ->
  exists r, sort_reverse lt l = Ok r.
Proof.
  intros Hn H. unfold sort_reverse, sort_asc.
  destruct (@sort_asc_from_ok _ lt (rev l) []) as [s ->].
  - cbn [app]. apply NoDup_rev, Hn.
  - cbn [app]. intros a b Ha Hb. apply H; apply in_rev; assumption.
  - eexists. reflexivity.
Qed.

Lemma unfiltered_NoDup ft chunks : forall i, NoDup (unfiltered ft i chunks).
Proof.
  induction chunks as [|c rest IH]; intro i; cbn [unfiltered]; [constructor|].
  destruct (filtered_out ft c); [apply IH|].
  constructor; [|apply IH].
  intro H. apply unfiltered_In in H. destruct H as (m & Hm & _). lia.
Qed.

Lemma NoDup_of_map {A B} (f : A -> B) (l : list A) :
  NoDup (map f l) -> NoDup l /\ forall a b, In a l -> In b l -> a <> b ->
                                            f a <> f b.
Proof.
  induction l as [|x l IH]; cbn [map]; intro H.
  - split; [constructor | intros a b []].
  - inversion H as [|? ? Hx Hl]; subst. destruct (IH Hl) as [Hn Hf].
    split.
    + constructor; [|exact Hn]. intro Hin. apply Hx, in_map, Hin.
    + intros a b [<- | Ha] [<- | Hb] Hab.
      * congruence.
      * intro E. apply Hx. rewrite E. apply in_map, Hb.
      * intro E. apply Hx. rewrite <- E. apply in_map, Ha.
      * apply Hf; assumption.
Qed.

Variable encode : str -> list spec_float.

(** When every chunk has its embedding and no two chunks that pass the
    filter have equal similarity to the query, the search returns: the
    sort never has to compare two chunks. *)
Theorem embedding_search_returns_without_ties
        (store : list TPPCodeResult) (embeddings : list (list spec_float))
        (query : str) (top_k : Z) (ft : option str) :
  List.length embeddings = List.length store ->
  Forall (fun e => List.length e = List.length (encode query)) embeddings ->
  (forall i j si sj,
      i <> j ->
      (i < List.length store)%nat -> (j < List.length store)%nat ->
      filtered_out ft (nth i store dummy) = false ->
      filtered_out ft (nth j store dummy) = false ->
      similarity prec emax (encode query) (nth i embeddings []) = Ok si ->
      similarity prec emax (encode query) (nth j embeddings []) = Ok sj ->
      SFeqb si sj = false) ->
  exists ids,
    snd (search prec emax encode store embeddings query top_k ft) = Ok ids.
Proof.
  intros Hlen Hall Hties. unfold search. destruct store as [|c rest].
  - exists []. reflexivity.
  - destruct (@scan_candidates prec emax (encode query) ft embeddings 0
                (c :: rest) Hlen Hall) as (scores & Hs & Hm).
    pose proof (scan_ok _ _ _ _ _ _ _ Hs) as (_ & _ & Hsc).
    destruct (scan prec emax (encode query) ft 0 embeddings (c :: rest))
      as [store' r].
    cbn [snd fst] in *. subst r. cbn [bind].
    assert (Hcand : forall s i, In (s, i) scores ->
              (i < List.length (c :: rest))%nat
              /\ filtered_out ft (nth i (c :: rest) dummy) = false).
    { intros s i Hin.
      assert (Hi : In i (unfiltered ft 0 (c :: rest))).
      { rewrite <- Hm. change i with (snd (s, i)). apply in_map, Hin. }
      apply unfiltered_In in Hi. destruct Hi as (m & -> & Hm1 & Hm2).
      split; assumption. }
    assert (Hnd : NoDup (map snd scores))
      by (rewrite Hm; apply unfiltered_NoDup).
    apply NoDup_of_map in Hnd. destruct Hnd as [Hn Hinj].
    destruct (@sort_reverse_ok _ (tuple_lt store') scores Hn) as [sorted ->].
    + intros [s1 i] [s2 j] Ha Hb Hab.
      pose proof (Hinj _ _ Ha Hb Hab) as Hij. cbn [snd] in Hij.
      destruct (Hsc _ _ Ha) as (_ & H1 & _).
      destruct (Hsc _ _ Hb) as (_ & H2 & _).
      destruct (Hcand _ _ Ha) as [Hi1 Hi2].
      destruct (Hcand _ _ Hb) as [Hj1 Hj2].
      rewrite Nat.sub_0_r in H1, H2.
      unfold tuple_lt. cbn [fst snd].
      rewrite (Hties i j s1 s2 Hij Hi1 Hj1 Hi2 Hj2 H1 H2).
      eexists. reflexivity.
    + cbn [bind]. eexists. reflexivity.
Qed.

End NoTies.

Lemma embedding_search_returns_without_ties_witness :
  List.length Examples.distinct_vectors = List.length Examples.two_pages
  /\ exists ids,
       snd (TPP.search 24 128 Examples.encode_10 Examples.two_pages
                       Examples.distinct_vectors (s2l "menu") 10 None)
       = Ok ids.
Proof.
  assert (H : List.length Examples.distinct_vectors
              = List.length Examples.two_pages) by reflexivity.
  split; [exact H|].
  apply (@embedding_search_returns_without_ties 24 128 Examples.encode_10
           Examples.two_pages Examples.distinct_vectors (s2l "menu") 10 None
           H).
  - repeat constructor.
  - intros [|[|i]] [|[|j]] si sj Hij Hi Hj _ _ H1 H2; try congruence;
      cbn in Hi, Hj; try lia.
    + vm_compute in H1, H2. injection H1 as <-. injection H2 as <-.
      reflexivity.
    + vm_compute in H1, H2. injection H1 as <-. injection H2 as <-.
      reflexivity.
Defined.
